(** * nihon-vocab-trainer: the review engine of [vocab_v4.0.0.py]

    A shallow embedding of the transliteration functions, the SM-2 scheduler,
    the card queries and the handlers of [StudyWindow], with the properties
    the specification states about them.

    Python values are modelled as follows.
    - [str] is a list of Unicode code points ([list Z]); string literals of
      the source are written as UTF-8 literals and decoded by [u].
    - [int] is [Z]; [float] is the kernel's binary64 [float], whose
      operations round to nearest-even as CPython's do.
    - [None] is [None] of an [option]; a raised exception is [Raise]. *)

From Stdlib Require Import ZArith List Bool Lia.
From Stdlib Require Import Strings.String Strings.Ascii.
From Stdlib Require Import Floats.
From Stdlib Require Import Sorted Zpower.
From stdpp Require Import base list gmap.

Set Warnings "-inexact-float".
Local Open Scope Z_scope.

(** ** Python strings *)

Module PyStr.

Abbreviation codepoint := Z (only parsing).
Abbreviation pystr := (list Z) (only parsing).

(** The bytes of a literal as the source file stores it. *)
Fixpoint bytes_of (s : string) : list Z :=
  match s with
  | EmptyString => []
  | String a r => Z.of_N (N_of_ascii a) :: bytes_of r
  end.

(** UTF-8 decoding of well-formed input (one to four bytes per code point). *)
Fixpoint utf8_decode (bs : list Z) : pystr :=
  match bs with
  | [] => []
  | b0 :: r0 =>
      if b0 <? 0x80 then b0 :: utf8_decode r0
      else
        match r0 with
        | [] => []
        | b1 :: r1 =>
            if b0 <? 0xE0 then
              ((b0 - 0xC0) * 64 + (b1 - 0x80)) :: utf8_decode r1
            else
              match r1 with
              | [] => []
              | b2 :: r2 =>
                  if b0 <? 0xF0 then
                    ((b0 - 0xE0) * 4096 + (b1 - 0x80) * 64 + (b2 - 0x80))
                      :: utf8_decode r2
                  else
                    match r2 with
                    | [] => []
                    | b3 :: r3 =>
                        ((b0 - 0xF0) * 262144 + (b1 - 0x80) * 4096
                         + (b2 - 0x80) * 64 + (b3 - 0x80)) :: utf8_decode r3
                    end
              end
        end
  end.

(** [u "..."] is the Python string written by the literal. *)
Definition u (s : string) : pystr := utf8_decode (bytes_of s).

(** Equality of strings, [a == b]. *)
Fixpoint str_eqb (a b : pystr) : bool :=
  match a, b with
  | [], [] => true
  | x :: a', y :: b' => (x =? y) && str_eqb a' b'
  | _, _ => false
  end.

(** [c in s] for a one-character [c]. *)
Definition char_in (c : codepoint) (s : pystr) : bool :=
  existsb (Z.eqb c) s.

(** [str.isspace] on one code point: the code points CPython's
    [_PyUnicode_IsWhitespace] accepts. *)
Definition is_space (c : codepoint) : bool :=
  ((0x09 <=? c) && (c <=? 0x0D)) || ((0x1C <=? c) && (c <=? 0x20))
  || (c =? 0x85) || (c =? 0xA0) || (c =? 0x1680)
  || ((0x2000 <=? c) && (c <=? 0x200A))
  || (c =? 0x2028) || (c =? 0x2029) || (c =? 0x202F) || (c =? 0x205F)
  || (c =? 0x3000).

Fixpoint lstrip (s : pystr) : pystr :=
  match s with
  | [] => []
  | c :: r => if is_space c then lstrip r else s
  end.

Definition rstrip (s : pystr) : pystr := rev (lstrip (rev s)).

(** [s.strip()] *)
Definition strip (s : pystr) : pystr := lstrip (rstrip s).

(** [s.startswith(p)] *)
Fixpoint startswith (p s : pystr) : bool :=
  match p, s with
  | [], _ => true
  | x :: p', y :: s' => (x =? y) && startswith p' s'
  | _ :: _, [] => false
  end.

(** [s.replace(a, b)] for a non-empty [a]: the occurrences of [a] are
    replaced from left to right, without overlap.  [skip] counts the
    characters of a matched occurrence that are still to be dropped. *)
Fixpoint replace_from (a b : pystr) (skip : nat) (s : pystr) : pystr :=
  match s with
  | [] => []
  | c :: r =>
      match skip with
      | S k => replace_from a b k r
      | O =>
          if startswith a s
          then b ++ replace_from a b (Nat.pred (length a)) r
          else c :: replace_from a b O r
      end
  end.

Definition replace (a b s : pystr) : pystr := replace_from a b O s.

(** [dict.get(key)] on a dictionary literal, kept as its list of items. *)
Fixpoint dict_get {V : Type} (key : pystr) (d : list (pystr * V)) : option V :=
  match d with
  | [] => None
  | (k, v) :: d' => if str_eqb key k then Some v else dict_get key d'
  end.

(** [str.join] with the empty separator. *)
Definition join (parts : list pystr) : pystr := concat parts.

End PyStr.

(** ** Transliteration between kana and romaji *)

Module Translit.
Import PyStr.

Definition _has_kana (s : pystr) : bool :=
  existsb (fun code =>
             ((0x3040 <=? code) && (code <=? 0x309F))
             || ((0x30A0 <=? code) && (code <=? 0x30FF))) s.

Definition _has_kanji (s : pystr) : bool :=
  existsb (fun code => (0x4E00 <=? code) && (code <=? 0x9FFF)) s.

Definition _kata_to_hira (s : pystr) : pystr :=
  map (fun code =>
         if (0x30A1 <=? code) && (code <=? 0x30F6) then code - 0x60 else code) s.

Definition _hira_to_kata (s : pystr) : pystr :=
  map (fun code =>
         if (0x3041 <=? code) && (code <=? 0x3096) then code + 0x60
         else if code =? 0x3094 then 0x30F4
         else if code =? 0x3095 then 0x30F5
         else if code =? 0x3096 then 0x30F6
         else code) s.

Module K2R.

Definition digraph : list (pystr * pystr) := Eval vm_compute in
  map (fun kv => (u (fst kv), u (snd kv)))
  [ ("きゃ", "kya"); ("きゅ", "kyu"); ("きょ", "kyo");
    ("ぎゃ", "gya"); ("ぎゅ", "gyu"); ("ぎょ", "gyo");
    ("しゃ", "sha"); ("しゅ", "shu"); ("しょ", "sho");
    ("じゃ", "ja"); ("じゅ", "ju"); ("じょ", "jo");
    ("ちゃ", "cha"); ("ちゅ", "chu"); ("ちょ", "cho");
    ("にゃ", "nya"); ("にゅ", "nyu"); ("にょ", "nyo");
    ("ひゃ", "hya"); ("ひゅ", "hyu"); ("ひょ", "hyo");
    ("びゃ", "bya"); ("びゅ", "byu"); ("びょ", "byo");
    ("ぴゃ", "pya"); ("ぴゅ", "pyu"); ("ぴょ", "pyo");
    ("みゃ", "mya"); ("みゅ", "myu"); ("みょ", "myo");
    ("りゃ", "rya"); ("りゅ", "ryu"); ("りょ", "ryo");
    ("ゔぁ", "va"); ("ゔぃ", "vi"); ("ゔぇ", "ve"); ("ゔぉ", "vo") ]%string.

(** The last entry maps [っ] to the empty string. *)
Definition mono : list (pystr * pystr) := Eval vm_compute in
  map (fun kv => (u (fst kv), u (snd kv)))
  [ ("あ", "a"); ("い", "i"); ("う", "u"); ("え", "e"); ("お", "o");
    ("か", "ka"); ("き", "ki"); ("く", "ku"); ("け", "ke"); ("こ", "ko");
    ("が", "ga"); ("ぎ", "gi"); ("ぐ", "gu"); ("げ", "ge"); ("ご", "go");
    ("さ", "sa"); ("し", "shi"); ("す", "su"); ("せ", "se"); ("そ", "so");
    ("ざ", "za"); ("じ", "ji"); ("ず", "zu"); ("ぜ", "ze"); ("ぞ", "zo");
    ("た", "ta"); ("ち", "chi"); ("つ", "tsu"); ("て", "te"); ("と", "to");
    ("だ", "da"); ("ぢ", "ji"); ("づ", "zu"); ("で", "de"); ("ど", "do");
    ("な", "na"); ("に", "ni"); ("ぬ", "nu"); ("ね", "ne"); ("の", "no");
    ("は", "ha"); ("ひ", "hi"); ("ふ", "fu"); ("へ", "he"); ("ほ", "ho");
    ("ば", "ba"); ("び", "bi"); ("ぶ", "bu"); ("べ", "be"); ("ぼ", "bo");
    ("ぱ", "pa"); ("ぴ", "pi"); ("ぷ", "pu"); ("ぺ", "pe"); ("ぽ", "po");
    ("ま", "ma"); ("み", "mi"); ("む", "mu"); ("め", "me"); ("も", "mo");
    ("や", "ya"); ("ゆ", "yu"); ("よ", "yo");
    ("ら", "ra"); ("り", "ri"); ("る", "ru"); ("れ", "re"); ("ろ", "ro");
    ("わ", "wa"); ("を", "o"); ("ん", "n");
    ("ぁ", "a"); ("ぃ", "i"); ("ぅ", "u"); ("ぇ", "e"); ("ぉ", "o");
    ("ゔ", "vu"); ("ゎ", "wa"); ("ゕ", "ka"); ("ゖ", "ka");
    ("ー", "-") ]%string
  ++ [ (u "っ", []) ].

End K2R.

(** The small tsu, [っ]. *)
Definition sokuon_char : codepoint := 0x3063.

Definition consonants : pystr := Eval vm_compute in u "bcdfghjklmnpqrstvwxyz".
Definition vowels : pystr := Eval vm_compute in u "aeiou".

(** [if sokuon and token and token[0] in "bcdfghjklmnpqrstvwxyz":
        token = token[0] + token] *)
Definition double_first (sokuon : bool) (token : pystr) : pystr :=
  match token with
  | t0 :: _ => if sokuon && char_in t0 consonants then t0 :: token else token
  | [] => token
  end.

(** [mono.get(ch, ch)] *)
Definition mono_token (ch : codepoint) : pystr :=
  default [ch] (dict_get [ch] K2R.mono).

(** The first loop of [kana_to_romaji].  The loop index [i] is kept as the
    rest [k[i:]] of the string; [sokuon] is the loop's flag and the result
    is the list [res]. *)
Fixpoint romaji_tokens (k : pystr) (sokuon : bool) : list pystr :=
  match k with
  | [] => []
  | ch :: rest =>
      if ch =? sokuon_char then romaji_tokens rest true
      else
        match rest with
        | c2 :: rest2 =>
            match dict_get [ch; c2] K2R.digraph with
            | Some token => double_first sokuon token :: romaji_tokens rest2 false
            | None => double_first sokuon (mono_token ch) :: romaji_tokens rest false
            end
        | [] => double_first sokuon (mono_token ch) :: romaji_tokens rest false
        end
  end.

(** The token ["-"] that [ー] is mapped to. *)
Definition long_mark : pystr := Eval vm_compute in u "-".

(** [for c in reversed(token): if c in vowels: last_vowel = c; break] *)
Definition update_last_vowel (last_vowel token : pystr) : pystr :=
  match find (fun c => char_in c vowels) (rev token) with
  | Some c => [c]
  | None => last_vowel
  end.

(** The second loop: the long-vowel mark repeats the last vowel. *)
Fixpoint lengthen (res : list pystr) (last_vowel : pystr) : list pystr :=
  match res with
  | [] => []
  | token :: res' =>
      if str_eqb token long_mark
      then last_vowel :: lengthen res' last_vowel
      else token :: lengthen res' (update_last_vowel last_vowel token)
  end.

Definition kana_to_romaji (kana : pystr) : pystr :=
  match kana with
  | [] => []
  | _ =>
      let k := _kata_to_hira kana in
      let res := romaji_tokens k false in
      join (lengthen res [])
  end.

Module R2K.

(** Small kana, written with a leading [x]. *)
Definition xmap : list (pystr * pystr) := Eval vm_compute in
  map (fun kv => (u (fst kv), u (snd kv)))
  [ ("xa", "ぁ"); ("xi", "ぃ"); ("xu", "ぅ"); ("xe", "ぇ"); ("xo", "ぉ");
    ("xya", "ゃ"); ("xyu", "ゅ"); ("xyo", "ょ");
    ("xtsu", "っ"); ("xwa", "ゎ") ]%string.

Definition digraph : list (pystr * pystr) := Eval vm_compute in
  map (fun kv => (u (fst kv), u (snd kv)))
  [ ("kya", "きゃ"); ("kyu", "きゅ"); ("kyo", "きょ");
    ("gya", "ぎゃ"); ("gyu", "ぎゅ"); ("gyo", "ぎょ");
    ("sha", "しゃ"); ("shu", "しゅ"); ("sho", "しょ");
    ("ja", "じゃ"); ("ju", "じゅ"); ("jo", "じょ");
    ("cha", "ちゃ"); ("chu", "ちゅ"); ("cho", "ちょ");
    ("nya", "にゃ"); ("nyu", "にゅ"); ("nyo", "にょ");
    ("hya", "ひゃ"); ("hyu", "ひゅ"); ("hyo", "ひょ");
    ("bya", "びゃ"); ("byu", "びゅ"); ("byo", "びょ");
    ("pya", "ぴゃ"); ("pyu", "ぴゅ"); ("pyo", "ぴょ");
    ("mya", "みゃ"); ("myu", "みゅ"); ("myo", "みょ");
    ("rya", "りゃ"); ("ryu", "りゅ"); ("ryo", "りょ") ]%string.

Definition mono : list (pystr * pystr) := Eval vm_compute in
  map (fun kv => (u (fst kv), u (snd kv)))
  [ ("a", "あ"); ("i", "い"); ("u", "う"); ("e", "え"); ("o", "お");
    ("ka", "か"); ("ki", "き"); ("ku", "く"); ("ke", "け"); ("ko", "こ");
    ("ga", "が"); ("gi", "ぎ"); ("gu", "ぐ"); ("ge", "げ"); ("go", "ご");
    ("sa", "さ"); ("shi", "し"); ("su", "す"); ("se", "せ"); ("so", "そ");
    ("za", "ざ"); ("ji", "じ"); ("zu", "ず"); ("ze", "ぜ"); ("zo", "ぞ");
    ("ta", "た"); ("chi", "ち"); ("tsu", "つ"); ("te", "て"); ("to", "と");
    ("da", "だ"); ("di", "ぢ"); ("du", "づ"); ("de", "で"); ("do", "ど");
    ("na", "な"); ("ni", "に"); ("nu", "ぬ"); ("ne", "ね"); ("no", "の");
    ("ha", "は"); ("hi", "ひ"); ("fu", "ふ"); ("he", "へ"); ("ho", "ほ");
    ("ba", "ば"); ("bi", "び"); ("bu", "ぶ"); ("be", "べ"); ("bo", "ぼ");
    ("pa", "ぱ"); ("pi", "ぴ"); ("pu", "ぷ"); ("pe", "ぺ"); ("po", "ぽ");
    ("ma", "ま"); ("mi", "み"); ("mu", "む"); ("me", "め"); ("mo", "も");
    ("ya", "や"); ("yu", "ゆ"); ("yo", "よ");
    ("ra", "ら"); ("ri", "り"); ("ru", "る"); ("re", "れ"); ("ro", "ろ");
    ("wa", "わ"); ("wo", "を") ]%string.

Definition reps : list (pystr * pystr) := Eval vm_compute in
  map (fun kv => (u (fst kv), u (snd kv)))
  [ ("kixya", "kya"); ("kixyu", "kyu"); ("kixyo", "kyo");
    ("gixya", "gya"); ("gixyu", "gyu"); ("gixyo", "gyo");
    ("sixya", "sha"); ("sixyu", "shu"); ("sixyo", "sho");
    ("shixya", "sha"); ("shixyu", "shu"); ("shixyo", "sho");
    ("jixya", "ja"); ("jixyu", "ju"); ("jixyo", "jo");
    ("chixya", "cha"); ("chixyu", "chu"); ("chixyo", "cho");
    ("nixya", "nya"); ("nixyu", "nyu"); ("nixyo", "nyo");
    ("hixya", "hya"); ("hixyu", "hyu"); ("hixyo", "hyo");
    ("bixya", "bya"); ("bixyu", "byu"); ("bixyo", "byo");
    ("pixya", "pya"); ("pixyu", "pyu"); ("pixyo", "pyo");
    ("mixya", "mya"); ("mixyu", "myu"); ("mixyo", "myo");
    ("rixya", "rya"); ("rixyu", "ryu"); ("rixyo", "ryo") ]%string.

(** [vowels = set("aeiou")], a set of one-character strings. *)
Definition vowels : list pystr := Eval vm_compute in
  map u [ "a"; "e"; "i"; "o"; "u" ]%string.

End R2K.

(** [for a, b in reps: d = d.replace(a, b)] *)
Definition _merge_split_x (d : pystr) : pystr :=
  fold_left (fun d ab => replace (fst ab) (snd ab) d) R2K.reps d.

(** The syllabic n, [ん], and the letters the parser tests for. *)
Definition hira_n : pystr := Eval vm_compute in u "ん".
Definition x_marker : pystr := Eval vm_compute in u "x".
Definition roma_n : pystr := Eval vm_compute in u "n".
Definition roma_y : pystr := Eval vm_compute in u "y".

(** One iteration of the loop of [romaji_to_kana] at [rest = s[i:]], so that
    [_peek n] is [firstn n rest]: the kana it appends to [out] and the
    number it adds to [i], or [None] where the source has [return None]. *)
Definition parse_at (rest : pystr) : option (pystr * nat) :=
  let _peek (n : nat) : pystr := firstn n rest in
  if str_eqb (_peek 1%nat) x_marker then
    match dict_get (_peek 4%nat) R2K.xmap with
    | Some k => Some (k, 4%nat)
    | None =>
        match dict_get (_peek 3%nat) R2K.xmap with
        | Some k => Some (k, 3%nat)
        | None =>
            match dict_get (_peek 2%nat) R2K.xmap with
            | Some k => Some (k, 2%nat)
            | None => None
            end
        end
    end
  else
    match dict_get (_peek 3%nat) R2K.digraph with
    | Some k => Some (k, 3%nat)
    | None =>
    match dict_get (_peek 3%nat) R2K.mono with
    | Some k => Some (k, 3%nat)
    | None =>
    match dict_get (_peek 2%nat) R2K.mono with
    | Some k => Some (k, 2%nat)
    | None =>
    match dict_get (_peek 1%nat) R2K.mono with
    | Some k => Some (k, 1%nat)
    | None =>
        if str_eqb (_peek 1%nat) roma_n then
          let nxt := firstn 1 (skipn 1 rest) in
          if str_eqb nxt []
             || (negb (existsb (str_eqb nxt) R2K.vowels)
                 && negb (str_eqb nxt roma_y))
          then Some (hira_n, 1%nat)
          else None
        else None
    end end end end.

(** The loop [while i < len(s)].  Every iteration adds at least one to
    [i], so the loop runs at most [len(s)] times; [fuel] bounds the
    iterations, and the outer [None] says the bound was hit, which
    [romaji_to_kana] never does (see [parse_loop_fuel]).  The inner option
    is the loop's own outcome. *)
Fixpoint parse_loop (fuel : nat) (rest : pystr) (out : list pystr)
  : option (option (list pystr)) :=
  match fuel with
  | O => None
  | S fuel' =>
      match rest with
      | [] => Some (Some out)
      | _ :: _ =>
          match parse_at rest with
          | Some (k, n) => parse_loop fuel' (skipn n rest) (out ++ [k])
          | None => Some None
          end
      end
  end.

Section Romaji.

(** [str.lower] follows the Unicode character database, which is not part
    of the repository: on a string of ASCII characters it is the map below,
    on any other string it is the parameter [unicode_lower]. *)
Variable unicode_lower : pystr -> pystr.

Definition ascii_lower (c : codepoint) : codepoint :=
  if (0x41 <=? c) && (c <=? 0x5A) then c + 0x20 else c.

Definition lower (s : pystr) : pystr :=
  if forallb (fun c => c <? 0x80) s then map ascii_lower s else unicode_lower s.

Definition romaji_to_kana (roma : pystr) : option (pystr * pystr) :=
  match roma with
  | [] => None
  | _ :: _ =>
      let s := lower (strip roma) in
      let s := _merge_split_x s in
      match parse_loop (S (length s)) s [] with
      | Some (Some out) =>
          let hira := join out in
          let kata := _hira_to_kata hira in
          Some (hira, kata)
      | _ => None
      end
  end.

(** [for j in range(len(s) - 1, -1, -1)]: the prefixes [s[:n-1]], ..., [s[:0]]. *)
Fixpoint longest_prefix (s : pystr) (n : nat) : pystr * pystr :=
  match n with
  | O => ([], [])
  | S j =>
      match romaji_to_kana (firstn j s) with
      | Some r => r
      | None => longest_prefix s j
      end
  end.

Definition romaji_to_kana_relaxed (s : pystr) : pystr * pystr :=
  let s := lower (strip s) in
  match s with
  | [] => ([], [])
  | _ :: _ =>
      match romaji_to_kana s with
      | Some res => res
      | None => longest_prefix s (length s)
      end
  end.

End Romaji.

(** [_is_romaji]: [s.encode("ascii")] succeeds when every code point is
    below 128. *)
Definition _is_romaji (s : pystr) : bool :=
  match s with
  | [] => false
  | _ :: _ =>
      if _has_kana s || _has_kanji s then false
      else forallb (fun c => c <? 0x80) s
  end.

(** ASCII-only lowering, an instance of the parameter for examples. *)
Definition no_unicode_lower (s : pystr) : pystr := s.

(** *** Notions the properties are stated with *)

(** The key of the entry has two characters, the second of them [c2]. *)
Definition second_is (c2 : Z) (kv : list Z * list Z) : bool :=
  match fst kv with
  | [_; k2] => c2 =? k2
  | _ => false
  end.

(** The token the loop produces first on [k], before any doubling. *)
Definition first_token (k : list Z) : option (list Z) :=
  match k with
  | [] => None
  | ch :: rest =>
      if ch =? sokuon_char then None
      else
        match rest with
        | c2 :: _ =>
            match dict_get [ch; c2] K2R.digraph with
            | Some token => Some token
            | None => Some (mono_token ch)
            end
        | [] => Some (mono_token ch)
        end
  end.

Definition begins_with_vowel (token : list Z) : Prop :=
  match token with
  | t0 :: _ => char_in t0 vowels = true
  | [] => False
  end.

(** The small tsu, in hiragana or in katakana. *)
Definition is_small_tsu (c : Z) : Prop := c = 0x3063 \/ c = 0x30C3.

(** The syllables both directions spell alike, as [(kana, romaji)]: the
    monographs and the three-letter digraphs of [romaji_to_kana] that
    [kana_to_romaji] maps back to the same letters, and [ん]. *)
Definition stable : list (list Z * list Z) := Eval vm_compute in
  map (fun kv => (snd kv, fst kv))
    (List.filter
       (fun kv => (length (fst kv) =? 3)%nat
                  && match dict_get (snd kv) K2R.digraph with
                     | Some r => str_eqb r (fst kv)
                     | None => false
                     end) R2K.digraph
     ++ List.filter
       (fun kv => match dict_get (snd kv) K2R.mono with
                  | Some r => str_eqb r (fst kv)
                  | None => false
                  end) R2K.mono)
  ++ [(hira_n, roma_n)].

Definition romaji_of (y : list Z) : list Z := default [] (dict_get y stable).

Definition glide_or_vowel : list Z := Eval vm_compute in u "aeiouy".

Definition begins_with_glide_or_vowel (r : list Z) : bool :=
  match r with
  | c :: _ => char_in c glide_or_vowel
  | [] => false
  end.

(** No [ん] stands before a syllable whose romaji begins with a vowel or [y]. *)
Fixpoint nasal_ok (ws : list (list Z)) : bool :=
  match ws with
  | [] => true
  | y :: ws' =>
      (if str_eqb y hira_n then
         match ws' with
         | y' :: _ => negb (begins_with_glide_or_vowel (romaji_of y'))
         | [] => true
         end
       else true) && nasal_ok ws'
  end.

Definition letters : list Z := Eval vm_compute in u "abcdefghijklmnopqrstuvwyz".

(** What can follow a token: the next (at most two) letters. *)
Definition contexts : list (list Z) := Eval vm_compute in
  [] :: map (fun a => [a]) letters
     ++ map (fun ab => [fst ab; snd ab]) (list_prod letters letters).

(** The checks run over the table [stable]: how [kana_to_romaji] reads the
    kana of an entry, what the letters of its romaji are, and how [parse_at]
    reads them before each context. *)
Definition kana_ok (kv : list Z * list Z) : bool :=
  let '(y, r) := kv in
  forallb (fun c => c <? 0x30A1) y
  && match y with
     | [c] => negb (c =? sokuon_char) && str_eqb (mono_token c) r
              && negb (existsb (second_is c) K2R.digraph)
     | [c1; c2] => negb (c1 =? sokuon_char)
                   && match dict_get [c1; c2] K2R.digraph with
                      | Some t => str_eqb t r
                      | None => false
                      end
                   && negb (existsb (second_is c1) K2R.digraph)
     | _ => false
     end.

Definition romaji_ok (kv : list Z * list Z) : bool :=
  let '(y, r) := kv in
  negb (str_eqb r long_mark) && negb (str_eqb r [])
  && forallb (fun c => char_in c letters) r
  && implb (str_eqb r roma_n) (str_eqb y hira_n).

Definition context_ok (r ctx : list Z) : bool :=
  negb (str_eqb r roma_n) || negb (begins_with_glide_or_vowel ctx).

Definition step_ok (kv : list Z * list Z) (ctx : list Z) : bool :=
  let '(y, r) := kv in
  implb (context_ok r ctx)
    match parse_at (r ++ ctx) with
    | Some (k, n) =>
        str_eqb k y
        && ((n =? length r)%nat
            || (length r <=? n)%nat && str_eqb ctx [])
    | None => false
    end.

Definition is_stable (y : list Z) : Prop := is_Some (dict_get y stable).

(** The first character of a text of stable syllables is no second half of
    a digraph. *)
Definition safe_head (rest : list Z) : Prop :=
  match rest with
  | [] => True
  | c :: _ => existsb (second_is c) K2R.digraph = false
  end.

Definition letter (c : Z) : Prop := char_in c letters = true.

(** *** Notions of the kana conversions *)

(** No character of the block [ァ]..[ヶ] that [_kata_to_hira] shifts. *)
Definition no_katakana (s : list Z) : bool :=
  forallb (fun c => negb ((0x30A1 <=? c) && (c <=? 0x30F6))) s.

(** No character of the block [ぁ]..[ゖ] that [_hira_to_kata] shifts. *)
Definition no_hiragana (s : list Z) : bool :=
  forallb (fun c => negb ((0x3041 <=? c) && (c <=? 0x3096))) s.

Definition is_key (c : Z) : bool :=
  match dict_get [c] K2R.mono with
  | Some _ => true
  | None => false
  end.

(** A character [kana_to_romaji] copies: not shifted by [_kata_to_hira],
    not a key of [mono], and not the hyphen, which the long-vowel loop
    takes for the token of [ー]. *)
Definition plain (c : Z) : bool :=
  negb ((0x30A1 <=? c) && (c <=? 0x30F6)) && negb (is_key c) && negb (c =? 0x2D).

(** The token has a vowel. *)
Definition has_vowel (token : list Z) : bool :=
  existsb (fun c => char_in c vowels) token.

(** A long-vowel mark: [ー], or the hyphen, which has the same token. *)
Definition is_long_mark (c : Z) : Prop := c = 0x30FC \/ c = 0x2D.

(** The last vowel of a romanization, as a string; empty if it has none. *)
Definition last_vowel_of (out : list Z) : list Z :=
  match find (fun c => char_in c vowels) (rev out) with
  | Some c => [c]
  | None => []
  end.

(** [last_vowel] is empty or holds one vowel. *)
Definition vowel_or_empty (lv : list Z) : Prop :=
  lv = [] \/ exists v, lv = [v] /\ char_in v vowels = true.

(** *** Notions of the romaji parser *)

(** All characters are ASCII. *)
Definition is_ascii (s : list Z) : bool := forallb (fun c => c <? 0x80) s.

(** A lower-case letter. *)
Definition lc (c : Z) : bool := (0x61 <=? c) && (c <=? 0x7A).

(** A hiragana of the block [ぁ]..[ゖ]. *)
Definition hiragana (c : Z) : bool := (0x3041 <=? c) && (c <=? 0x3096).

(** The keys of the table are words of lower-case letters and its values
    words of hiragana. *)
Definition table_ok (d : list (list Z * list Z)) : bool :=
  forallb (fun kv => forallb lc (fst kv) && forallb hiragana (snd kv)) d.

(** A letter of the Latin alphabet, of either case. *)
Definition ascii_letter (c : Z) : bool :=
  ((0x41 <=? c) && (c <=? 0x5A)) || ((0x61 <=? c) && (c <=? 0x7A)).

End Translit.

(** ** Results of calls that may raise *)

Module Py.

Inductive exn := OverflowError | ValueError.

Inductive result (A : Type) : Type :=
| Ok (a : A)
| Raise (e : exn).
Arguments Ok {A} a.
Arguments Raise {A} e.

Global Instance result_ret : MRet result := fun A a => Ok a.

Global Instance result_bind : MBind result := fun A B k m =>
  match m with
  | Ok a => k a
  | Raise e => Raise e
  end.

End Py.

(** ** The card store *)

Module Db.
Import PyStr.

(** A row of [SELECT * FROM cards], by column.  A [NULL], and a column an
    old database lacks ([len(row) <= 11]), are both [None].  The columns
    [interval], [repetition] and [ef] always hold a value: [add_card], the
    only [INSERT], gives them 0, 0 and 2.5, and [update_card_review] writes
    what [sm2_update] returned.  Statements succeed; a failing store is not
    modelled. *)
Record Row := mkRow {
  row_id : Z;                       (* row[0] *)
  row_language : option pystr;      (* row[1] *)
  row_unit : option pystr;          (* row[2] *)
  row_term : option pystr;          (* row[3] *)
  row_meaning : option pystr;       (* row[4] *)
  row_created_at : option pystr;    (* row[5] *)
  row_last_review : option pystr;   (* row[6] *)
  row_interval : Z;                 (* row[7] *)
  row_repetition : Z;               (* row[8] *)
  row_ef : float;                   (* row[9] *)
  row_due_date : option pystr;      (* row[10] *)
  row_jp_kanji : option pystr;      (* row[11] *)
  row_jp_kana : option pystr;       (* row[12] *)
  row_jp_ruby : option pystr        (* row[13] *)
}.

(** The [before] and [after] dictionaries of [insert_review]. *)
Record Snapshot := mkSnapshot {
  snap_repetition : option Z;
  snap_ef : option float;
  snap_interval : option Z;
  snap_due_date : option pystr
}.

Definition empty_snapshot : Snapshot := mkSnapshot None None None None.

(** A row of the table [reviews]. *)
Record Review := mkReview {
  rev_card_id : Z;
  rev_ts : pystr;
  rev_mode : Z;
  rev_quality : Z;
  rev_elapsed_ms : option Z;
  rev_rep_before : option Z;
  rev_rep_after : option Z;
  rev_ef_before : option float;
  rev_ef_after : option float;
  rev_int_before : option Z;
  rev_int_after : option Z;
  rev_due_before : option pystr;
  rev_due_after : option pystr
}.

(** The connection: the two tables the engine reads and writes. *)
Record Conn := mkConn {
  cards : list Row;
  reviews : list Review
}.

(** [insert_review]; [now] is the local time stamp the function reads. *)
Definition insert_review (now : pystr) (conn : Conn) (card_id mode quality : Z)
    (elapsed_ms : option Z) (before after : option Snapshot) : Conn :=
  let bf := default empty_snapshot before in
  let af := default empty_snapshot after in
  mkConn (cards conn)
    (reviews conn ++
     [ mkReview card_id now mode quality elapsed_ms
         (snap_repetition bf) (snap_repetition af)
         (snap_ef bf) (snap_ef af)
         (snap_interval bf) (snap_interval af)
         (snap_due_date bf) (snap_due_date af) ]).

(** Comparison of [TEXT] values under SQLite's default collation: byte
    order of the UTF-8 encoding, which is code point order. *)
Fixpoint text_compare (a b : pystr) : comparison :=
  match a, b with
  | [], [] => Eq
  | [], _ :: _ => Lt
  | _ :: _, [] => Gt
  | x :: a', y :: b' =>
      match Z.compare x y with
      | Eq => text_compare a' b'
      | c => c
      end
  end.

(** [NULL] sorts before every value. *)
Definition nullable_compare (a b : option pystr) : comparison :=
  match a, b with
  | None, None => Eq
  | None, Some _ => Lt
  | Some _, None => Gt
  | Some x, Some y => text_compare x y
  end.

Definition by_id (r1 r2 : Row) : comparison :=
  Z.compare (row_id r1) (row_id r2).

Definition by_unit_id (r1 r2 : Row) : comparison :=
  match nullable_compare (row_unit r1) (row_unit r2) with
  | Eq => by_id r1 r2
  | c => c
  end.

Fixpoint insert_by (cmp : Row -> Row -> comparison) (r : Row) (l : list Row)
  : list Row :=
  match l with
  | [] => [r]
  | x :: l' =>
      match cmp r x with
      | Gt => x :: insert_by cmp r l'
      | _ => r :: l
      end
  end.

(** [ORDER BY] *)
Definition order_by (cmp : Row -> Row -> comparison) (l : list Row) : list Row :=
  fold_right (insert_by cmp) [] l.

(** [SELECT * FROM cards ORDER BY unit, id] *)
Definition select_all (conn : Conn) : list Row :=
  order_by by_unit_id (cards conn).

(** [SELECT * FROM cards WHERE unit IN (...) ORDER BY unit, id] *)
Definition select_units_in (conn : Conn) (units : list pystr) : list Row :=
  order_by by_unit_id
    (List.filter (fun r => match row_unit r with
                      | Some x => existsb (str_eqb x) units
                      | None => false
                      end) (cards conn)).

(** [SELECT * FROM cards WHERE unit = ? ORDER BY id] *)
Definition select_unit (conn : Conn) (unit : pystr) : list Row :=
  order_by by_id
    (List.filter (fun r => match row_unit r with
                      | Some x => str_eqb x unit
                      | None => false
                      end) (cards conn)).

(** The [unit] argument: [None], a string, or a list, tuple or set of names
    (a set in the order its iteration yields). *)
Inductive UnitArg :=
| UnitNone
| UnitStr (name : pystr)
| UnitSeq (names : list (option pystr)).

Definition all_units : pystr := Eval vm_compute in u "所有单元".

(** The loop over [unit] in [list_cards_by_unit]. *)
Fixpoint collect_units (unit : list (option pystr)) (seen : gset (list Z))
    (units : list pystr) : list pystr :=
  match unit with
  | [] => units
  | x :: unit' =>
      let name := strip (default [] x) in
      if str_eqb name [] || str_eqb name all_units then
        collect_units unit' seen units
      else if bool_decide (name ∈ seen) then
        collect_units unit' seen units
      else
        collect_units unit' ({[ name ]} ∪ seen) (units ++ [name])
  end.

Definition list_cards_by_unit (conn : Conn) (unit : UnitArg) : list Row :=
  match unit with
  | UnitNone => select_all conn
  | UnitStr name =>
      if str_eqb name [] || str_eqb name all_units then select_all conn
      else select_unit conn name
  | UnitSeq names =>
      let units := collect_units names ∅ [] in
      match units with
      | [] => select_all conn
      | _ :: _ => select_units_in conn units
      end
  end.

Definition list_due_cards (conn : Conn) (unit : UnitArg) : list Row :=
  list_cards_by_unit conn unit.

(** [UPDATE cards SET interval = ?, ... WHERE id = ?] *)
Definition update_card_review (conn : Conn) (card_id interval repetition : Z)
    (ef : float) (last_review due_date : option pystr) : Conn :=
  mkConn
    (map (fun r =>
            if row_id r =? card_id then
              mkRow (row_id r) (row_language r) (row_unit r) (row_term r)
                (row_meaning r) (row_created_at r) last_review
                interval repetition ef due_date
                (row_jp_kanji r) (row_jp_kana r) (row_jp_ruby r)
            else r) (cards conn))
    (reviews conn).

(** [WHERE unit = ?]: a [NULL] unit equals nothing. *)
Definition unit_is (unit : pystr) (r : Row) : bool :=
  match row_unit r with
  | Some x => str_eqb x unit
  | None => false
  end.



(** [DISTINCT ... ORDER BY unit] on one column: the values without
    repetition, in ascending order. *)
Fixpoint insert_distinct (x : option pystr) (l : list (option pystr))
  : list (option pystr) :=
  match l with
  | [] => [x]
  | y :: l' =>
      match nullable_compare x y with
      | Lt => x :: l
      | Eq => l
      | Gt => y :: insert_distinct x l'
      end
  end.

(** [SELECT DISTINCT unit FROM cards ORDER BY unit] *)
Definition select_distinct_units (conn : Conn) : list (option pystr) :=
  fold_right insert_distinct [] (map row_unit (cards conn)).

(** [[r[0] for r in cur.fetchall() if r[0] and r[0] != ...]] *)
Definition list_units (conn : Conn) : list pystr :=
  flat_map (fun x => match x with
                     | Some (c :: r) => [c :: r]
                     | _ => []
                     end) (select_distinct_units conn).

(** [UPDATE cards SET language = ?, unit = ?, term = ?, meaning = ?
     WHERE id = ?] *)
Definition update_card_fields (conn : Conn) (card_id : Z) (language : pystr)
    (unit : option pystr) (term : pystr) (meaning : option pystr) : Conn :=
  mkConn
    (map (fun r =>
            if row_id r =? card_id then
              mkRow (row_id r) (Some language) unit (Some term) meaning
                (row_created_at r) (row_last_review r)
                (row_interval r) (row_repetition r) (row_ef r) (row_due_date r)
                (row_jp_kanji r) (row_jp_kana r) (row_jp_ruby r)
            else r) (cards conn))
    (reviews conn).

(** [update_card_fields_full] also sets the three Japanese columns. *)
Definition update_card_fields_full (conn : Conn) (card_id : Z) (language : pystr)
    (unit : option pystr) (term : pystr)
    (meaning jp_kanji jp_kana jp_ruby : option pystr) : Conn :=
  mkConn
    (map (fun r =>
            if row_id r =? card_id then
              mkRow (row_id r) (Some language) unit (Some term) meaning
                (row_created_at r) (row_last_review r)
                (row_interval r) (row_repetition r) (row_ef r) (row_due_date r)
                jp_kanji jp_kana jp_ruby
            else r) (cards conn))
    (reviews conn).

(** [DELETE FROM cards WHERE id = ?].  The table [reviews] declares
    [FOREIGN KEY(card_id) REFERENCES cards(id) ON DELETE CASCADE] and
    [init_db] sets [PRAGMA foreign_keys=ON], so the reviews of a deleted
    card go with it. *)
Definition delete_card (conn : Conn) (card_id : Z) : Conn :=
  mkConn
    (List.filter (fun r => negb (row_id r =? card_id)) (cards conn))
    (List.filter (fun v => negb (rev_card_id v =? card_id)) (reviews conn)).

(** [SELECT COUNT( * ) FROM cards WHERE unit = ?] *)
Definition count_cards_in_unit (conn : Conn) (unit : pystr) : Z :=
  Z.of_nat (length (List.filter (unit_is unit) (cards conn))).

(** [DELETE FROM cards WHERE unit = ?], with the same cascade. *)
Definition delete_unit (conn : Conn) (unit : pystr) : Conn :=
  let gone := List.filter (unit_is unit) (cards conn) in
  mkConn
    (List.filter (fun r => negb (unit_is unit r)) (cards conn))
    (List.filter
       (fun v => negb (existsb (fun r => row_id r =? rev_card_id v) gone))
       (reviews conn)).

(** [SELECT * FROM cards WHERE id = ?] and [fetchone()] *)
Definition get_card_by_id (conn : Conn) (card_id : Z) : option Row :=
  find (fun r => row_id r =? card_id) (cards conn).

(** [_find_duplicate_card].  [LIMIT 1] without an order leaves the choice
    among several matching rows to the store; the first in table order is
    taken here. *)
Definition _find_duplicate_card (conn : Conn) (unit kana kanji : option pystr)
  : option Z :=
  let unit := strip (default [] unit) in
  let kana := strip (default [] kana) in
  let kanji := strip (default [] kanji) in
  let term_is (r : Row) :=
    match row_term r with Some x => str_eqb x kana | None => false end in
  let kanji_is (r : Row) :=
    match row_jp_kanji r with Some x => str_eqb x kanji | None => false end in
  let row :=
    match kana, kanji with
    | _ :: _, _ :: _ =>
        find (fun r => unit_is unit r && (term_is r || kanji_is r)) (cards conn)
    | _ :: _, [] => find (fun r => unit_is unit r && term_is r) (cards conn)
    | [], _ :: _ => find (fun r => unit_is unit r && kanji_is r) (cards conn)
    | [], [] => None
    end in
  option_map row_id row.

(** *** Notions the properties are stated with *)

(** A rewriting of the column [due_date], every other column kept. *)
Definition set_due_date (due : Row -> option (list Z)) (r : Row) : Row :=
  mkRow (row_id r) (row_language r) (row_unit r) (row_term r) (row_meaning r)
    (row_created_at r) (row_last_review r) (row_interval r) (row_repetition r)
    (row_ef r) (due r) (row_jp_kanji r) (row_jp_kana r) (row_jp_ruby r).

Definition with_due_dates (due : Row -> option (list Z)) (conn : Conn) : Conn :=
  mkConn (map (set_due_date due) (cards conn)) (reviews conn).

Definition sample_cards : Conn :=
  mkConn
    [ mkRow 2 None (Some (u "L2")) (Some (u "いぬ")) None None None 0 0 2.5
        (Some (u "2099-01-01")) None None None;
      mkRow 1 None (Some (u "L1")) (Some (u "ねこ")) None None None 6 2 2.5
        None None None None;
      mkRow 3 None None (Some (u "とり")) None None None 0 0 2.5 None None None None ]
    [].

(** *** Notions of the store *)

(** [r1] comes no later than [r2] under [ORDER BY unit, id]. *)
Definition unit_id_le (r1 r2 : Row) : Prop := by_unit_id r1 r2 <> Gt.

(** The rows [list_cards_by_unit] selects for the argument [unit]. *)
Definition in_scope (unit : UnitArg) (r : Row) : bool :=
  match unit with
  | UnitNone => true
  | UnitStr name =>
      if str_eqb name [] || str_eqb name all_units then true else unit_is name r
  | UnitSeq names =>
      match collect_units names ∅ [] with
      | [] => true
      | units =>
          match row_unit r with
          | Some x => existsb (str_eqb x) units
          | None => false
          end
      end
  end.

(** The row [update_card_review] writes in place of [r]. *)
Definition reviewed (card_id interval repetition : Z) (ef : float)
    (last_review due_date : option (list Z)) (r : Row) : Row :=
  if row_id r =? card_id then
    mkRow (row_id r) (row_language r) (row_unit r) (row_term r)
      (row_meaning r) (row_created_at r) last_review
      interval repetition ef due_date
      (row_jp_kanji r) (row_jp_kana r) (row_jp_ruby r)
  else r.

End Db.

(** ** The SM-2 scheduler *)

Module Sm2.
Import Db.
Local Open Scope float_scope.

(** [float(n)] for an [int] operand of a float operation: the nearest
    binary64, or [OverflowError] beyond its range. *)
Definition nearest_float (n : Z) : float :=
  SF2Prim (binary_normalize prec emax n 0%Z false).

Definition float_of_int (n : Z) : Py.result float :=
  let f := nearest_float n in
  if is_infinity f then Py.Raise Py.OverflowError else Py.Ok f.

(** [max(a, b)]: [b] when [b > a], else [a]. *)
Definition py_max (a b : float) : float := if a <? b then b else a.

(** [round(x)] with one argument: the nearest integer, ties to even. *)
Definition py_round (x : float) : Py.result Z :=
  match Prim2SF x with
  | S754_nan => Py.Raise Py.ValueError
  | S754_infinity _ => Py.Raise Py.OverflowError
  | S754_zero _ => Py.Ok 0%Z
  | S754_finite s m e =>
      let n :=
        (if 0 <=? e then Z.pos m * 2 ^ e
         else
           let d := 2 ^ (- e) in
           let q := Z.pos m / d in
           let r := Z.pos m mod d in
           match Z.compare (2 * r) d with
           | Lt => q
           | Gt => q + 1
           | Eq => if Z.even q then q else q + 1
           end)%Z in
      Py.Ok (if s then (- n)%Z else n)
  end.

(** [max(1, int(round(interval * ef)))] *)
Definition grown_interval (interval : Z) (ef : float) : Py.result Z :=
  fi ← float_of_int interval;
  n ← py_round (fi * ef);
  Py.Ok (Z.max 1 n).

(** [ef + (0.1 - (5 - q) * (0.08 + (5 - q) * 0.02))], with [d] for [float(5 - q)]. *)
Definition easiness_step (ef d : float) : float :=
  ef + (0.1 - d * (0.08 + d * 0.02)).

Definition sm2_update (card_row : Row) (quality : Z) : Py.result (Z * Z * float) :=
  let interval := row_interval card_row in
  let repetition := row_repetition card_row in
  let ef := row_ef card_row in
  let q := quality in
  '(interval, repetition) ←
    (if (q <? 3)%Z then Py.Ok (1%Z, 0%Z)
     else
       let repetition := (repetition + 1)%Z in
       if (repetition =? 1)%Z then Py.Ok (1%Z, repetition)
       else if (repetition =? 2)%Z then Py.Ok (6%Z, repetition)
       else
         interval ← grown_interval interval ef;
         Py.Ok (interval, repetition));
  d ← float_of_int (5 - q);
  let ef := easiness_step ef d in
  let ef := if ef <? 1.3 then 1.3 else ef in
  Py.Ok (interval, repetition, ef).

(** [int(x)] for a float: the integer part, towards zero. *)
Definition py_int (x : float) : Py.result Z :=
  match Prim2SF x with
  | S754_nan => Py.Raise Py.ValueError
  | S754_infinity _ => Py.Raise Py.OverflowError
  | S754_zero _ => Py.Ok 0%Z
  | S754_finite s m e =>
      let n := (if 0 <=? e then Z.pos m * 2 ^ e else Z.pos m / 2 ^ (- e))%Z in
      Py.Ok (if s then (- n)%Z else n)
  end.

(** *** Notions the properties are stated with *)

(** [if ef < 1.3: ef = 1.3] *)
Definition floor_easiness (ef : float) : float := if ef <? 1.3 then 1.3 else ef.

(** The step added to the easiness is finite, so it keeps NaN out. *)
Definition finite_step (d : float) : Prop :=
  match Prim2SF (0.1 - d * (0.08 + d * 0.02)) with
  | S754_zero _ | S754_finite _ _ _ => True
  | _ => False
  end.

Definition new_card : Row :=
  mkRow 1 None None None None None None 0 0 2.5 None None None None.

End Sm2.

(** ** The local dictionary *)

Module LocalDict.
Import PyStr.

(** [LocalJaZhDict] once loaded: the index [_entry] from a key to
    [(term, kana, meaning)]. *)
Record LocalJaZhDict := mkDict {
  _entry : gmap (list Z) (list Z * list Z * list Z)
}.

(** [a in s] for strings. *)
Fixpoint contains (a s : pystr) : bool :=
  startswith a s ||
  match s with
  | [] => false
  | _ :: r => contains a r
  end.

(** [while "  " in s: s = s.replace("  ", " ")]; every round shortens [s],
    so [fuel] rounds suffice when [fuel] is the length of [s]. *)
Fixpoint squeeze_spaces (fuel : nat) (s : pystr) : pystr :=
  match fuel with
  | O => s
  | S fuel' =>
      if contains (u "  ") s
      then squeeze_spaces fuel' (replace (u "  ") (u " ") s)
      else s
  end.

Definition _norm_key (s : pystr) : pystr :=
  match s with
  | [] => []
  | _ :: _ =>
      let s := strip (replace [0x0A] (u " ") (replace [0x0D] [] s)) in
      let s := replace [0x3000] (u " ") s in
      let s := replace (u "～") (u "~") s in
      let s := replace (u "］") [] (replace (u "［") [] s) in
      let s := replace (u "）") (u ")") (replace (u "（") (u "(") s) in
      squeeze_spaces (length s) s
  end.

Definition get_full (self : LocalJaZhDict) (key : pystr)
  : option (list Z * list Z * list Z) :=
  let k := strip key in
  match k with
  | [] => None
  | _ :: _ =>
      match _entry self !! k with
      | Some e => Some e
      | None => _entry self !! _norm_key k
      end
  end.

(** The two marks [_is_kana] names besides the blocks. *)
Definition kana_marks : pystr := Eval vm_compute in u "ー・".

(** [LocalJaZhDict._is_kana] *)
Definition _is_kana (s : pystr) : bool :=
  match s with
  | [] => false
  | _ :: _ =>
      forallb (fun code =>
                 is_space code
                 || ((0x3040 <=? code) && (code <=? 0x309F))
                 || ((0x30A0 <=? code) && (code <=? 0x30FF))
                 || ((0x31F0 <=? code) && (code <=? 0x31FF))
                 || ((0xFF66 <=? code) && (code <=? 0xFF9D))
                 || char_in code kana_marks) s
  end.

(** [dict.fromkeys(keys)], as a list: the keys in the order of their first
    occurrence; [seen] holds the keys met so far. *)
Fixpoint fromkeys (seen keys : list pystr) : list pystr :=
  match keys with
  | [] => []
  | k :: keys' =>
      if existsb (str_eqb k) seen then fromkeys seen keys'
      else k :: fromkeys (k :: seen) keys'
  end.

(** [keys] of [_store_entry]. *)
Definition store_keys (term kana : pystr) : list pystr :=
  let keys :=
    match term with
    | [] => []
    | _ :: _ => [term; _norm_key term]
    end in
  let keys :=
    keys ++
    match kana with
    | [] => []
    | _ :: _ => if _is_kana kana then [kana; _norm_key kana] else []
    end in
  fromkeys [] (List.filter (fun k => negb (str_eqb k [])) keys).

(** The two indexes [m_mean] and [m_entry] that [load] fills. *)
Definition Indexes : Type :=
  gmap (list Z) (list Z) * gmap (list Z) (list Z * list Z * list Z).

(** [_store_entry] of [load]. *)
Definition _store_entry (m : Indexes) (term kana meaning : pystr) : Indexes :=
  fold_left (fun m k => (<[ k := meaning ]> (fst m),
                         <[ k := (term, kana, meaning) ]> (snd m)))
    (store_keys term kana) m.

Section Load.

Variable unicode_lower : pystr -> pystr.

(** The body of the loop of [_read_csv] on the row [row] that [csv.reader]
    yields at index [i]. *)
Definition read_row (i : nat) (row : list pystr) (m : Indexes) : Indexes :=
  match row with
  | [] => m
  | r0 :: _ =>
      let head := Translit.lower unicode_lower (strip r0) in
      if (i =? 0)%nat && (str_eqb head (u "term") || str_eqb head (u "词条"))
      then m
      else if (length row <? 2)%nat then m
      else
        let term := strip r0 in
        let kana :=
          if (3 <=? length row)%nat then strip (nth 1 row []) else [] in
        let meaning :=
          strip (if (3 <=? length row)%nat then nth 2 row [] else nth 1 row []) in
        match term, meaning with
        | _ :: _, _ :: _ => _store_entry m term kana meaning
        | _, _ => m
        end
  end.

Fixpoint read_rows (i : nat) (rows : list (list pystr)) (m : Indexes) : Indexes :=
  match rows with
  | [] => m
  | row :: rows' => read_rows (S i) rows' (read_row i row m)
  end.

(** [_read_csv], from the rows of the file on: the indexes it returns. *)
Definition _read_csv (rows : list (list pystr)) : Indexes :=
  read_rows 0 rows (∅, ∅).

End Load.

(** [LocalJaZhDict.get] on a loaded dictionary whose attribute [_map] is
    [_map]. *)
Definition get (_map : gmap (list Z) (list Z)) (term : pystr) : pystr :=
  let t := strip term in
  match t with
  | [] => []
  | _ :: _ =>
      match _map !! t with
      | Some meaning => meaning
      | None => default [] (_map !! _norm_key t)
      end
  end.

(** *** Notions of the dictionary *)

(** The characters [_norm_key] removes or replaces. *)
Definition unwanted : list Z := [0x0D; 0x0A; 0x3000] ++ u "～［］（）".

(** What [load] keeps true of the two indexes: they have the same keys,
    [_map] holds the meaning of the entry in [_entry], and an entry is
    stored under its term or reading, or the normal form of one of them. *)
Definition index_ok (m : Indexes) : Prop :=
  forall key,
    match snd m !! key with
    | Some (t, k, mn) =>
        fst m !! key = Some mn
        /\ key <> [] /\ t <> [] /\ mn <> []
        /\ strip t = t /\ strip k = k /\ strip mn = mn
        /\ (key = t \/ key = _norm_key t
            \/ (_is_kana k = true /\ (key = k \/ key = _norm_key k)))
    | None => fst m !! key = None
    end.

End LocalDict.

(** ** The review session *)

Module Study.
Import PyStr Translit Db Sm2 LocalDict.

Definition norm (s : option pystr) : pystr := strip (default [] s).

Definition get_jp_kanji (row : Row) : pystr := strip (default [] (row_jp_kanji row)).

Definition get_jp_kana (row : Row) : pystr := strip (default [] (row_jp_kana row)).

Definition pick_kana (row : Row) : pystr :=
  let jp_kana := get_jp_kana row in
  if _has_kana jp_kana then strip jp_kana
  else
    let term := norm (row_term row) in
    if _has_kana term then term else [].

(** What [mean_label] shows; the markup built around it is left out. *)
Inductive Label :=
| LabelEmpty
| LabelMeaning (zh : list Z)                   (* the gloss, Recognition *)
| LabelAnswer (row : Row) (correct : bool)     (* _show_jp_answer_block *)
| LabelNeutral (row : Row).                    (* _build_jp_neutral_block *)

(** What a handler reads from outside the window: the two wall clocks as
    the strings the source formats, the monotonic clock, read in
    milliseconds (the source keeps seconds as a float and scales the
    difference by 1000), and the module's dictionary [_LOCAL_DICT]. *)
Record Env := mkEnv {
  now_local : list Z;        (* datetime.now().astimezone().isoformat(...) *)
  now_utc : list Z;          (* datetime.utcnow().isoformat() *)
  monotonic : Z;             (* time.monotonic(), in ms *)
  _LOCAL_DICT : LocalJaZhDict
}.

(** The state of a [StudyWindow]: its attributes, the flags of the widgets
    the handlers enable and disable, the store behind [self.db], and a log
    of the scheduler's invocations, kept to state how often it is called.
    The markup of the labels, the focus and the speech calls are left
    out. *)
Record StudyWindow := mkStudy {
  db : Conn;   (* self.db *)
  queue : list (Row * Z);   (* self.queue *)
  idx : Z;   (* self.idx *)
  current : option (Row * Z);   (* self.current *)
  session_total : Z;
  session_correct : Z;
  showing_mean : bool;
  _rated : bool;
  _ts_start : Z;   (* time.monotonic() at show_card, in ms; 0 when unset *)
  input_text : list Z;   (* input_answer.text() *)
  answer_box : bool;   (* the answer box has been created *)
  input_enabled : bool;   (* input_answer *)
  confirm_enabled : bool;   (* btn_confirm *)
  fail_enabled : bool;   (* btn_fail *)
  rating_enabled : bool;   (* btn_again, btn_hard, btn_good, btn_easy *)
  continue_enabled : bool;   (* continue_btn *)
  mean_label : Label;   (* mean_label's text *)
  mean_visible : bool;   (* mean_label is shown *)
  closed : bool;   (* self.close() was called *)
  sm2_calls : list (Row * Z)   (* the calls of sm2_update so far, oldest first *)
}.

Definition with_db (v : Conn) (w : StudyWindow) : StudyWindow :=
  mkStudy v (queue w) (idx w) (current w) (session_total w)
    (session_correct w) (showing_mean w) (_rated w) (_ts_start w)
    (input_text w) (answer_box w) (input_enabled w) (confirm_enabled w)
    (fail_enabled w) (rating_enabled w) (continue_enabled w) (mean_label w)
    (mean_visible w) (closed w) (sm2_calls w).

Definition with_queue (v : list (Row * Z)) (w : StudyWindow) : StudyWindow :=
  mkStudy (db w) v (idx w) (current w) (session_total w) (session_correct w)
    (showing_mean w) (_rated w) (_ts_start w) (input_text w) (answer_box w)
    (input_enabled w) (confirm_enabled w) (fail_enabled w) (rating_enabled w)
    (continue_enabled w) (mean_label w) (mean_visible w) (closed w)
    (sm2_calls w).

Definition with_idx (v : Z) (w : StudyWindow) : StudyWindow :=
  mkStudy (db w) (queue w) v (current w) (session_total w)
    (session_correct w) (showing_mean w) (_rated w) (_ts_start w)
    (input_text w) (answer_box w) (input_enabled w) (confirm_enabled w)
    (fail_enabled w) (rating_enabled w) (continue_enabled w) (mean_label w)
    (mean_visible w) (closed w) (sm2_calls w).

Definition with_current (v : option (Row * Z)) (w : StudyWindow) : StudyWindow :=
  mkStudy (db w) (queue w) (idx w) v (session_total w) (session_correct w)
    (showing_mean w) (_rated w) (_ts_start w) (input_text w) (answer_box w)
    (input_enabled w) (confirm_enabled w) (fail_enabled w) (rating_enabled w)
    (continue_enabled w) (mean_label w) (mean_visible w) (closed w)
    (sm2_calls w).

Definition with_session_total (v : Z) (w : StudyWindow) : StudyWindow :=
  mkStudy (db w) (queue w) (idx w) (current w) v (session_correct w)
    (showing_mean w) (_rated w) (_ts_start w) (input_text w) (answer_box w)
    (input_enabled w) (confirm_enabled w) (fail_enabled w) (rating_enabled w)
    (continue_enabled w) (mean_label w) (mean_visible w) (closed w)
    (sm2_calls w).

Definition with_session_correct (v : Z) (w : StudyWindow) : StudyWindow :=
  mkStudy (db w) (queue w) (idx w) (current w) (session_total w) v
    (showing_mean w) (_rated w) (_ts_start w) (input_text w) (answer_box w)
    (input_enabled w) (confirm_enabled w) (fail_enabled w) (rating_enabled w)
    (continue_enabled w) (mean_label w) (mean_visible w) (closed w)
    (sm2_calls w).

Definition with_showing_mean (v : bool) (w : StudyWindow) : StudyWindow :=
  mkStudy (db w) (queue w) (idx w) (current w) (session_total w)
    (session_correct w) v (_rated w) (_ts_start w) (input_text w)
    (answer_box w) (input_enabled w) (confirm_enabled w) (fail_enabled w)
    (rating_enabled w) (continue_enabled w) (mean_label w) (mean_visible w)
    (closed w) (sm2_calls w).

Definition with_rated (v : bool) (w : StudyWindow) : StudyWindow :=
  mkStudy (db w) (queue w) (idx w) (current w) (session_total w)
    (session_correct w) (showing_mean w) v (_ts_start w) (input_text w)
    (answer_box w) (input_enabled w) (confirm_enabled w) (fail_enabled w)
    (rating_enabled w) (continue_enabled w) (mean_label w) (mean_visible w)
    (closed w) (sm2_calls w).

Definition with_ts_start (v : Z) (w : StudyWindow) : StudyWindow :=
  mkStudy (db w) (queue w) (idx w) (current w) (session_total w)
    (session_correct w) (showing_mean w) (_rated w) v (input_text w)
    (answer_box w) (input_enabled w) (confirm_enabled w) (fail_enabled w)
    (rating_enabled w) (continue_enabled w) (mean_label w) (mean_visible w)
    (closed w) (sm2_calls w).

Definition with_input_text (v : list Z) (w : StudyWindow) : StudyWindow :=
  mkStudy (db w) (queue w) (idx w) (current w) (session_total w)
    (session_correct w) (showing_mean w) (_rated w) (_ts_start w) v
    (answer_box w) (input_enabled w) (confirm_enabled w) (fail_enabled w)
    (rating_enabled w) (continue_enabled w) (mean_label w) (mean_visible w)
    (closed w) (sm2_calls w).

Definition with_answer_box (v : bool) (w : StudyWindow) : StudyWindow :=
  mkStudy (db w) (queue w) (idx w) (current w) (session_total w)
    (session_correct w) (showing_mean w) (_rated w) (_ts_start w)
    (input_text w) v (input_enabled w) (confirm_enabled w) (fail_enabled w)
    (rating_enabled w) (continue_enabled w) (mean_label w) (mean_visible w)
    (closed w) (sm2_calls w).

Definition with_input_enabled (v : bool) (w : StudyWindow) : StudyWindow :=
  mkStudy (db w) (queue w) (idx w) (current w) (session_total w)
    (session_correct w) (showing_mean w) (_rated w) (_ts_start w)
    (input_text w) (answer_box w) v (confirm_enabled w) (fail_enabled w)
    (rating_enabled w) (continue_enabled w) (mean_label w) (mean_visible w)
    (closed w) (sm2_calls w).

Definition with_confirm_enabled (v : bool) (w : StudyWindow) : StudyWindow :=
  mkStudy (db w) (queue w) (idx w) (current w) (session_total w)
    (session_correct w) (showing_mean w) (_rated w) (_ts_start w)
    (input_text w) (answer_box w) (input_enabled w) v (fail_enabled w)
    (rating_enabled w) (continue_enabled w) (mean_label w) (mean_visible w)
    (closed w) (sm2_calls w).

Definition with_fail_enabled (v : bool) (w : StudyWindow) : StudyWindow :=
  mkStudy (db w) (queue w) (idx w) (current w) (session_total w)
    (session_correct w) (showing_mean w) (_rated w) (_ts_start w)
    (input_text w) (answer_box w) (input_enabled w) (confirm_enabled w) v
    (rating_enabled w) (continue_enabled w) (mean_label w) (mean_visible w)
    (closed w) (sm2_calls w).

Definition with_rating_enabled (v : bool) (w : StudyWindow) : StudyWindow :=
  mkStudy (db w) (queue w) (idx w) (current w) (session_total w)
    (session_correct w) (showing_mean w) (_rated w) (_ts_start w)
    (input_text w) (answer_box w) (input_enabled w) (confirm_enabled w)
    (fail_enabled w) v (continue_enabled w) (mean_label w) (mean_visible w)
    (closed w) (sm2_calls w).

Definition with_continue_enabled (v : bool) (w : StudyWindow) : StudyWindow :=
  mkStudy (db w) (queue w) (idx w) (current w) (session_total w)
    (session_correct w) (showing_mean w) (_rated w) (_ts_start w)
    (input_text w) (answer_box w) (input_enabled w) (confirm_enabled w)
    (fail_enabled w) (rating_enabled w) v (mean_label w) (mean_visible w)
    (closed w) (sm2_calls w).

Definition with_mean_label (v : Label) (w : StudyWindow) : StudyWindow :=
  mkStudy (db w) (queue w) (idx w) (current w) (session_total w)
    (session_correct w) (showing_mean w) (_rated w) (_ts_start w)
    (input_text w) (answer_box w) (input_enabled w) (confirm_enabled w)
    (fail_enabled w) (rating_enabled w) (continue_enabled w) v
    (mean_visible w) (closed w) (sm2_calls w).

Definition with_mean_visible (v : bool) (w : StudyWindow) : StudyWindow :=
  mkStudy (db w) (queue w) (idx w) (current w) (session_total w)
    (session_correct w) (showing_mean w) (_rated w) (_ts_start w)
    (input_text w) (answer_box w) (input_enabled w) (confirm_enabled w)
    (fail_enabled w) (rating_enabled w) (continue_enabled w) (mean_label w) v
    (closed w) (sm2_calls w).

Definition with_closed (v : bool) (w : StudyWindow) : StudyWindow :=
  mkStudy (db w) (queue w) (idx w) (current w) (session_total w)
    (session_correct w) (showing_mean w) (_rated w) (_ts_start w)
    (input_text w) (answer_box w) (input_enabled w) (confirm_enabled w)
    (fail_enabled w) (rating_enabled w) (continue_enabled w) (mean_label w)
    (mean_visible w) v (sm2_calls w).

Definition with_sm2_calls (v : list (Row * Z)) (w : StudyWindow) : StudyWindow :=
  mkStudy (db w) (queue w) (idx w) (current w) (session_total w)
    (session_correct w) (showing_mean w) (_rated w) (_ts_start w)
    (input_text w) (answer_box w) (input_enabled w) (confirm_enabled w)
    (fail_enabled w) (rating_enabled w) (continue_enabled w) (mean_label w)
    (mean_visible w) (closed w) v.

(** The outcome of a handler: the window as it leaves it, and the exception
    that ended it early, if any. *)
Definition Outcome : Type := StudyWindow * option Py.exn.

(** [int((time.monotonic() - self._ts_start) * 1000) if self._ts_start else None] *)
Definition elapsed (env : Env) (w : StudyWindow) : option Z :=
  if _ts_start w =? 0 then None else Some (monotonic env - _ts_start w).

Definition _record_review (env : Env) (quality : Z) (elapsed_ms : option Z)
    (w : StudyWindow) : StudyWindow :=
  match current w with
  | None => w
  | Some (row, mode) =>
      let card_id := row_id row in
      if card_id =? 0 then w
      else
        with_db (insert_review (now_local env) (db w) card_id mode quality
                   elapsed_ms None None) w
  end.

Definition submit_rating (env : Env) (quality : Z) (w : StudyWindow) : StudyWindow :=
  if _rated w then w
  else
    let w :=
      if (quality =? 4) || (quality =? 5)
      then with_session_correct (session_correct w + 1) w
      else w in
    let w := _record_review env quality (elapsed env w) w in
    let w := with_session_total (session_total w + 1) w in
    let w := with_rated true w in
    with_continue_enabled true w.

(** [answers] of [check_answer]. *)
Definition answer_set (row : Row) : gset (list Z) :=
  let answers : gset (list Z) := ∅ in
  let kana := pick_kana row in
  let kanji := get_jp_kanji row in
  let answers := match kana with [] => answers | _ => {[ norm (Some kana) ]} ∪ answers end in
  let answers := match kanji with [] => answers | _ => {[ norm (Some kanji) ]} ∪ answers end in
  let term := norm (row_term row) in
  match term with
  | [] => answers
  | _ :: _ =>
      if _has_kana term || _has_kanji term then {[ term ]} ∪ answers else answers
  end.

(** [correct] as [check_answer] first computes it. *)
Definition exact_match (row : Row) (user_input : pystr) : bool :=
  match user_input with
  | [] => false
  | _ :: _ => bool_decide (norm (Some user_input) ∈ answer_set row)
  end.

(** [std_kana] of [check_answer]: the kana an entry of the dictionary has
    to carry for the fallback to accept. *)
Definition std_kana (row : Row) : pystr :=
  let std_kana := norm (Some (pick_kana row)) in
  match std_kana with
  | [] =>
      let t := strip (default [] (row_term row)) in
      match t with
      | [] => []
      | _ :: _ => if _has_kana t then norm (Some t) else []
      end
  | _ :: _ => std_kana
  end.

(** The dictionary fallback of [check_answer]: the value of [correct] after
    the block guarded by [(not correct) and _has_kanji(user_input)]. *)
Definition dictionary_fallback (env : Env) (row : Row) (user_input : pystr)
    (correct : bool) : bool :=
  if negb correct && _has_kanji user_input then
    match std_kana row with
    | [] => correct
    | _ :: _ =>
        match get_full (_LOCAL_DICT env) user_input with
        | Some (_, rec_kana, _) =>
            if str_eqb (norm (Some rec_kana)) (std_kana row) then true else correct
        | None => correct
        end
    end
  else correct.

Definition check_answer (env : Env) (w : StudyWindow) : Outcome :=
  match current w with
  | None => (w, None)
  | Some (row, mode) =>
      if negb (mode =? 1) then (w, None)
      else
        let user_input := norm (Some (input_text w)) in
        let correct := exact_match row user_input in
        let w :=
          if negb (_rated w) then
            let w := with_session_total (session_total w + 1) w in
            if correct then with_session_correct (session_correct w + 1) w else w
          else w in
        let w := with_continue_enabled true w in
        let w := with_rated true w in
        let quality := if correct then 4 else 1 in
        let w := _record_review env quality (elapsed env w) w in
        let correct := dictionary_fallback env row user_input correct in
        let w := with_mean_label (LabelAnswer row correct) w in
        let w := with_mean_visible true w in
        let w := with_showing_mean true w in
        let q := if correct then 4 else 1 in
        let w := with_sm2_calls (sm2_calls w ++ [(row, q)]) w in
        match sm2_update row q with
        | Py.Raise e => (w, Some e)
        | Py.Ok (interval, repetition, ef) =>
            let last_review := now_local env in
            let w := with_db (update_card_review (db w) (row_id row) interval
                                repetition ef (Some last_review) None) w in
            let w := if answer_box w
                     then with_confirm_enabled false (with_input_enabled false w)
                     else w in
            (with_fail_enabled false w, None)
        end
  end.

Definition mark_fail (env : Env) (w : StudyWindow) : Outcome :=
  match current w with
  | None => (w, None)
  | Some (row, mode) =>
      if negb (mode =? 1) then (w, None)
      else
        let w := with_mean_label (LabelAnswer row false) w in
        let w := with_mean_visible true w in
        let w := with_showing_mean true w in
        let w := with_sm2_calls (sm2_calls w ++ [(row, 1)]) w in
        match sm2_update row 1 with
        | Py.Raise e => (w, Some e)
        | Py.Ok (interval, repetition, ef) =>
            let last_review := now_utc env in
            let w := with_db (update_card_review (db w) (row_id row) interval
                                repetition ef (Some last_review) None) w in
            let w := with_session_total (session_total w + 1) w in
            let w := with_continue_enabled true w in
            let w := if answer_box w
                     then with_confirm_enabled false (with_input_enabled false w)
                     else w in
            let w := with_fail_enabled false w in
            let w := with_rated true w in
            (_record_review env 1 (elapsed env w) w, None)
        end
  end.

Definition toggle_meaning (w : StudyWindow) : StudyWindow :=
  match current w with
  | None => w
  | Some (row, mode) =>
      if showing_mean w then
        let w := with_mean_visible false w in
        let w := with_showing_mean false w in
        if mode =? 0 then
          let w := with_rating_enabled (negb (_rated w)) w in
          with_continue_enabled false w
        else
          let w := if answer_box w
                   then with_confirm_enabled true (with_input_enabled true w)
                   else w in
          with_continue_enabled false w
      else
        let w :=
          if mode =? 0 then
            let zh := strip (default [] (row_meaning row)) in
            let w := with_mean_label (LabelMeaning zh) w in
            let w := with_rating_enabled (negb (_rated w)) w in
            with_continue_enabled false w
          else
            let w := with_mean_label (LabelNeutral row) w in
            let w := with_continue_enabled true w in
            let w := if answer_box w
                     then with_confirm_enabled false (with_input_enabled false w)
                     else w in
            with_fail_enabled false w in
        let w := with_mean_visible true w in
        with_showing_mean true w
  end.

Definition show_card (env : Env) (card : Row * Z) (w : StudyWindow) : StudyWindow :=
  let '(row, mode) := card in
  let w := with_current (Some (row, mode)) w in
  let w := with_showing_mean false w in
  let w := with_mean_label LabelEmpty w in
  let w := with_mean_visible false w in
  let w := with_continue_enabled false w in
  let w := with_rated false w in
  let w := with_ts_start (monotonic env) w in
  let w := with_rating_enabled false w in
  let w := with_fail_enabled (mode =? 1) w in
  if mode =? 1 then
    let w := with_answer_box true w in
    let w := with_input_text [] w in
    let w := with_input_enabled true w in
    with_confirm_enabled true w
  else w.

Definition next_card (env : Env) (w : StudyWindow) : StudyWindow :=
  let w := with_rated false w in
  let w := with_ts_start (monotonic env) w in
  let w := with_showing_mean false w in
  let w := with_continue_enabled false w in
  let w := match current w with
           | Some (_, mode) => if mode =? 0 then with_rating_enabled false w else w
           | None => w
           end in
  let w := with_idx (idx w + 1) w in
  if idx w >=? Z.of_nat (length (queue w)) then with_closed true w
  else
    match nth_error (queue w) (Z.to_nat (idx w)) with
    | Some card => show_card env card w
    | None => w
    end.

(** The user types [text] into the answer field, when it is enabled. *)
Definition type_answer (text : pystr) (w : StudyWindow) : StudyWindow :=
  if input_enabled w then with_input_text text w else w.

(** [x and x.strip()] for a column [x]. *)
Definition filled (x : option pystr) : bool :=
  match x with
  | Some (c :: r) => negb (str_eqb (strip (c :: r)) [])
  | _ => false
  end.

Definition format_jp_term (row : Row) : option pystr :=
  let jp_kanji := row_jp_kanji row in
  let jp_kana := row_jp_kana row in
  if filled jp_kanji && filled jp_kana then
    Some (default [] jp_kanji ++ u "｜" ++ default [] jp_kana)
  else if filled jp_kanji then jp_kanji
  else if filled jp_kana then jp_kana
  else row_term row.

Definition jp_answer_set (row : Row) : gset (list Z) :=
  let s : gset (list Z) := {[ strip (default [] (row_term row)) ]} in
  let s :=
    match row_jp_kanji row with
    | Some (c :: r) => {[ strip (c :: r) ]} ∪ s
    | _ => s
    end in
  let s :=
    match row_jp_kana row with
    | Some (c :: r) => {[ strip (c :: r) ]} ∪ s
    | _ => s
    end in
  filter (fun x => x <> []) s.

Definition format_jp_term_for_table (row : Row) : pystr :=
  let term := strip (default [] (row_term row)) in
  let jp_kanji := get_jp_kanji row in
  match term, jp_kanji with
  | _ :: _, _ :: _ => term ++ u " | " ++ jp_kanji
  | _ :: _, [] => term
  | [], _ => jp_kanji
  end.

Definition pick_romaji (row : Row) (kana_text : pystr) : pystr :=
  let jp_kana := get_jp_kana row in
  if _is_romaji jp_kana then strip jp_kana
  else
    match kana_text with
    | [] => []
    | _ :: _ => kana_to_romaji kana_text
    end.

(** The keys [keyPressEvent] tells apart. *)
Inductive Key := Key_Space | Key_1 | Key_2 | Key_3 | Key_4 | Key_other.

(** [self.current and self.current[1] == mode] *)
Definition current_mode_is (mode : Z) (w : StudyWindow) : bool :=
  match current w with
  | Some (_, m) => m =? mode
  | None => false
  end.

(** [keyPressEvent]; a key it does not handle goes to the base class,
    which changes none of the attributes. *)
Definition keyPressEvent (env : Env) (key : Key) (w : StudyWindow) : StudyWindow :=
  let digit (quality : Z) :=
    if _rated w then w
    else if negb (showing_mean w) then toggle_meaning w
    else if current_mode_is 0 w then submit_rating env quality w
    else w in
  match key with
  | Key_Space =>
      if negb (showing_mean w) then toggle_meaning w
      else if _rated w || current_mode_is 1 w then next_card env w
      else w
  | Key_1 => digit 1
  | Key_2 => digit 3
  | Key_3 => digit 4
  | Key_4 => digit 5
  | Key_other => w
  end.

Definition try_space_continue (env : Env) (w : StudyWindow) : StudyWindow :=
  if continue_enabled w then next_card env w else toggle_meaning w.

(** What ends [prepare_queue] early: an exception of the float arithmetic,
    or the [IndexError] of [self.queue[self.idx]] on an empty queue. *)
Inductive PrepareError :=
| FloatError (e : Py.exn)
| IndexError.

(** [unit] of [prepare_queue]: the filter, with the names of all units
    turned into [None]. *)
Definition normal_unit (unit_filter : UnitArg) : UnitArg :=
  match unit_filter with
  | UnitStr name =>
      if str_eqb name all_units || str_eqb name [] then UnitNone else unit_filter
  | _ => unit_filter
  end.

(** [rows] of [prepare_queue]. *)
Definition queue_rows (conn : Conn) (unit_filter : UnitArg) (include_all : bool)
  : list Row :=
  let unit := normal_unit unit_filter in
  let rows :=
    if include_all then list_cards_by_unit conn unit
    else
      match list_due_cards conn unit with
      | [] => list_cards_by_unit conn unit
      | rows => rows
      end in
  match rows, unit with
  | [], UnitNone => rows
  | [], _ => list_cards_by_unit conn UnitNone
  | _ :: _, _ => rows
  end.

(** [prepare_queue]; [unit_filter] and [include_all] are the attributes
    [__init__] sets, and [shuffle] is what [random.shuffle] makes of the
    list of modes. *)
Definition prepare_queue (env : Env) (shuffle : list Z -> list Z)
    (unit_filter : UnitArg) (include_all : bool) (w : StudyWindow)
  : StudyWindow + PrepareError :=
  let rows := queue_rows (db w) unit_filter include_all in
  let w := with_queue [] w in
  let n := Z.of_nat (length rows) in
  if n =? 0 then inl (with_idx (-1) w)
  else
    match (fn ← float_of_int n; py_int (fn * 1.0)%float) with
    | Py.Raise e => inr (FloatError e)
    | Py.Ok num_mode0 =>
        let num_mode1 := n - num_mode0 in
        let modes :=
          repeat 0 (Z.to_nat num_mode0) ++ repeat 1 (Z.to_nat num_mode1) in
        let modes := shuffle modes in
        let w := with_queue (combine rows modes) w in
        let w := with_idx 0 w in
        match queue w with
        | card :: _ => inl (show_card env card w)
        | [] => inr IndexError
        end
    end.

(** *** Notions the properties are stated with *)

(** A text [strip] leaves alone: empty, or with no space at either end. *)
Definition trimmed (t : list Z) : Prop :=
  t = [] \/
  ((exists c r, t = c :: r /\ is_space c = false)
   /\ (exists r c, t = r ++ [c] /\ is_space c = false)).

(** The verdict of [check_answer] on the text of the answer field: the
    value of [correct] it shows and passes on to the scheduler. *)
Definition accepted (env : Env) (row : Row) (typed : list Z) : bool :=
  let user_input := norm (Some typed) in
  dictionary_fallback env row user_input (exact_match row user_input).

(** The review event a handler appends for [row]. *)
Definition review_event (env : Env) (row : Row) (mode quality : Z)
    (elapsed_ms : option Z) : Review :=
  mkReview (row_id row) (now_local env) mode quality elapsed_ms
    None None None None None None None None.

Definition blank_window (conn : Conn) (queue : list (Row * Z)) : StudyWindow :=
  mkStudy conn queue 0 None 0 0 false false 0 [] false false false false false
    false LabelEmpty false false [].

Definition neko_row : Row :=
  mkRow 7 (Some (u "日语")) (Some (u "L1")) (Some (u "ねこ")) (Some (u "猫"))
    None None 0 0 2.5 None (Some (u "猫")) (Some (u "ねこ")) None.

Definition miru_row : Row :=
  mkRow 8 (Some (u "日语")) (Some (u "L1")) (Some (u "みる")) (Some (u "看"))
    None None 0 0 2.5 None (Some (u "見る")) (Some (u "みる")) None.

(** A dictionary with one entry, [観る] read [みる]. *)
Definition sample_dict : LocalJaZhDict :=
  mkDict {[ u "観る" := (u "観る", u "みる", u "观看") ]}.

Definition sample_env (ms : Z) : Env :=
  mkEnv (u "2026-01-01T09:00:00+09:00") (u "2026-01-01T00:00:00") ms sample_dict.

(** A Recall card as [show_card] presents it. *)
Definition presented (row : Row) (mode : Z) : StudyWindow :=
  show_card (sample_env 1000) (row, mode)
    (blank_window (mkConn [row] []) [(row, mode)]).

(** *** Notions of a session *)

(** A call of one of the handlers of the window, by a button, a key or
    the space shortcut of the main window. *)
Inductive Event :=
| Toggle                     (* btn_toggle: toggle_meaning *)
| Rate (quality : Z)         (* a rating button: submit_rating *)
| Confirm                    (* btn_confirm: check_answer *)
| GiveUp                     (* btn_fail: mark_fail *)
| TypeText (text : list Z)   (* typing into input_answer *)
| Continue                   (* continue_btn: next_card *)
| Press (key : Key)          (* keyPressEvent *)
| SpaceShortcut.             (* try_space_continue *)

(** The window after the call; an exception a handler raises ends the
    handler and leaves the window as it is then. *)
Definition handle (env : Env) (ev : Event) (w : StudyWindow) : StudyWindow :=
  match ev with
  | Toggle => toggle_meaning w
  | Rate quality => submit_rating env quality w
  | Confirm => fst (check_answer env w)
  | GiveUp => fst (mark_fail env w)
  | TypeText text => type_answer text w
  | Continue => next_card env w
  | Press key => keyPressEvent env key w
  | SpaceShortcut => try_space_continue env w
  end.

(** The calls of a session, each with what it reads from outside. *)
Fixpoint run (evs : list (Env * Event)) (w : StudyWindow) : StudyWindow :=
  match evs with
  | [] => w
  | (env, ev) :: evs' => run evs' (handle env ev w)
  end.

(** The columns of a card that say what the card is. *)
Definition content (r : Row)
  : Z * option (list Z) * option (list Z) * option (list Z) * option (list Z)
    * option (list Z) * option (list Z) * option (list Z) * option (list Z) :=
  (row_id r, row_language r, row_unit r, row_term r, row_meaning r,
   row_created_at r, row_jp_kanji r, row_jp_kana r, row_jp_ruby r).

(** What one call may change: not the queue, not the content of the cards;
    it appends at most one review and counts at most one card. *)
Definition call_ok (w w' : StudyWindow) : Prop :=
  queue w' = queue w
  /\ map content (cards (db w')) = map content (cards (db w))
  /\ (exists new, reviews (db w') = reviews (db w) ++ new /\ (length new <= 1)%nat)
  /\ ((session_total w' = session_total w
       /\ session_correct w' = session_correct w)
      \/ (session_total w' = session_total w + 1
          /\ (session_correct w' = session_correct w
              \/ session_correct w' = session_correct w + 1))).

End Study.

(** ** Properties of the transliteration *)

Module TranslitFacts.
Import PyStr Translit.

(** *** Dictionary lookups *)

Lemma str_eqb_eq (a b : list Z) : str_eqb a b = true <-> a = b.
Proof.
  revert b; induction a as [|x a IH]; intros [|y b]; simpl; split; try done.
  - intros [Hxy Hab]%andb_true_iff. apply Z.eqb_eq in Hxy. apply IH in Hab. congruence.
  - intros [= -> ->]. rewrite Z.eqb_refl. simpl. by apply IH.
Qed.

Lemma str_eqb_refl (a : list Z) : str_eqb a a = true.
Proof. by apply str_eqb_eq. Qed.

(** A two-character key misses a table in which no key ends as it does. *)
Lemma dict_get_pair_none (c c2 : Z) (d : list (list Z * list Z)) :
  existsb (second_is c2) d = false -> dict_get [c; c2] d = None.
Proof.
  induction d as [|[k v] d IH]; simpl; [done|].
  intros [Hk Hd]%orb_false_iff. rewrite (IH Hd).
  destruct k as [|k1 [|k2 [|k3 k]]]; simpl; try done;
    destruct (c =? k1); simpl; try done.
  - unfold second_is in Hk; simpl in Hk. by rewrite Hk.
  - destruct (c2 =? k2); done.
Qed.

(** *** The token loop of [kana_to_romaji] *)

Lemma tokens_nil (b : bool) : romaji_tokens [] b = [].
Proof. reflexivity. Qed.

Lemma tokens_sokuon (rest : list Z) (b : bool) :
  romaji_tokens (sokuon_char :: rest) b = romaji_tokens rest true.
Proof. reflexivity. Qed.

Lemma tokens_last (ch : Z) (b : bool) :
  (ch =? sokuon_char) = false ->
  romaji_tokens [ch] b = [double_first b (mono_token ch)].
Proof. intros H. simpl. by rewrite H. Qed.

Lemma tokens_digraph (ch c2 : Z) (rest : list Z) (b : bool) (token : list Z) :
  (ch =? sokuon_char) = false ->
  dict_get [ch; c2] K2R.digraph = Some token ->
  romaji_tokens (ch :: c2 :: rest) b
  = double_first b token :: romaji_tokens rest false.
Proof.
  intros H1 H2. change (romaji_tokens (ch :: c2 :: rest) b) with
    (if ch =? sokuon_char then romaji_tokens (c2 :: rest) true
     else match dict_get [ch; c2] K2R.digraph with
          | Some token => double_first b token :: romaji_tokens rest false
          | None => double_first b (mono_token ch) :: romaji_tokens (c2 :: rest) false
          end).
  by rewrite H1, H2.
Qed.

Lemma tokens_mono (ch c2 : Z) (rest : list Z) (b : bool) :
  (ch =? sokuon_char) = false ->
  dict_get [ch; c2] K2R.digraph = None ->
  romaji_tokens (ch :: c2 :: rest) b
  = double_first b (mono_token ch) :: romaji_tokens (c2 :: rest) false.
Proof.
  intros H1 H2. change (romaji_tokens (ch :: c2 :: rest) b) with
    (if ch =? sokuon_char then romaji_tokens (c2 :: rest) true
     else match dict_get [ch; c2] K2R.digraph with
          | Some token => double_first b token :: romaji_tokens rest false
          | None => double_first b (mono_token ch) :: romaji_tokens (c2 :: rest) false
          end).
  by rewrite H1, H2.
Qed.

(** No digraph has the small tsu as its second character, so the loop never
    reads across it. *)
Lemma tokens_sokuon_split (s1 s2 : list Z) (b : bool) :
  romaji_tokens (s1 ++ sokuon_char :: s2) b
  = romaji_tokens s1 b ++ romaji_tokens s2 true.
Proof.
  remember (length s1) as n eqn:Hn.
  revert s1 b Hn. induction n as [n IH] using lt_wf_ind. intros s1 b Hn.
  destruct s1 as [|ch rest]; [reflexivity|].
  destruct (ch =? sokuon_char) eqn:Hch.
  - apply Z.eqb_eq in Hch as ->. rewrite <- app_comm_cons, !tokens_sokuon.
    apply (IH (length rest)); simpl in Hn; [lia|done].
  - destruct rest as [|c2 rest2].
    + change ([ch] ++ sokuon_char :: s2) with (ch :: sokuon_char :: s2).
      rewrite tokens_mono, tokens_sokuon, tokens_last; try done.
      by apply dict_get_pair_none.
    + change ((ch :: c2 :: rest2) ++ sokuon_char :: s2)
        with (ch :: c2 :: (rest2 ++ sokuon_char :: s2)).
      destruct (dict_get [ch; c2] K2R.digraph) as [token|] eqn:Hd.
      * rewrite !(tokens_digraph _ _ _ _ token) by done.
        rewrite <- app_comm_cons. f_equal.
        apply (IH (length rest2)); simpl in Hn; [lia|done].
      * rewrite !tokens_mono by done.
        rewrite <- app_comm_cons. f_equal.
        change (c2 :: rest2 ++ sokuon_char :: s2)
          with ((c2 :: rest2) ++ sokuon_char :: s2).
        apply (IH (length (c2 :: rest2))); simpl in Hn |- *; [lia|done].
Qed.

Lemma double_first_vowel (b : bool) (token : list Z) :
  begins_with_vowel token -> double_first b token = token.
Proof.
  destruct token as [|t0 token]; [done|]. unfold begins_with_vowel, double_first.
  intros H. replace (char_in t0 consonants) with false; [by rewrite andb_false_r|].
  unfold char_in, vowels in H. simpl in H.
  repeat (apply orb_true_iff in H as [->%Z.eqb_eq|H]; [reflexivity|]). done.
Qed.

Lemma tokens_flag_irrelevant (k token : list Z) :
  first_token k = Some token -> begins_with_vowel token ->
  romaji_tokens k true = romaji_tokens k false.
Proof.
  destruct k as [|ch rest]; [done|]. unfold first_token.
  destruct (ch =? sokuon_char) eqn:Hch; [done|].
  destruct rest as [|c2 rest2].
  - intros [= <-] Hv. rewrite !tokens_last by done. by rewrite !double_first_vowel.
  - destruct (dict_get [ch; c2] K2R.digraph) as [t|] eqn:Hd; intros [= <-] Hv.
    + rewrite !(tokens_digraph _ _ _ _ t) by done. by rewrite !double_first_vowel.
    + rewrite !tokens_mono by done. by rewrite !double_first_vowel.
Qed.

Lemma first_token_head (k token : list Z) :
  first_token k = Some token ->
  exists res, romaji_tokens k false = token :: res.
Proof.
  destruct k as [|ch rest]; [done|]. unfold first_token.
  destruct (ch =? sokuon_char) eqn:Hch; [done|].
  assert (Hdf : forall t, double_first false t = t) by (by intros [|? ?]).
  destruct rest as [|c2 rest2].
  - intros [= <-]. rewrite tokens_last, Hdf by done. by eexists.
  - destruct (dict_get [ch; c2] K2R.digraph) as [t|] eqn:Hd; intros [= <-].
    + rewrite (tokens_digraph _ _ _ _ t), Hdf by done. by eexists.
    + rewrite tokens_mono, Hdf by done. by eexists.
Qed.

(** *** The long-vowel loop *)

Lemma lengthen_app (a b : list (list Z)) (lv : list Z) :
  exists lv', lengthen (a ++ b) lv = lengthen a lv ++ lengthen b lv'
              /\ (a = [] -> lv' = lv).
Proof.
  revert lv; induction a as [|t a IH]; intros lv; simpl.
  - by exists lv.
  - destruct (str_eqb t long_mark).
    + destruct (IH lv) as (lv' & -> & _). by exists lv'.
    + destruct (IH (update_last_vowel lv t)) as (lv' & -> & _). by exists lv'.
Qed.

Lemma lengthen_vowel_head (t : list Z) (res : list (list Z)) (lv : list Z) :
  begins_with_vowel t -> lengthen (t :: res) lv = lengthen (t :: res) [].
Proof.
  intros Hv. simpl.
  assert (Hm : str_eqb t long_mark = false).
  { destruct t as [|t0 t]; [done|]. unfold begins_with_vowel, char_in, vowels in Hv.
    simpl in Hv. simpl.
    repeat (apply orb_true_iff in Hv as [->%Z.eqb_eq|Hv]; [reflexivity|]). done. }
  rewrite Hm. do 2 f_equal.
  unfold update_last_vowel.
  destruct (find (fun c => char_in c vowels) (rev t)) as [c|] eqn:Hf; [done|].
  exfalso. destruct t as [|t0 t]; [done|].
  assert (Hin : In t0 (rev (t0 :: t))) by (apply in_rev; rewrite rev_involutive; by left).
  pose proof (find_none _ _ Hf t0 Hin) as Hno. simpl in Hno, Hv. congruence.
Qed.

(** *** [kana_to_romaji] *)

Lemma kana_to_romaji_unfold (kana : list Z) :
  kana_to_romaji kana = join (lengthen (romaji_tokens (_kata_to_hira kana) false) []).
Proof. by destruct kana. Qed.

Lemma kata_to_hira_small_tsu (c : Z) (s1 s2 : list Z) :
  is_small_tsu c ->
  _kata_to_hira (s1 ++ c :: s2) = _kata_to_hira s1 ++ sokuon_char :: _kata_to_hira s2.
Proof. intros [-> | ->]; unfold _kata_to_hira; by rewrite map_app. Qed.

(** C10: a small tsu at the end of the input, or before a syllable whose
    romanization begins with a vowel, adds nothing to the output and
    doubles nothing: the output is that of the text before it followed by
    that of the text after it. *)
Theorem sokuon_without_effect :
  (forall (s : list Z) (c : Z),
      is_small_tsu c -> kana_to_romaji (s ++ [c]) = kana_to_romaji s)
  /\ (forall (s1 s2 : list Z) (c : Z) (t : list Z),
        is_small_tsu c ->
        first_token (_kata_to_hira s2) = Some t ->
        begins_with_vowel t ->
        kana_to_romaji (s1 ++ c :: s2) = kana_to_romaji s1 ++ kana_to_romaji s2)
  /\ kana_to_romaji (u "あっ") = u "a"
  /\ kana_to_romaji (u "っあ") = u "a".
Proof.
  split; [|split; [|split; vm_compute; reflexivity]].
  - intros s c Hc. rewrite !kana_to_romaji_unfold, kata_to_hira_small_tsu by done.
    change (_kata_to_hira []) with (@nil Z).
    by rewrite tokens_sokuon_split, tokens_nil, app_nil_r.
  - intros s1 s2 c t Hc Ht Hv.
    rewrite !kana_to_romaji_unfold, kata_to_hira_small_tsu by done.
    rewrite tokens_sokuon_split, (tokens_flag_irrelevant _ t) by done.
    destruct (first_token_head _ _ Ht) as (res & ->).
    destruct (lengthen_app (romaji_tokens (_kata_to_hira s1) false) (t :: res) [])
      as (lv & -> & _).
    rewrite (lengthen_vowel_head t res lv) by done.
    unfold join. by rewrite concat_app.
Qed.

Lemma sokuon_without_effect_witness :
  kana_to_romaji (u "かっ") = kana_to_romaji (u "か")
  /\ kana_to_romaji (u "かッおと") = kana_to_romaji (u "か") ++ kana_to_romaji (u "おと").
Proof.
  split.
  - apply (proj1 sokuon_without_effect (u "か") 0x3063). by left.
  - apply (proj1 (proj2 sokuon_without_effect) (u "か") (u "おと") 0x30C3 (u "o")).
    + by right.
    + vm_compute. reflexivity.
    + vm_compute. reflexivity.
Defined.

(** *** The round trip *)

Lemma stable_kana_ok : forallb kana_ok stable = true.
Proof. vm_compute. reflexivity. Qed.

Lemma stable_romaji_ok : forallb romaji_ok stable = true.
Proof. vm_compute. reflexivity. Qed.

Lemma stable_steps_ok :
  forallb (fun kv => forallb (step_ok kv) contexts) stable = true.
Proof. vm_compute. reflexivity. Qed.

Lemma dict_get_In {V : Type} (key : list Z) (d : list (list Z * V)) (v : V) :
  dict_get key d = Some v -> In (key, v) d.
Proof.
  induction d as [|[k w] d IH]; simpl; [done|].
  destruct (str_eqb key k) eqn:E.
  - intros [= ->]. apply str_eqb_eq in E as ->. by left.
  - intros H. right. by apply IH.
Qed.

Lemma stable_checks (y : list Z) :
  is_stable y ->
  kana_ok (y, romaji_of y) = true
  /\ romaji_ok (y, romaji_of y) = true
  /\ forallb (step_ok (y, romaji_of y)) contexts = true.
Proof.
  intros [r Hr]. unfold romaji_of. rewrite Hr. simpl.
  apply dict_get_In in Hr.
  pose proof (proj1 (forallb_forall _ _) stable_kana_ok _ Hr).
  pose proof (proj1 (forallb_forall _ _) stable_romaji_ok _ Hr).
  pose proof (proj1 (forallb_forall _ _) stable_steps_ok _ Hr).
  done.
Qed.

Lemma double_first_false (t : list Z) : double_first false t = t.
Proof. by destruct t. Qed.

Lemma stable_safe_head (ws : list (list Z)) :
  Forall is_stable ws -> safe_head (concat ws).
Proof.
  intros Hws. destruct Hws as [|y ws Hy _]; [done|].
  destruct (stable_checks y Hy) as (Hk & _ & _). unfold kana_ok in Hk.
  apply andb_true_iff in Hk as [_ Hk].
  destruct y as [|c1 [|c2 [|c3 y]]]; try done; simpl.
  - apply andb_true_iff in Hk as [_ Hk]. by apply negb_true_iff.
  - apply andb_true_iff in Hk as [_ Hk]. by apply negb_true_iff.
Qed.

Lemma stable_tokens (ws : list (list Z)) :
  Forall is_stable ws ->
  romaji_tokens (concat ws) false = map romaji_of ws.
Proof.
  induction 1 as [|y ws Hy Hws IH]; [done|].
  pose proof (stable_safe_head ws Hws) as Hsafe.
  destruct (stable_checks y Hy) as (Hk & _ & _). unfold kana_ok in Hk.
  apply andb_true_iff in Hk as [_ Hk].
  simpl concat. simpl map. rewrite <- IH.
  destruct y as [|c1 [|c2 [|c3 y]]]; try done.
  - apply andb_true_iff in Hk as [[Hc Hr%str_eqb_eq]%andb_true_iff _].
    apply negb_true_iff in Hc. rewrite <- Hr.
    change ([c1] ++ concat ws) with (c1 :: concat ws).
    destruct (concat ws) as [|c2 rest].
    + by rewrite tokens_last, double_first_false.
    + rewrite tokens_mono, double_first_false; try done.
      by apply dict_get_pair_none.
  - apply andb_true_iff in Hk as [[Hc Hr]%andb_true_iff _].
    apply negb_true_iff in Hc.
    destruct (dict_get [c1; c2] K2R.digraph) as [t|] eqn:Hd; [|done].
    apply str_eqb_eq in Hr as <-.
    change ([c1; c2] ++ concat ws) with (c1 :: c2 :: concat ws).
    by rewrite (tokens_digraph _ _ _ _ t), double_first_false.
Qed.

Lemma stable_lengthen (ws : list (list Z)) (lv : list Z) :
  Forall is_stable ws ->
  lengthen (map romaji_of ws) lv = map romaji_of ws.
Proof.
  intros Hws. revert lv. induction Hws as [|y ws Hy Hws IH]; intros lv; [done|].
  destruct (stable_checks y Hy) as (_ & Hr & _). unfold romaji_ok in Hr.
  apply andb_true_iff in Hr as [[[Hr _]%andb_true_iff _]%andb_true_iff _].
  apply negb_true_iff in Hr. simpl. by rewrite Hr, IH.
Qed.

Lemma stable_kata_to_hira (ws : list (list Z)) :
  Forall is_stable ws -> _kata_to_hira (concat ws) = concat ws.
Proof.
  induction 1 as [|y ws Hy Hws IH]; [done|].
  simpl. unfold _kata_to_hira in *. rewrite map_app, IH. f_equal.
  destruct (stable_checks y Hy) as (Hk & _ & _). unfold kana_ok in Hk.
  apply andb_true_iff in Hk as [Hk _].
  clear -Hk. induction y as [|c y IHy]; [done|]. simpl in *.
  apply andb_true_iff in Hk as [Hc Hk]. rewrite IHy by done.
  apply Z.ltb_lt in Hc. replace (12449 <=? c) with false by (symmetry; apply Z.leb_gt; lia).
  done.
Qed.

(** [kana_to_romaji] spells a text of stable syllables token by token. *)
Lemma stable_kana_to_romaji (ws : list (list Z)) :
  Forall is_stable ws ->
  kana_to_romaji (concat ws) = concat (map romaji_of ws).
Proof.
  intros Hws.
  by rewrite kana_to_romaji_unfold, stable_kata_to_hira, stable_tokens, stable_lengthen.
Qed.

(** *** Letters and the normalisations of [romaji_to_kana] *)

Lemma letter_facts (c : Z) :
  letter c ->
  is_space c = false /\ (c <? 0x80) = true /\ ascii_lower c = c /\ c <> 120.
Proof.
  unfold letter, char_in, letters. simpl existsb. intros H.
  repeat (apply orb_true_iff in H as [->%Z.eqb_eq|H];
          [repeat split; [reflexivity..|discriminate]|]).
  done.
Qed.

Lemma stable_letters (ws : list (list Z)) :
  Forall is_stable ws -> Forall letter (concat (map romaji_of ws)).
Proof.
  induction 1 as [|y ws Hy Hws IH]; [done|].
  simpl. apply Forall_app. split; [|done].
  destruct (stable_checks y Hy) as (_ & Hr & _). unfold romaji_ok in Hr.
  apply andb_true_iff in Hr as [[_ Hr]%andb_true_iff _].
  apply List.Forall_forall. intros c Hc. by apply (proj1 (forallb_forall _ _) Hr).
Qed.

Lemma lstrip_letters (s : list Z) : Forall letter s -> lstrip s = s.
Proof.
  destruct 1 as [|c s Hc _]; [done|]. simpl.
  by destruct (letter_facts c Hc) as (-> & _).
Qed.

Lemma strip_letters (s : list Z) : Forall letter s -> strip s = s.
Proof.
  intros Hs. unfold strip, rstrip.
  rewrite (lstrip_letters (rev s)) by (by apply Forall_rev).
  rewrite rev_involutive. by apply lstrip_letters.
Qed.

Lemma lower_letters (unicode_lower : list Z -> list Z) (s : list Z) :
  Forall letter s -> lower unicode_lower s = s.
Proof.
  intros Hs. unfold lower.
  assert (H : forallb (fun c => c <? 128) s = true /\ map ascii_lower s = s).
  { induction Hs as [|c s Hc Hs [IH1 IH2]]; [done|].
    destruct (letter_facts c Hc) as (_ & Hlt & Hlow & _).
    simpl. by rewrite Hlt, Hlow, IH1, IH2. }
  destruct H as [-> ->]. done.
Qed.

Lemma startswith_incl (a s : list Z) (c : Z) :
  startswith a s = true -> In c a -> In c s.
Proof.
  revert s; induction a as [|x a IH]; intros [|y s]; simpl; try done.
  intros [Hxy Has]%andb_true_iff [->|Hc].
  - left. symmetry. by apply Z.eqb_eq.
  - right. by apply IH.
Qed.

(** A pattern with a character the text lacks is replaced nowhere. *)
Lemma replace_absent (a b s : list Z) (c : Z) :
  In c a -> ~ In c s -> replace a b s = s.
Proof.
  intros Ha. unfold replace. induction s as [|x s IH]; [done|].
  intros Hs. simpl.
  destruct (startswith a (x :: s)) eqn:E.
  - exfalso. apply Hs. by apply (startswith_incl a).
  - rewrite IH; [done|]. intros Hc. apply Hs. by right.
Qed.

Lemma merge_split_x_letters (s : list Z) :
  Forall letter s -> _merge_split_x s = s.
Proof.
  intros Hs. unfold _merge_split_x.
  assert (Hx : ~ In 120 s).
  { intros Hin. rewrite List.Forall_forall in Hs.
    by destruct (letter_facts 120 (Hs _ Hin)) as (_ & _ & _ & ?). }
  assert (Hreps : forallb (fun ab => char_in 120 (fst ab)) R2K.reps = true)
    by (vm_compute; reflexivity).
  revert Hreps. generalize R2K.reps. intros reps. induction reps as [|[a b] reps IH].
  - done.
  - simpl. intros [Ha Hreps]%andb_true_iff.
    rewrite (replace_absent a b s 120); [by apply IH| |done].
    unfold char_in in Ha. apply existsb_exists in Ha as (x & Hin & ->%Z.eqb_eq). done.
Qed.

(** *** The parser on the spelling of stable syllables *)

(** Away from the [x] branch an iteration reads three characters at most. *)
Lemma parse_at_firstn (s : list Z) :
  str_eqb (firstn 1 s) x_marker = false -> parse_at s = parse_at (firstn 3 s).
Proof.
  intros Hx. unfold parse_at.
  destruct s as [|a [|b [|c s]]]; try reflexivity.
  cbn [firstn skipn] in *. by rewrite Hx.
Qed.

Lemma letters_context (rest : list Z) :
  Forall letter rest -> In (firstn 2 rest) contexts.
Proof.
  intros Hrest.
  change contexts with
    ([] :: map (fun a => [a]) letters
        ++ map (fun ab => [fst ab; snd ab]) (list_prod letters letters)).
  assert (Hin : forall c, letter c -> In c letters).
  { intros c Hc. unfold letter, char_in in Hc.
    by apply existsb_exists in Hc as (x & Hx & ->%Z.eqb_eq). }
  destruct Hrest as [|a rest Ha Hrest]; [by left|].
  right. apply in_or_app.
  destruct Hrest as [|b rest Hb Hrest].
  - left. cbn [firstn]. apply (in_map (fun a => [a])). by apply Hin.
  - right. cbn [firstn]. apply (in_map (fun ab => [fst ab; snd ab]) _ (a, b)).
    apply in_prod; by apply Hin.
Qed.

Lemma parse_loop_cons (fuel : nat) (c : Z) (rest : list Z) (out : list (list Z)) :
  parse_loop (S fuel) (c :: rest) out
  = match parse_at (c :: rest) with
    | Some (k, n) => parse_loop fuel (skipn n (c :: rest)) (out ++ [k])
    | None => Some None
    end.
Proof. reflexivity. Qed.

(** One iteration on the spelling of a stable syllable yields the syllable
    and moves past its letters. *)
Lemma stable_parse_at (y rest : list Z) :
  is_stable y -> Forall letter rest ->
  context_ok (romaji_of y) rest = true ->
  exists n, parse_at (romaji_of y ++ rest) = Some (y, n)
            /\ skipn n (romaji_of y ++ rest) = rest.
Proof.
  intros Hy Hrest Hctx.
  destruct (stable_checks y Hy) as (_ & Hr & Hsteps).
  pose proof (proj1 (forallb_forall _ _) Hsteps _ (letters_context rest Hrest)) as Hstep.
  unfold romaji_ok in Hr.
  apply andb_true_iff in Hr as [[[_ Hne]%andb_true_iff Hlet]%andb_true_iff _].
  destruct (romaji_of y) as [|r0 r]; [done|].
  assert (Hr0 : letter r0) by (simpl in Hlet; by apply andb_true_iff in Hlet as [? _]).
  assert (Hx : str_eqb (firstn 1 ((r0 :: r) ++ rest)) x_marker = false).
  { simpl. destruct (letter_facts r0 Hr0) as (_ & _ & _ & Hx).
    apply Z.eqb_neq in Hx. by rewrite Hx. }
  assert (Hx' : str_eqb (firstn 1 ((r0 :: r) ++ firstn 2 rest)) x_marker = false) by exact Hx.
  assert (Hcut : firstn 3 ((r0 :: r) ++ rest) = firstn 3 ((r0 :: r) ++ firstn 2 rest)).
  { simpl. f_equal. clear. revert rest.
    destruct r as [|r1 [|r2 r]]; intros [|a [|b [|c rest]]]; reflexivity. }
  rewrite (parse_at_firstn _ Hx), Hcut, <- (parse_at_firstn _ Hx').
  unfold step_ok in Hstep.
  assert (Hctx' : context_ok (r0 :: r) (firstn 2 rest) = true).
  { destruct rest as [|a [|b rest]]; exact Hctx. }
  rewrite Hctx' in Hstep. cbv beta iota delta [implb] in Hstep.
  destruct (parse_at ((r0 :: r) ++ firstn 2 rest)) as [[k n]|]; [|discriminate Hstep].
  apply andb_true_iff in Hstep as [->%str_eqb_eq Hn].
  exists n. split; [done|].
  apply orb_true_iff in Hn as [Hn | [Hn Hnil]%andb_true_iff].
  - apply Nat.eqb_eq in Hn as ->. by rewrite skipn_app, skipn_all, Nat.sub_diag.
  - apply Nat.leb_le in Hn. destruct rest as [|a [|b rest]]; try done.
    rewrite app_nil_r. by apply skipn_all2.
Qed.

Lemma stable_parse_loop (ws : list (list Z)) :
  Forall is_stable ws -> nasal_ok ws = true ->
  forall (fuel : nat) (out : list (list Z)),
    (length (concat (map romaji_of ws)) < fuel)%nat ->
    parse_loop fuel (concat (map romaji_of ws)) out = Some (Some (out ++ ws)).
Proof.
  induction 1 as [|y ws Hy Hws IH]; intros Hn fuel out Hfuel.
  - destruct fuel; [simpl in Hfuel; lia|]. simpl. by rewrite app_nil_r.
  - simpl in Hn. apply andb_true_iff in Hn as [Hy_n Hn].
    destruct fuel as [|fuel]; [simpl in Hfuel; lia|].
    pose proof (stable_letters ws Hws) as Hrest.
    destruct (stable_checks y Hy) as (_ & Hr & _). unfold romaji_ok in Hr.
    apply andb_true_iff in Hr as [[[_ Hne]%andb_true_iff _]%andb_true_iff Hnasal].
    assert (Hctx : context_ok (romaji_of y) (concat (map romaji_of ws)) = true).
    { unfold context_ok. destruct (str_eqb (romaji_of y) roma_n) eqn:En; [|done].
      simpl in Hnasal. rewrite Hnasal in Hy_n. simpl.
      destruct Hws as [|y' ws' Hy' _]; [done|].
      destruct (stable_checks y' Hy') as (_ & Hr' & _). unfold romaji_ok in Hr'.
      apply andb_true_iff in Hr' as [[[_ Hne']%andb_true_iff _]%andb_true_iff _].
      simpl. destruct (romaji_of y'); done. }
    destruct (stable_parse_at y _ Hy Hrest Hctx) as (n & Hat & Hskip).
    simpl concat in *. simpl length in Hfuel. rewrite length_app in Hfuel.
    destruct (romaji_of y ++ concat (map romaji_of ws)) as [|c rest] eqn:E.
    { destruct (romaji_of y); done. }
    rewrite parse_loop_cons, Hat, Hskip.
    rewrite IH; [|done|].
    + by rewrite <- app_assoc.
    + destruct (romaji_of y); [done|]. simpl in Hfuel. lia.
Qed.

(** C3, as amended: on a non-empty text of stable syllables in which no
    [ん] stands before a vowel or a [y] syllable, [romaji_to_kana] undoes
    [kana_to_romaji]. *)
Theorem round_trip_stable (unicode_lower : list Z -> list Z) (ws : list (list Z)) :
  ws <> [] -> Forall is_stable ws -> nasal_ok ws = true ->
  romaji_to_kana unicode_lower (kana_to_romaji (concat ws))
  = Some (concat ws, _hira_to_kata (concat ws)).
Proof.
  intros Hne Hws Hn. rewrite stable_kana_to_romaji by done.
  pose proof (stable_letters ws Hws) as Hlet.
  pose proof (stable_parse_loop ws Hws Hn (S (length (concat (map romaji_of ws)))) []
                ltac:(lia)) as Hloop.
  unfold romaji_to_kana.
  destruct (concat (map romaji_of ws)) as [|c rest] eqn:E.
  { exfalso. destruct Hws as [|y ws Hy _]; [done|].
    destruct (stable_checks y Hy) as (_ & Hr & _). unfold romaji_ok in Hr.
    apply andb_true_iff in Hr as [[[_ Hr]%andb_true_iff _]%andb_true_iff _].
    simpl in E. destruct (romaji_of y); done. }
  rewrite strip_letters, lower_letters, merge_split_x_letters by done.
  by rewrite Hloop.
Qed.

Lemma round_trip_stable_witness :
  romaji_to_kana no_unicode_lower
    (kana_to_romaji (concat [u "きょ"; u "う"; u "は"; u "さ"; u "ん"; u "ぽ"]))
  = Some (concat [u "きょ"; u "う"; u "は"; u "さ"; u "ん"; u "ぽ"],
          _hira_to_kata (concat [u "きょ"; u "う"; u "は"; u "さ"; u "ん"; u "ぽ"])).
Proof.
  apply (round_trip_stable no_unicode_lower
           [u "きょ"; u "う"; u "は"; u "さ"; u "ん"; u "ぽ"]).
  - discriminate.
  - repeat constructor; vm_compute; eexists; reflexivity.
  - vm_compute. reflexivity.
Defined.

(** C3 fails as stated: [を] is a mapped syllable, it is spelt [o], and [o]
    is read back as [お]. *)
Lemma round_trip_fails_on_wo :
  dict_get (u "を") K2R.mono = Some (u "o")
  /\ (forall unicode_lower : list Z -> list Z,
        romaji_to_kana unicode_lower (kana_to_romaji (u "を")) = Some (u "お", u "オ"))
  /\ u "お" <> u "を".
Proof. split; [|split]; [vm_compute; reflexivity|intros ul; vm_compute; reflexivity|discriminate]. Qed.

(** Other mapped syllables the round trip loses: a geminate is spelt with
    a doubled consonant, which [romaji_to_kana] does not read, and [ja] is
    read only at the end of the text. *)
Lemma round_trip_fails_on_geminate (unicode_lower : list Z -> list Z) :
  kana_to_romaji (u "がっこう") = u "gakkou"
  /\ romaji_to_kana unicode_lower (u "gakkou") = None.
Proof. split; vm_compute; reflexivity. Qed.

Lemma round_trip_fails_on_ja (unicode_lower : list Z -> list Z) :
  kana_to_romaji (u "じゃあ") = u "jaa"
  /\ romaji_to_kana unicode_lower (u "jaa") = None
  /\ romaji_to_kana unicode_lower (u "ja") = Some (u "じゃ", u "ジャ").
Proof. repeat split; vm_compute; reflexivity. Qed.

(** *** The fuel of [parse_loop] *)

Lemma parse_at_advance (s k : list Z) (n : nat) :
  parse_at s = Some (k, n) -> (1 <= n)%nat.
Proof.
  unfold parse_at. repeat case_match; intros [= <- <-]; lia.
Qed.

(** The bound [romaji_to_kana] gives the loop is never hit. *)
Lemma parse_loop_fuel (fuel : nat) (rest : list Z) (out : list (list Z)) :
  (length rest < fuel)%nat -> parse_loop fuel rest out <> None.
Proof.
  revert rest out. induction fuel as [|fuel IH]; intros rest out Hlt; [lia|].
  destruct rest as [|c rest]; [done|].
  rewrite parse_loop_cons.
  destruct (parse_at (c :: rest)) as [[k n]|] eqn:E; [|done].
  apply IH. apply parse_at_advance in E.
  rewrite length_skipn. simpl in *. lia.
Qed.

(** C4, as amended: on the empty string, [[]], [kana_to_romaji] returns
    the empty string, [romaji_to_kana] returns [None], and
    [romaji_to_kana_relaxed] returns the pair of empty strings. *)
Theorem empty_input (unicode_lower : list Z -> list Z) :
  kana_to_romaji [] = []
  /\ romaji_to_kana unicode_lower [] = None
  /\ romaji_to_kana_relaxed unicode_lower [] = ([], []).
Proof. repeat split. Qed.

(** C4 fails as stated: [romaji_to_kana] has no result on the empty string. *)
Lemma romaji_to_kana_empty_absent :
  ~ (exists (unicode_lower : list Z -> list Z) (r : list Z * list Z),
        romaji_to_kana unicode_lower [] = Some r).
Proof. intros (ul & r & H). discriminate H. Qed.

Example replace_without_overlap :
  replace (u "aa") (u "b") (u "aaaa") = u "bb"
  /\ replace (u "aa") (u "a") (u "xaax") = u "xax"
  /\ _merge_split_x (u "shixyoukixya") = u "shoukya".
Proof. repeat split; vm_compute; reflexivity. Qed.

Example kana_to_romaji_gakkou : kana_to_romaji (u "がっこう") = u "gakkou".
Proof. vm_compute. reflexivity. Qed.

Example kana_to_romaji_katakana : kana_to_romaji (u "コーヒー") = u "koohii".
Proof. vm_compute. reflexivity. Qed.

Example kana_to_romaji_mixed : kana_to_romaji (u "猫 ねこ!") = u "猫 neko!".
Proof. vm_compute. reflexivity. Qed.

Example romaji_to_kana_neko (unicode_lower : list Z -> list Z) :
  romaji_to_kana unicode_lower (u "neko") = Some (u "ねこ", u "ネコ").
Proof. vm_compute. reflexivity. Qed.

Example romaji_to_kana_kixyo (unicode_lower : list Z -> list Z) :
  romaji_to_kana unicode_lower (u "kixyouto") = Some (u "きょうと", u "キョウト").
Proof. vm_compute. reflexivity. Qed.

Example romaji_to_kana_shinbun (unicode_lower : list Z -> list Z) :
  romaji_to_kana unicode_lower (u " Shinbun ") = Some (u "しんぶん", u "シンブン").
Proof. vm_compute. reflexivity. Qed.

Example romaji_to_kana_relaxed_partial (unicode_lower : list Z -> list Z) :
  romaji_to_kana_relaxed unicode_lower (u "nekosh") = (u "ねこ", u "ネコ").
Proof. vm_compute. reflexivity. Qed.

End TranslitFacts.

(** ** Properties of binary64 arithmetic *)

Module FloatFacts.


(** *** Comparison of binary64 values *)

Lemma SFcompare_refl (f : spec_float) :
  f <> S754_nan -> SFcompare f f = Some Eq.
Proof.
  destruct f as [[]|[]| |[] m e]; simpl; try done;
    intros _; by rewrite Z.compare_refl, Pos.compare_cont_refl.
Qed.

Lemma is_nan_Prim2SF (x : float) :
  is_nan x = false <-> Prim2SF x <> S754_nan.
Proof.
  unfold is_nan. rewrite FloatAxioms.eqb_spec. unfold SFeqb. split.
  - intros H Hn. rewrite Hn in H. done.
  - intros H. by rewrite SFcompare_refl.
Qed.

Lemma SFcompare_swap (x y : spec_float) :
  SFcompare y x = match SFcompare x y with
                  | Some c => Some (CompOpp c)
                  | None => None
                  end.
Proof.
  destruct x as [[]|[]| |[] m1 e1], y as [[]|[]| |[] m2 e2]; simpl; try done;
    rewrite (Z.compare_antisym e1 e2);
    destruct (e1 ?= e2); simpl; try done;
    (assert (H : Pos.compare_cont Eq m2 m1 = CompOpp (Pos.compare_cont Eq m1 m2))
      by (symmetry; apply (Pos.compare_cont_antisym m1 m2 Eq)));
    rewrite H; by destruct (Pos.compare_cont Eq m1 m2).
Qed.

Lemma SFcompare_some (x y : spec_float) :
  x <> S754_nan -> y <> S754_nan -> exists c, SFcompare x y = Some c.
Proof.
  destruct x as [[]|[]| |[] m1 e1], y as [[]|[]| |[] m2 e2]; simpl; try done;
    intros _ _; by eexists.
Qed.

Lemma SFcompare_eq_finite (x : spec_float) (s : bool) (m : positive) (e : Z) :
  SFcompare x (S754_finite s m e) = Some Eq -> x = S754_finite s m e.
Proof.
  destruct x as [[]|[]| |s1 m1 e1]; simpl; try done; try (by destruct s).
  destruct s1, s; try done; destruct (e1 ?= e) eqn:He; try done;
    apply Z.compare_eq in He as ->; intros [= H].
  - apply (f_equal CompOpp) in H; rewrite CompOpp_involutive in H; simpl in H.
    by apply Pos.compare_eq in H as ->.
  - by apply Pos.compare_eq in H as ->.
Qed.

(** *** Rounding never yields NaN *)

Lemma shr_1_nonneg (mrs : shr_record) :
  0 <= shr_m mrs -> 0 <= shr_m (shr_1 mrs).
Proof. destruct mrs as [[|[p|p|]|p] r s]; simpl; lia. Qed.

Lemma iter_shr_1_nonneg (p : positive) (mrs : shr_record) :
  0 <= shr_m mrs -> 0 <= shr_m (SpecFloat.iter_pos shr_1 p mrs).
Proof.
  revert mrs. induction p as [p IH|p IH|]; intros mrs H; simpl.
  - by apply IH, IH, shr_1_nonneg.
  - by apply IH, IH.
  - by apply shr_1_nonneg.
Qed.

Lemma shr_fexp_nonneg (m e : Z) (l : location) :
  0 <= m -> 0 <= shr_m (fst (shr_fexp prec emax m e l)).
Proof.
  intros Hm. unfold shr_fexp, shr.
  assert (H : 0 <= shr_m (shr_record_of_loc m l)) by (by destruct l as [|[]]).
  destruct (fexp prec emax (Zdigits2 m + e) - e) as [|p|p]; simpl; try done.
  by apply iter_shr_1_nonneg.
Qed.

Lemma round_nearest_even_nonneg (mx : Z) (lx : location) :
  0 <= mx -> 0 <= round_nearest_even mx lx.
Proof. destruct lx as [|[]]; simpl; try lia. destruct (Z.even mx); lia. Qed.

Lemma binary_round_aux_not_nan (sx : bool) (mx ex : Z) (lx : location) :
  0 <= mx -> binary_round_aux prec emax sx mx ex lx <> S754_nan.
Proof.
  intros Hm. unfold binary_round_aux.
  pose proof (shr_fexp_nonneg mx ex lx Hm) as H1.
  destruct (shr_fexp prec emax mx ex lx) as [mrs' e']. simpl in H1.
  pose proof (shr_fexp_nonneg _ e' loc_Exact
                (round_nearest_even_nonneg _ (loc_of_shr_record mrs') H1)) as H2.
  destruct (shr_fexp prec emax _ e' loc_Exact) as [mrs'' e'']. simpl in H2.
  destruct (shr_m mrs'') as [|p|p]; [done| |lia].
  by destruct (e'' <=? emax - prec).
Qed.

Lemma binary_normalize_not_nan (m e : Z) (szero : bool) :
  binary_normalize prec emax m e szero <> S754_nan.
Proof.
  destruct m as [|p|p]; simpl; try done; unfold binary_round;
    destruct (shl_align _ _ _) as [mz ez]; by apply binary_round_aux_not_nan.
Qed.

(** Neither operand NaN, the second one finite: the sum is not NaN. *)
Lemma SFadd_not_nan (x y : spec_float) :
  x <> S754_nan ->
  match y with S754_zero _ | S754_finite _ _ _ => True | _ => False end ->
  SF64add x y <> S754_nan.
Proof.
  unfold SF64add.
  destruct x as [[]|[]| |sx mx ex], y as [[]|[]| |sy my ey]; simpl; try done;
    intros _ _; apply binary_normalize_not_nan.
Qed.

End FloatFacts.

(** ** Properties of the scheduler *)

Module Sm2Facts.
Import Db Sm2 FloatFacts.
Local Open Scope float_scope.

Lemma sm2_update_lapse (card_row : Row) (q : Z) (d : float) :
  (q <? 3)%Z = true -> float_of_int (5 - q) = Py.Ok d ->
  sm2_update card_row q
  = Py.Ok (1%Z, 0%Z, floor_easiness (easiness_step (row_ef card_row) d)).
Proof.
  intros Hq Hd. unfold sm2_update. rewrite Hq. simpl. by rewrite Hd.
Qed.

Lemma floor_easiness_max (x : float) :
  is_nan x = false -> floor_easiness x = py_max 1.3 x.
Proof.
  intros Hx%is_nan_Prim2SF. unfold floor_easiness, py_max.
  rewrite !ltb_spec. unfold SFltb.
  rewrite (SFcompare_swap (Prim2SF x) (Prim2SF 1.3)).
  destruct (SFcompare (Prim2SF x) (Prim2SF 1.3)) as [[]|] eqn:E; simpl; try done.
  - apply Prim2SF_inj. by apply SFcompare_eq_finite in E.
  - by destruct (SFcompare_some (Prim2SF x) (Prim2SF 1.3) Hx) as [c Hc]; [|congruence].
Qed.

Lemma floor_easiness_ge (x : float) :
  is_nan x = false -> (1.3 <=? floor_easiness x) = true.
Proof.
  intros Hx%is_nan_Prim2SF. unfold floor_easiness.
  rewrite ltb_spec. unfold SFltb.
  destruct (SFcompare (Prim2SF x) (Prim2SF 1.3)) as [[]|] eqn:E; try reflexivity;
    rewrite leb_spec; unfold SFleb; rewrite (SFcompare_swap (Prim2SF x)), E; try done.
  by destruct (SFcompare_some (Prim2SF x) (Prim2SF 1.3) Hx) as [c Hc]; [|congruence].
Qed.

Lemma easiness_step_not_nan (ef d : float) :
  is_nan ef = false -> finite_step d -> is_nan (easiness_step ef d) = false.
Proof.
  intros Hef%is_nan_Prim2SF Hd. apply is_nan_Prim2SF.
  unfold easiness_step. rewrite add_spec. by apply SFadd_not_nan.
Qed.

Lemma quality_step (q : Z) :
  (0 <= q <= 5)%Z ->
  float_of_int (5 - q) = Py.Ok (nearest_float (5 - q))
  /\ finite_step (nearest_float (5 - q)).
Proof.
  intros Hq.
  assert (H : (q = 0 \/ q = 1 \/ q = 2 \/ q = 3 \/ q = 4 \/ q = 5)%Z) by lia.
  destruct H as [H|[H|[H|[H|[H|H]]]]]; subst q; split; vm_compute; done.
Qed.

(** C6: below quality 3 the schedule restarts, with interval 1 and
    repetition 0, and the easiness is the updated one, floored at 1.3. *)
Theorem sm2_lapse (card_row : Row) (q : Z) :
  (0 <= q < 3)%Z ->
  is_nan (row_ef card_row) = false ->
  sm2_update card_row q
  = Py.Ok (1%Z, 0%Z,
           py_max 1.3
             (row_ef card_row
              + (0.1 - nearest_float (5 - q) * (0.08 + nearest_float (5 - q) * 0.02)))).
Proof.
  intros Hq Hef. destruct (quality_step q ltac:(lia)) as [Hd Hfin].
  rewrite (sm2_update_lapse card_row q _ ltac:(apply Z.ltb_lt; lia) Hd).
  rewrite floor_easiness_max; [done|]. by apply easiness_step_not_nan.
Qed.

Lemma sm2_lapse_witness :
  sm2_update new_card 1 = Py.Ok (1%Z, 0%Z, 1.96).
Proof.
  rewrite (sm2_lapse new_card 1); [|lia|reflexivity]. vm_compute. reflexivity.
Defined.

Lemma sm2_update_pass (card_row : Row) (q : Z) (d : float) :
  (q <? 3)%Z = false -> float_of_int (5 - q) = Py.Ok d ->
  sm2_update card_row q
  = let repetition := (row_repetition card_row + 1)%Z in
    if (repetition =? 1)%Z then
      Py.Ok (1%Z, repetition, floor_easiness (easiness_step (row_ef card_row) d))
    else if (repetition =? 2)%Z then
      Py.Ok (6%Z, repetition, floor_easiness (easiness_step (row_ef card_row) d))
    else
      match grown_interval (row_interval card_row) (row_ef card_row) with
      | Py.Ok interval =>
          Py.Ok (interval, repetition,
                 floor_easiness (easiness_step (row_ef card_row) d))
      | Py.Raise e => Py.Raise e
      end.
Proof.
  intros Hq Hd. unfold sm2_update. rewrite Hq. cbv zeta.
  destruct (row_repetition card_row + 1 =? 1)%Z; [simpl; by rewrite Hd|].
  destruct (row_repetition card_row + 1 =? 2)%Z; [simpl; by rewrite Hd|].
  destruct (grown_interval _ _); simpl; [by rewrite Hd|done].
Qed.

(** C7: for a quality of 1, 3, 4 or 5 and an easiness that is a number,
    the easiness [sm2_update] returns is at least 1.3, and it is the
    updated easiness itself whenever that is larger: there is no ceiling.
    The function returns unless the interval product cannot be rounded. *)
Theorem easiness_floor (card_row : Row) (q : Z) :
  (q = 1 \/ q = 3 \/ q = 4 \/ q = 5)%Z ->
  is_nan (row_ef card_row) = false ->
  match sm2_update card_row q with
  | Py.Ok (_, _, ef') =>
      (1.3 <=? ef') = true
      /\ ef' = py_max 1.3 (easiness_step (row_ef card_row) (nearest_float (5 - q)))
  | Py.Raise e =>
      (3 <= q)%Z
      /\ row_repetition card_row <> 0%Z /\ row_repetition card_row <> 1%Z
      /\ grown_interval (row_interval card_row) (row_ef card_row) = Py.Raise e
  end.
Proof.
  intros Hq Hef. destruct (quality_step q ltac:(lia)) as [Hd Hfin].
  pose proof (easiness_step_not_nan _ _ Hef Hfin) as Hstep.
  pose proof (floor_easiness_ge _ Hstep) as Hge.
  pose proof (floor_easiness_max _ Hstep) as Hmax.
  destruct (q <? 3)%Z eqn:Hq3.
  - rewrite (sm2_update_lapse card_row q _ Hq3 Hd). by rewrite <- Hmax.
  - rewrite (sm2_update_pass card_row q _ Hq3 Hd). cbv zeta.
    destruct (row_repetition card_row + 1 =? 1)%Z eqn:H1; [by rewrite <- Hmax|].
    destruct (row_repetition card_row + 1 =? 2)%Z eqn:H2; [by rewrite <- Hmax|].
    destruct (grown_interval _ _) as [n|e]; cbv beta iota.
    + by rewrite <- Hmax.
    + apply Z.ltb_ge in Hq3. apply Z.eqb_neq in H1, H2. repeat split; lia.
Qed.

Lemma easiness_floor_witness :
  match sm2_update new_card 4 with
  | Py.Ok (_, _, ef') => (1.3 <=? ef') = true
  | Py.Raise _ => False
  end.
Proof.
  pose proof (easiness_floor new_card 4 ltac:(lia) eq_refl) as H.
  destruct (sm2_update new_card 4) as [[[? ?] ef']|e] eqn:E.
  - exact (proj1 H).
  - vm_compute in E. discriminate E.
Defined.

(** No ceiling: a large easiness is returned as it is. *)
Example easiness_has_no_ceiling :
  sm2_update (mkRow 1 None None None None None None 0 0 1e300 None None None None) 5
  = Py.Ok (1%Z, 1%Z, 1e300).
Proof. vm_compute. reflexivity. Qed.

(** An easiness that is not a number stays so: the comparison with 1.3 is
    false.  The column [ef] cannot hold it (SQLite stores NaN as NULL). *)
Example sm2_update_nan :
  sm2_update (mkRow 1 None None None None None None 0 0 nan None None None None) 1
  = Py.Ok (1%Z, 0%Z, nan).
Proof. vm_compute. reflexivity. Qed.

Example sm2_progression :
  sm2_update (mkRow 1 None None None None None None 0 0 2.5 None None None None) 4
  = Py.Ok (1%Z, 1%Z, 2.5)
  /\ sm2_update (mkRow 1 None None None None None None 1 1 2.5 None None None None) 4
     = Py.Ok (6%Z, 2%Z, 2.5)
  /\ sm2_update (mkRow 1 None None None None None None 6 2 2.5 None None None None) 4
     = Py.Ok (15%Z, 3%Z, 2.5).
Proof. repeat split; vm_compute; reflexivity. Qed.

End Sm2Facts.

(** ** Properties of the card queries *)

Module DbFacts.
Import PyStr Db.

Section Commute.
Variable f : Row -> Row.

Lemma insert_by_map (cmp : Row -> Row -> comparison) (r : Row) (l : list Row) :
  (forall a b, cmp (f a) (f b) = cmp a b) ->
  insert_by cmp (f r) (map f l) = map f (insert_by cmp r l).
Proof.
  intros Hcmp. induction l as [|x l IH]; [done|].
  simpl. rewrite Hcmp. destruct (cmp r x); simpl; try done. by rewrite IH.
Qed.

Lemma order_by_map (cmp : Row -> Row -> comparison) (l : list Row) :
  (forall a b, cmp (f a) (f b) = cmp a b) ->
  order_by cmp (map f l) = map f (order_by cmp l).
Proof.
  intros Hcmp. unfold order_by. induction l as [|x l IH]; [done|].
  simpl. by rewrite IH, insert_by_map.
Qed.

Lemma filter_map (p : Row -> bool) (l : list Row) :
  (forall a, p (f a) = p a) ->
  List.filter p (map f l) = map f (List.filter p l).
Proof.
  intros Hp. induction l as [|x l IH]; [done|].
  simpl. rewrite Hp. destruct (p x); simpl; by rewrite IH.
Qed.

End Commute.

(** C9: [list_due_cards] returns the rows of [list_cards_by_unit], in the
    same order, for every scope; and what it returns does not depend on
    the due dates: rewriting the column [due_date] of the table rewrites
    it in the result and changes neither the rows chosen nor their order. *)
Theorem no_due_date_filter (conn : Conn) (unit : UnitArg) :
  list_due_cards conn unit = list_cards_by_unit conn unit
  /\ forall due : Row -> option (list Z),
       list_due_cards (with_due_dates due conn) unit
       = map (set_due_date due) (list_due_cards conn unit).
Proof.
  split; [reflexivity|]. intros due.
  unfold list_due_cards, list_cards_by_unit, select_all, select_unit,
    select_units_in, with_due_dates. simpl cards.
  destruct unit as [|name|names].
  - by apply order_by_map.
  - destruct (str_eqb name [] || str_eqb name all_units).
    + by apply order_by_map.
    + rewrite filter_map by done. by apply order_by_map.
  - destruct (collect_units names ∅ []).
    + by apply order_by_map.
    + rewrite filter_map by done. by apply order_by_map.
Qed.

Example list_due_cards_all :
  map row_id (list_due_cards sample_cards UnitNone) = [3; 1; 2].
Proof. vm_compute. reflexivity. Qed.

Example list_due_cards_units :
  map row_id (list_due_cards sample_cards
                (UnitSeq [Some (u " L2 "); None; Some (u "L1"); Some (u "L2")]))
  = [1; 2].
Proof. vm_compute. reflexivity. Qed.

End DbFacts.

(** ** Properties of the dictionary keys *)

Module LocalDictFacts.
Import PyStr LocalDict.

Lemma startswith_length (a s : list Z) :
  startswith a s = true -> (length a <= length s)%nat.
Proof.
  revert s; induction a as [|x a IH]; intros [|y s]; simpl; try done; [lia|].
  intros [_ H%IH]%andb_true_iff. lia.
Qed.

Lemma replace_from_length (a b : list Z) (k : nat) (s : list Z) :
  (length b <= length a)%nat ->
  (length (replace_from a b k s) + Nat.min k (length s) <= length s)%nat.
Proof.
  intros Hab. revert k; induction s as [|c r IH]; intros k; simpl; [lia|].
  destruct k as [|k].
  - destruct (startswith a (c :: r)) eqn:E.
    + apply startswith_length in E. simpl in E.
      specialize (IH (Nat.pred (length a))). rewrite length_app. lia.
    + specialize (IH 0%nat). simpl. lia.
  - specialize (IH k). lia.
Qed.

(** A replacement by a shorter text shortens the text it occurs in. *)
Lemma replace_shortens (a b s : list Z) :
  (length b < length a)%nat -> contains a s = true ->
  (length (replace a b s) < length s)%nat.
Proof.
  intros Hab. unfold replace. induction s as [|c r IH]; simpl.
  - rewrite orb_false_r. intros E%startswith_length. simpl in E. lia.
  - destruct (startswith a (c :: r)) eqn:E; simpl.
    + intros _. apply startswith_length in E. simpl in E.
      pose proof (replace_from_length a b (Nat.pred (length a)) r ltac:(lia)).
      rewrite length_app. lia.
    + intros H%IH. lia.
Qed.

(** The rounds [_norm_key] allows suffice: no two spaces are left. *)
Lemma squeeze_spaces_fuel (fuel : nat) (s : list Z) :
  (length s <= fuel)%nat ->
  contains (u "  ") (squeeze_spaces fuel s) = false.
Proof.
  revert s; induction fuel as [|fuel IH]; intros s Hs.
  - destruct s; [reflexivity|simpl in Hs; lia].
  - simpl. destruct (contains (u "  ") s) eqn:E; [|done].
    apply IH. pose proof (replace_shortens (u "  ") (u " ") s ltac:(simpl; lia) E). lia.
Qed.

Example norm_key_sample :
  _norm_key (u "  観る　（みる）   ～  ") = u "観る (みる) ~".
Proof. vm_compute. reflexivity. Qed.

End LocalDictFacts.

(** ** Properties of the review session *)

Module StudyFacts.
Import PyStr Translit Db Sm2 LocalDict Study.

(** *** Trimming *)

Lemma lstrip_head (s : list Z) :
  lstrip s = [] \/ exists c r, lstrip s = c :: r /\ is_space c = false.
Proof.
  induction s as [|c s IH]; [by left|]. simpl.
  destruct (is_space c) eqn:E; [done|]. right. by exists c, s.
Qed.

Lemma lstrip_suffix (s : list Z) : exists p, s = p ++ lstrip s.
Proof.
  induction s as [|c s [p IH]]; [by exists []|]. simpl.
  destruct (is_space c).
  - exists (c :: p). simpl. by rewrite <- IH.
  - by exists [].
Qed.

Lemma strip_trimmed (t : list Z) : trimmed t -> strip t = t.
Proof.
  intros [->|[(c & r & -> & Hc) (r' & c' & Hr & Hc')]]; [done|].
  unfold strip, rstrip. rewrite Hr, rev_app_distr. simpl.
  rewrite Hc'. simpl. rewrite rev_involutive, <- Hr. simpl. by rewrite Hc.
Qed.

Lemma strip_is_trimmed (s : list Z) : trimmed (strip s).
Proof.
  unfold strip, rstrip.
  destruct (lstrip_head (rev s)) as [->|(c & r & -> & Hc)]; [by left|].
  simpl rev.
  destruct (lstrip_head (rev r ++ [c])) as [->|(c' & r' & E & Hc')]; [by left|].
  right. split; [by exists c', r'|]. rewrite E.
  destruct (lstrip_suffix (rev r ++ [c])) as [p Hp]. rewrite E in Hp.
  destruct (exists_last (l := c' :: r') ltac:(done)) as (l' & a & El).
  rewrite El in Hp |- *. rewrite app_assoc in Hp.
  apply app_inj_tail in Hp as [_ ->]. by exists l', a.
Qed.

Lemma strip_idempotent (s : list Z) : strip (strip s) = strip s.
Proof. apply strip_trimmed, strip_is_trimmed. Qed.

Lemma pick_kana_trimmed (row : Row) : strip (pick_kana row) = pick_kana row.
Proof.
  unfold pick_kana, get_jp_kana, norm.
  repeat case_match; try done; by rewrite ?strip_idempotent.
Qed.

Lemma get_jp_kanji_trimmed (row : Row) : strip (get_jp_kanji row) = get_jp_kanji row.
Proof. apply strip_idempotent. Qed.

(** *** The answer check *)

Lemma answer_set_spec (row : Row) (x : list Z) :
  x ∈ answer_set row <->
  x <> [] /\
  (x = pick_kana row \/ x = get_jp_kanji row
   \/ (x = norm (row_term row) /\ (_has_kana x || _has_kanji x) = true)).
Proof.
  unfold answer_set. cbv zeta.
  change (norm (Some (pick_kana row))) with (strip (pick_kana row)).
  change (norm (Some (get_jp_kanji row))) with (strip (get_jp_kanji row)).
  rewrite pick_kana_trimmed, get_jp_kanji_trimmed.
  destruct (pick_kana row) as [|k0 k] eqn:Ek;
    destruct (get_jp_kanji row) as [|j0 j] eqn:Ej;
    destruct (norm (row_term row)) as [|t0 t] eqn:Et;
    try destruct (_has_kana (t0 :: t) || _has_kanji (t0 :: t)) eqn:Eh;
    rewrite ?elem_of_union, ?elem_of_singleton, ?elem_of_empty;
    split; intros H; try (split; [intros ->|]); intuition (subst; try congruence).
Qed.

Lemma exact_match_spec (row : Row) (typed : list Z) :
  exact_match row (strip typed) = true <-> strip typed ∈ answer_set row.
Proof.
  unfold exact_match.
  change (norm (Some (strip typed))) with (strip (strip typed)).
  rewrite strip_idempotent.
  destruct (strip typed) as [|c t] eqn:E.
  - split; [done|]. intros H%answer_set_spec. by destruct H.
  - apply bool_decide_eq_true.
Qed.

Lemma dictionary_fallback_spec (env : Env) (row : Row) (t : list Z) (c : bool) :
  dictionary_fallback env row t c = true <->
  c = true \/
  (_has_kanji t = true /\ std_kana row <> []
   /\ exists term kana meaning,
        get_full (_LOCAL_DICT env) t = Some (term, kana, meaning)
        /\ strip kana = std_kana row).
Proof.
  unfold dictionary_fallback.
  destruct c; simpl; [by split; [left|]|].
  destruct (_has_kanji t); [|by split; [|intros [|(? & _)]]].
  destruct (std_kana row) as [|s0 s] eqn:Es;
    [by split; [|intros [|(_ & ? & _)]]|].
  destruct (get_full (_LOCAL_DICT env) t) as [[[term kana] meaning]|];
    [|by split; [|intros [|(_ & _ & ? & ? & ? & ? & _)]]].
  change (norm (Some kana)) with (strip kana).
  destruct (str_eqb (strip kana) (s0 :: s)) eqn:Ee.
  - split; [|done]. intros _. right. repeat split; [done|].
    exists term, kana, meaning. split; [done|].
    revert Ee. generalize (strip kana) (s0 :: s). clear.
    intros a; induction a as [|x a IH]; intros [|y b]; simpl; try done.
    intros [->%Z.eqb_eq ->%IH]%andb_true_iff. done.
  - split; [done|]. intros [|(_ & _ & term' & kana' & meaning' & [= -> -> ->] & Hk)]; [done|].
    rewrite Hk in Ee. exfalso. revert Ee. generalize (s0 :: s). clear.
    intros a; induction a as [|x a IH]; simpl; [done|].
    rewrite Z.eqb_refl. simpl. done.
Qed.

(** C8, as amended: a typed answer is accepted exactly when, trimmed, it
    is not empty and equals the card's kana, its kanji, or its term field
    where that holds kana or kanji; or when it contains kanji and the
    dictionary resolves it to an entry whose kana, trimmed, is the card's
    kana. *)
Theorem accepted_iff (env : Env) (row : Row) (typed : list Z) :
  accepted env row typed = true <->
  (strip typed <> [] /\
   (strip typed = pick_kana row \/ strip typed = get_jp_kanji row
    \/ (strip typed = norm (row_term row)
        /\ (_has_kana (strip typed) || _has_kanji (strip typed)) = true)))
  \/ (_has_kanji (strip typed) = true /\ std_kana row <> []
      /\ exists term kana meaning,
           get_full (_LOCAL_DICT env) (strip typed) = Some (term, kana, meaning)
           /\ strip kana = std_kana row).
Proof.
  unfold accepted. cbv zeta.
  change (norm (Some typed)) with (strip typed).
  by rewrite dictionary_fallback_spec, exact_match_spec, answer_set_spec.
Qed.

(** *** The handlers *)

Lemma record_review_keeps (env : Env) (quality : Z) (elapsed_ms : option Z)
    (w : StudyWindow) :
  let w' := _record_review env quality elapsed_ms w in
  cards (db w') = cards (db w) /\ sm2_calls w' = sm2_calls w
  /\ session_total w' = session_total w /\ session_correct w' = session_correct w
  /\ _rated w' = _rated w /\ current w' = current w.
Proof.
  unfold _record_review. destruct (current w) as [[row mode]|] eqn:E; [|done].
  by destruct (row_id row =? 0).
Qed.

(** C1 fails on the code: [submit_rating], the judgment of the Recognition
    direction, neither invokes [sm2_update] nor writes to the table of
    cards, whatever the quality and the state of the window. *)
Theorem submit_rating_skips_scheduler (env : Env) (quality : Z) (w : StudyWindow) :
  cards (db (submit_rating env quality w)) = cards (db w)
  /\ sm2_calls (submit_rating env quality w) = sm2_calls w.
Proof.
  unfold submit_rating. destruct (_rated w); [done|].
  destruct ((quality =? 4) || (quality =? 5)); cbn;
    match goal with
    | |- context [_record_review ?e ?q ?t ?x] =>
        destruct (record_review_keeps e q t x) as (-> & -> & _)
    end; done.
Qed.

(** The Recall direction does what C1 says: [check_answer] invokes the
    scheduler on the queue's row with the quality of its verdict, writes
    the result back and appends a review event. *)
Lemma check_answer_schedules (env : Env) (w : StudyWindow) (row : Row)
    (interval repetition : Z) (ef : float) :
  current w = Some (row, 1) ->
  sm2_update row (if accepted env row (input_text w) then 4 else 1)
  = Py.Ok (interval, repetition, ef) ->
  let w' := fst (check_answer env w) in
  snd (check_answer env w) = None
  /\ sm2_calls w'
     = sm2_calls w ++ [(row, if accepted env row (input_text w) then 4 else 1)]
  /\ mean_label w' = LabelAnswer row (accepted env row (input_text w))
  /\ cards (db w')
     = cards (update_card_review (db w) (row_id row) interval repetition ef
                (Some (now_local env)) None)
  /\ (row_id row <> 0 ->
      reviews (db w')
      = reviews (db w)
        ++ [review_event env row 1
              (if exact_match row (norm (Some (input_text w))) then 4 else 1)
              (elapsed env w)]).
Proof.
  intros Hcur Hsm2. unfold check_answer, accepted in *. rewrite Hcur. cbn zeta.
  change (negb (1 =? 1)) with false. cbv iota.
  set (user_input := norm (Some (input_text w))) in *.
  set (correct := exact_match row user_input) in *.
  set (final := dictionary_fallback env row user_input correct) in *.
  rewrite Hsm2.
  unfold _record_review, review_event, elapsed.
  destruct w as [db0 queue0 idx0 cur0 tot0 cor0 sh0 rated0 ts0 txt0 box0 ie0 ce0
                   fe0 re0 cont0 lbl0 vis0 cl0 calls0].
  cbn in Hcur. subst cur0.
  destruct rated0, correct, box0; cbn;
    destruct (row_id row =? 0) eqn:Eid; cbn;
    repeat split; try done; intros Hid; apply Z.eqb_eq in Eid; done.
Qed.

Lemma mark_fail_schedules (env : Env) (w : StudyWindow) (row : Row)
    (interval repetition : Z) (ef : float) :
  current w = Some (row, 1) ->
  sm2_update row 1 = Py.Ok (interval, repetition, ef) ->
  let w' := fst (mark_fail env w) in
  snd (mark_fail env w) = None
  /\ sm2_calls w' = sm2_calls w ++ [(row, 1)]
  /\ cards (db w')
     = cards (update_card_review (db w) (row_id row) interval repetition ef
                (Some (now_utc env)) None)
  /\ (row_id row <> 0 ->
      reviews (db w') = reviews (db w) ++ [review_event env row 1 1 (elapsed env w)])
  /\ session_total w' = session_total w + 1
  /\ session_correct w' = session_correct w.
Proof.
  intros Hcur Hsm2. unfold mark_fail. rewrite Hcur. cbn zeta.
  change (negb (1 =? 1)) with false. cbv iota. rewrite Hsm2.
  unfold _record_review, review_event, elapsed.
  destruct w as [db0 queue0 idx0 cur0 tot0 cor0 sh0 rated0 ts0 txt0 box0 ie0 ce0
                   fe0 re0 cont0 lbl0 vis0 cl0 calls0].
  cbn in Hcur. subst cur0.
  destruct box0; cbn; destruct (row_id row =? 0) eqn:Eid; cbn;
    repeat split; try done; intros Hid; apply Z.eqb_eq in Eid; done.
Qed.

(** X1: [submit_rating] ignores a second judgment: the guard on [_rated]
    returns at once. *)
Lemma submit_rating_idempotent (env env' : Env) (quality quality' : Z)
    (w : StudyWindow) :
  submit_rating env' quality' (submit_rating env quality w)
  = submit_rating env quality w.
Proof.
  unfold submit_rating at 1.
  assert (H : _rated (submit_rating env quality w) = true); [|by rewrite H].
  unfold submit_rating. destruct (_rated w) eqn:E; [done|]. reflexivity.
Qed.

(** The totals after the first judgment of a card, as C5 has them. *)
Lemma totals_submit_rating (env : Env) (quality : Z) (w : StudyWindow) :
  1 <= quality <= 5 -> _rated w = false ->
  session_total (submit_rating env quality w) = session_total w + 1
  /\ session_correct (submit_rating env quality w)
     = session_correct w + (if 4 <=? quality then 1 else 0).
Proof.
  intros Hq Hr. unfold submit_rating. rewrite Hr.
  assert (Hq' : (quality =? 4) || (quality =? 5) = (4 <=? quality)).
  { destruct (Z.leb_spec 4 quality), (Z.eqb_spec quality 4), (Z.eqb_spec quality 5);
      simpl; try done; lia. }
  rewrite Hq'. cbn.
  match goal with
  | |- context [_record_review ?e ?q ?t ?x] =>
      destruct (record_review_keeps e q t x) as (_ & _ & -> & -> & _)
  end.
  destruct (4 <=? quality); cbn; split; lia.
Qed.

Lemma totals_check_answer (env : Env) (w : StudyWindow) (row : Row) :
  current w = Some (row, 1) -> _rated w = false ->
  let w' := fst (check_answer env w) in
  session_total w' = session_total w + 1
  /\ session_correct w'
     = session_correct w
       + (if exact_match row (norm (Some (input_text w))) then 1 else 0).
Proof.
  intros Hcur Hr. unfold check_answer. rewrite Hcur, Hr. cbn zeta.
  change (negb (1 =? 1)) with false. cbv iota.
  set (user_input := norm (Some (input_text w))).
  set (correct := exact_match row user_input).
  unfold _record_review.
  destruct w as [db0 queue0 idx0 cur0 tot0 cor0 sh0 rated0 ts0 txt0 box0 ie0 ce0
                   fe0 re0 cont0 lbl0 vis0 cl0 calls0].
  cbn in Hcur. subst cur0.
  destruct (sm2_update row _) as [[[i r] e]|e]; destruct correct, box0; cbn;
    destruct (row_id row =? 0); cbn; split; lia.
Qed.

(** A second [check_answer] on the same card leaves the totals alone. *)
Lemma totals_check_answer_again (env : Env) (w : StudyWindow) :
  _rated w = true ->
  let w' := fst (check_answer env w) in
  session_total w' = session_total w /\ session_correct w' = session_correct w.
Proof.
  intros Hr. unfold check_answer. destruct (current w) as [[row mode]|] eqn:Hcur; [|done].
  destruct (negb (mode =? 1)); [done|]. rewrite Hr. cbn zeta. cbv iota.
  set (user_input := norm (Some (input_text w))).
  set (correct := exact_match row user_input).
  unfold _record_review.
  destruct w as [db0 queue0 idx0 cur0 tot0 cor0 sh0 rated0 ts0 txt0 box0 ie0 ce0
                   fe0 re0 cont0 lbl0 vis0 cl0 calls0].
  cbn in Hcur. subst cur0.
  destruct (sm2_update row _) as [[[i r] e]|e]; destruct box0; cbn;
    destruct (row_id row =? 0); cbn; done.
Qed.

(** *** The handlers on sample cards *)

Example accepted_neko (env : Env) :
  accepted env neko_row (u "ねこ") = true
  /\ accepted env neko_row (u " 猫 ") = true
  /\ accepted env neko_row (u "ネコ") = false.
Proof. repeat split; vm_compute; reflexivity. Qed.

(** C8 fails as stated: with [観る] in the dictionary, the card
    [みる]/[見る] accepts the typed [観る], which is none of its forms. *)
Lemma accepted_beyond_exact_forms :
  accepted (sample_env 1000) miru_row (u "観る") = true
  /\ strip (u "観る") <> pick_kana miru_row
  /\ strip (u "観る") <> get_jp_kanji miru_row
  /\ strip (u "観る") <> norm (row_term miru_row).
Proof. repeat split; vm_compute; done. Qed.



End StudyFacts.

(** ** Properties of the kana conversions *)

Module KanaFacts.
Import PyStr Translit TranslitFacts.

(** *** Hiragana and katakana *)

Lemma kata_to_hira_fixed (s : list Z) :
  no_katakana s = true -> _kata_to_hira s = s.
Proof.
  unfold no_katakana, _kata_to_hira. induction s as [|c s IH]; simpl; [done|].
  intros [Hc Hs]%andb_true_iff. apply negb_true_iff in Hc. rewrite Hc.
  by rewrite IH.
Qed.

Lemma hira_to_kata_fixed (s : list Z) :
  no_hiragana s = true -> _hira_to_kata s = s.
Proof.
  unfold no_hiragana, _hira_to_kata. induction s as [|c s IH]; simpl; [done|].
  intros [Hc Hs]%andb_true_iff. apply negb_true_iff in Hc. rewrite Hc.
  rewrite IH by done. f_equal.
  apply andb_false_iff in Hc.
  repeat case_match; try done; lia.
Qed.

Lemma kata_hira_kata (s : list Z) :
  _kata_to_hira (_hira_to_kata s) = _kata_to_hira s.
Proof.
  unfold _kata_to_hira, _hira_to_kata. rewrite map_map. apply map_ext.
  intros c. repeat case_match; lia.
Qed.

Lemma hira_kata_hira (s : list Z) :
  _hira_to_kata (_kata_to_hira s) = _hira_to_kata s.
Proof.
  unfold _kata_to_hira, _hira_to_kata. rewrite map_map. apply map_ext.
  intros c. repeat case_match; lia.
Qed.

(** X2: converting to the other script and back gives the text again, for
    a text with no character of the script converted to first; on any text
    the second conversion undoes the first up to the script of the result;
    neither conversion changes the length; and [kana_to_romaji] does not
    tell the scripts apart: a text and its conversion to katakana, or to
    hiragana, have the same romanization. *)
Theorem kana_script_round_trip (s : list Z) :
  (no_katakana s = true -> _kata_to_hira (_hira_to_kata s) = s)
  /\ (no_hiragana s = true -> _hira_to_kata (_kata_to_hira s) = s)
  /\ _kata_to_hira (_hira_to_kata s) = _kata_to_hira s
  /\ _hira_to_kata (_kata_to_hira s) = _hira_to_kata s
  /\ length (_kata_to_hira s) = length s
  /\ length (_hira_to_kata s) = length s
  /\ kana_to_romaji (_hira_to_kata s) = kana_to_romaji s
  /\ kana_to_romaji (_kata_to_hira s) = kana_to_romaji s.
Proof.
  split; [|split; [|split; [|split; [|split; [|split; [|split]]]]]].
  - intros H. by rewrite kata_hira_kata, kata_to_hira_fixed.
  - intros H. by rewrite hira_kata_hira, hira_to_kata_fixed.
  - apply kata_hira_kata.
  - apply hira_kata_hira.
  - unfold _kata_to_hira. by rewrite length_map.
  - unfold _hira_to_kata. by rewrite length_map.
  - rewrite !kana_to_romaji_unfold. by rewrite kata_hira_kata.
  - rewrite !kana_to_romaji_unfold. do 3 f_equal.
    unfold _kata_to_hira. rewrite map_map. apply map_ext.
    intros c. repeat case_match; lia.
Qed.

Lemma kana_script_round_trip_witness :
  _kata_to_hira (_hira_to_kata (u "たべもの")) = u "たべもの"
  /\ _hira_to_kata (_kata_to_hira (u "コーヒー")) = u "コーヒー".
Proof.
  split.
  - apply (proj1 (kana_script_round_trip (u "たべもの"))). vm_compute. reflexivity.
  - apply (proj1 (proj2 (kana_script_round_trip (u "コーヒー")))).
    vm_compute. reflexivity.
Defined.

(** *** Characters the tables do not know *)

Lemma mono_keys_in_block :
  forallb (fun kv => match fst kv with
                     | [c] => (0x3041 <=? c) && (c <=? 0x30FC)
                     | _ => false
                     end) K2R.mono = true.
Proof. vm_compute. reflexivity. Qed.

Lemma digraph_keys_begin_with_key :
  forallb (fun kv => match fst kv with
                     | c :: _ => is_key c
                     | [] => false
                     end) K2R.digraph = true.
Proof. vm_compute. reflexivity. Qed.

Lemma outside_kana_plain (c : Z) :
  c < 0x3041 \/ 0x30FC < c -> c <> 0x2D -> plain c = true.
Proof.
  intros Hc Hh. unfold plain.
  assert (Hk : is_key c = false).
  { unfold is_key. destruct (dict_get [c] K2R.mono) as [v|] eqn:Hd; [|done].
    apply dict_get_In in Hd. pose proof mono_keys_in_block as Hall.
    rewrite forallb_forall in Hall. specialize (Hall _ Hd). simpl in Hall. lia. }
  rewrite Hk. simpl. rewrite andb_true_r.
  apply andb_true_iff; split; apply negb_true_iff; lia.
Qed.

Lemma plain_facts (c : Z) :
  plain c = true ->
  ((0x30A1 <=? c) && (c <=? 0x30F6)) = false
  /\ (c =? sokuon_char) = false
  /\ mono_token c = [c]
  /\ (forall c2, dict_get [c; c2] K2R.digraph = None)
  /\ str_eqb [c] long_mark = false.
Proof.
  unfold plain. intros [[H1 H2]%andb_true_iff H3]%andb_true_iff.
  apply negb_true_iff in H1, H2, H3. repeat split.
  - done.
  - destruct (c =? sokuon_char) eqn:E; [|done].
    apply Z.eqb_eq in E as ->. vm_compute in H2. done.
  - unfold mono_token. unfold is_key in H2.
    by destruct (dict_get [c] K2R.mono).
  - intros c2. destruct (dict_get [c; c2] K2R.digraph) as [v|] eqn:Hd; [|done].
    apply dict_get_In in Hd. pose proof digraph_keys_begin_with_key as Hall.
    rewrite forallb_forall in Hall. specialize (Hall _ Hd). simpl in Hall.
    congruence.
  - unfold long_mark. simpl. by rewrite H3.
Qed.

Lemma plain_tokens (s : list Z) (b : bool) :
  forallb plain s = true ->
  romaji_tokens s b
  = match s with
    | [] => []
    | c :: r => double_first b [c] :: map (fun c => [c]) r
    end.
Proof.
  revert b. induction s as [|c s IH]; intros b; [done|].
  simpl forallb. intros [Hc Hs]%andb_true_iff.
  destruct (plain_facts c Hc) as (_ & Hsok & Hmono & Hdi & _).
  destruct s as [|c2 s].
  - rewrite tokens_last by done. by rewrite Hmono.
  - rewrite tokens_mono by done. rewrite Hmono. f_equal.
    rewrite (IH false Hs). by rewrite double_first_false.
Qed.

Lemma lengthen_cons (t : list Z) (res : list (list Z)) (lv : list Z) :
  lengthen (t :: res) lv
  = if str_eqb t long_mark then lv :: lengthen res lv
    else t :: lengthen res (update_last_vowel lv t).
Proof. reflexivity. Qed.

Lemma plain_lengthen (s : list Z) (lv : list Z) :
  forallb plain s = true ->
  lengthen (map (fun c => [c]) s) lv = map (fun c => [c]) s.
Proof.
  revert lv. induction s as [|c s IH]; intros lv; [done|].
  simpl forallb. intros [Hc Hs]%andb_true_iff.
  destruct (plain_facts c Hc) as (_ & _ & _ & _ & Hlm).
  simpl map. rewrite lengthen_cons, Hlm. by rewrite IH.
Qed.

(** X3: [kana_to_romaji] copies every character it has no reading for.  A
    text made of characters that are neither katakana of the shifted block,
    nor keys of [mono], nor the hyphen, is returned as it is; every
    character outside U+3041..U+30FC other than the hyphen is of that
    kind. *)
Theorem kana_to_romaji_copies_plain (s : list Z) :
  (forallb plain s = true -> kana_to_romaji s = s)
  /\ (forall c, c < 0x3041 \/ 0x30FC < c -> c <> 0x2D -> plain c = true).
Proof.
  split; [|apply outside_kana_plain].
  intros Hs. rewrite kana_to_romaji_unfold.
  assert (Hk : _kata_to_hira s = s).
  { apply kata_to_hira_fixed. unfold no_katakana.
    rewrite forallb_forall in Hs |- *. intros c Hc.
    destruct (plain_facts c (Hs c Hc)) as (H & _). by rewrite H. }
  rewrite Hk, plain_tokens by done.
  destruct s as [|c s]; [done|].
  rewrite double_first_false.
  change ([c] :: map (fun c => [c]) s) with (map (fun c => [c]) (c :: s)).
  rewrite plain_lengthen by done.
  unfold join. clear. induction (c :: s) as [|x l IH]; simpl; [done|].
  by rewrite IH.
Qed.

Lemma kana_to_romaji_copies_plain_witness :
  kana_to_romaji (u "猫 cat!") = u "猫 cat!".
Proof.
  apply (proj1 (kana_to_romaji_copies_plain (u "猫 cat!"))).
  vm_compute. reflexivity.
Defined.

(** *** The small tsu before a consonant *)

Lemma tokens_flag_doubles (k token : list Z) :
  first_token k = Some token ->
  exists res, romaji_tokens k false = token :: res
              /\ romaji_tokens k true = double_first true token :: res.
Proof.
  destruct k as [|ch rest]; [done|]. unfold first_token.
  destruct (ch =? sokuon_char) eqn:Hch; [done|].
  destruct rest as [|c2 rest2].
  - intros [= <-]. rewrite !tokens_last, double_first_false by done. by eexists.
  - destruct (dict_get [ch; c2] K2R.digraph) as [t|] eqn:Hd; intros [= <-].
    + rewrite !(tokens_digraph _ _ _ _ t), double_first_false by done. by eexists.
    + rewrite !tokens_mono, double_first_false by done. by eexists.
Qed.

Lemma consonant_not_vowel (c : Z) :
  char_in c consonants = true -> char_in c vowels = false.
Proof.
  unfold char_in, consonants. simpl. intros H.
  repeat (apply orb_true_iff in H as [->%Z.eqb_eq|H]; [reflexivity|]). done.
Qed.

Lemma consonant_not_long_mark (c : Z) (t : list Z) :
  char_in c consonants = true -> str_eqb (c :: t) long_mark = false.
Proof.
  unfold char_in, consonants. simpl. intros H.
  repeat (apply orb_true_iff in H as [->%Z.eqb_eq|H]; [reflexivity|]). done.
Qed.

Lemma find_app_first {A : Type} (f : A -> bool) (a b : list A) :
  find f (a ++ b) = match find f a with
                    | Some x => Some x
                    | None => find f b
                    end.
Proof. induction a as [|x a IH]; simpl; [done|]. by destruct (f x). Qed.

Lemma has_vowel_find (t : list Z) :
  has_vowel t = true ->
  exists c, find (fun c => char_in c vowels) (rev t) = Some c.
Proof.
  unfold has_vowel. intros (c & Hin & Hc)%existsb_exists.
  destruct (find (fun c => char_in c vowels) (rev t)) as [x|] eqn:Hf; [by eexists|].
  apply in_rev in Hin. pose proof (find_none _ _ Hf c Hin) as Hno.
  cbv beta in Hno. congruence.
Qed.

(** X4: a small tsu doubles the consonant that follows it.  When the text
    after the small tsu begins with a syllable whose romanization begins
    with a consonant and has a vowel, the output is that of the text before
    it, that consonant, and the output of the text after it. *)
Theorem kana_to_romaji_geminate (s1 s2 : list Z) (c t0 : Z) (t : list Z) :
  is_small_tsu c ->
  first_token (_kata_to_hira s2) = Some (t0 :: t) ->
  char_in t0 consonants = true ->
  has_vowel t = true ->
  kana_to_romaji (s1 ++ c :: s2) = kana_to_romaji s1 ++ t0 :: kana_to_romaji s2.
Proof.
  intros Hc Ht Hcons Hv.
  rewrite !kana_to_romaji_unfold, kata_to_hira_small_tsu by done.
  rewrite tokens_sokuon_split.
  destruct (tokens_flag_doubles _ _ Ht) as (res & Hf & Htr).
  rewrite Hf, Htr.
  assert (Hd : double_first true (t0 :: t) = t0 :: t0 :: t).
  { unfold double_first. by rewrite Hcons. }
  rewrite Hd.
  destruct (lengthen_app (romaji_tokens (_kata_to_hira s1) false)
              ((t0 :: t0 :: t) :: res) []) as (lv' & -> & _).
  unfold join. rewrite concat_app. f_equal.
  rewrite !lengthen_cons, !consonant_not_long_mark by done.
  assert (Hu : forall lv, update_last_vowel lv (t0 :: t0 :: t)
                          = update_last_vowel [] (t0 :: t)).
  { intros lv. unfold update_last_vowel.
    destruct (has_vowel_find t Hv) as (x & Hx).
    simpl rev. rewrite <- !app_assoc. rewrite !find_app_first, Hx. done. }
  rewrite Hu. reflexivity.
Qed.

Lemma kana_to_romaji_geminate_witness :
  kana_to_romaji (u "が" ++ 0x3063 :: u "こう")
  = kana_to_romaji (u "が") ++ 107 :: kana_to_romaji (u "こう").
Proof.
  apply (kana_to_romaji_geminate (u "が") (u "こう") 0x3063 107 (u "o")).
  - left. reflexivity.
  - vm_compute. reflexivity.
  - vm_compute. reflexivity.
  - vm_compute. reflexivity.
Defined.

(** *** The long-vowel mark *)

Lemma long_mark_token (c : Z) (b : bool) :
  is_long_mark c ->
  (c =? sokuon_char) = false
  /\ double_first b (mono_token c) = long_mark
  /\ existsb (second_is c) K2R.digraph = false.
Proof. intros [-> | ->]; destruct b; vm_compute; done. Qed.

Lemma tokens_long_mark (s : list Z) (c : Z) (b : bool) :
  is_long_mark c ->
  romaji_tokens (s ++ [c]) b = romaji_tokens s b ++ [long_mark].
Proof.
  intros Hc.
  remember (length s) as n eqn:Hn.
  revert s b Hn. induction n as [n IH] using lt_wf_ind. intros s b Hn.
  destruct s as [|ch rest].
  - simpl app. destruct (long_mark_token c b Hc) as (H1 & H2 & _).
    rewrite tokens_last by done. by rewrite H2.
  - destruct (ch =? sokuon_char) eqn:Hch.
    + apply Z.eqb_eq in Hch as ->. rewrite <- app_comm_cons, !tokens_sokuon.
      apply (IH (length rest)); simpl in Hn; [lia|done].
    + destruct rest as [|c2 rest2].
      * change ([ch] ++ [c]) with (ch :: c :: []).
        destruct (long_mark_token c false Hc) as (H1 & H2 & H3).
        rewrite tokens_mono, !tokens_last; try done.
        -- by rewrite H2.
        -- by apply dict_get_pair_none.
      * change ((ch :: c2 :: rest2) ++ [c]) with (ch :: c2 :: (rest2 ++ [c])).
        destruct (dict_get [ch; c2] K2R.digraph) as [token|] eqn:Hd.
        -- rewrite !(tokens_digraph _ _ _ _ token) by done.
           rewrite <- app_comm_cons. f_equal.
           apply (IH (length rest2)); simpl in Hn; [lia|done].
        -- rewrite !tokens_mono by done.
           rewrite <- app_comm_cons. f_equal.
           change (c2 :: rest2 ++ [c]) with ((c2 :: rest2) ++ [c]).
           apply (IH (length (c2 :: rest2))); simpl in Hn |- *; [lia|done].
Qed.

Lemma update_last_vowel_ok (lv t : list Z) :
  vowel_or_empty lv -> vowel_or_empty (update_last_vowel lv t).
Proof.
  intros H. unfold update_last_vowel.
  destruct (find (fun c => char_in c vowels) (rev t)) as [x|] eqn:Hf; [|done].
  right. exists x. split; [done|]. by apply find_some in Hf as [_ ?].
Qed.

(** What the second loop appends for a mark at the end, and that it is the
    last vowel written so far. *)
Lemma lengthen_long_mark (res : list (list Z)) (lv : list Z) :
  vowel_or_empty lv ->
  lengthen (res ++ [long_mark]) lv
  = lengthen res lv
    ++ [match find (fun c => char_in c vowels) (rev (concat (lengthen res lv))) with
        | Some c => [c]
        | None => lv
        end].
Proof.
  revert lv. induction res as [|t res IH]; intros lv Hlv.
  - reflexivity.
  - rewrite <- app_comm_cons. rewrite !lengthen_cons.
    destruct (str_eqb t long_mark) eqn:Ht.
    + rewrite (IH lv Hlv). rewrite <- app_comm_cons. do 2 f_equal.
      simpl concat. rewrite rev_app_distr, find_app_first.
      destruct (find _ (rev (concat (lengthen res lv)))); [done|].
      destruct Hlv as [-> | (v & -> & Hv)]; [done|].
      change (rev [v]) with [v]. cbn [find]. by rewrite Hv.
    + rewrite (IH _ (update_last_vowel_ok lv t Hlv)).
      rewrite <- app_comm_cons. do 2 f_equal.
      simpl concat. rewrite rev_app_distr, find_app_first.
      destruct (find _ (rev (concat (lengthen res (update_last_vowel lv t)))));
        [done|].
      unfold update_last_vowel. by destruct (find _ (rev t)).
Qed.

(** X5: a long-vowel mark at the end of the text repeats the last vowel of
    what has been written before it, and adds nothing when no vowel has
    been written. *)
Theorem kana_to_romaji_long_mark (s : list Z) (c : Z) :
  is_long_mark c ->
  kana_to_romaji (s ++ [c])
  = kana_to_romaji s ++ last_vowel_of (kana_to_romaji s).
Proof.
  intros Hc. rewrite !kana_to_romaji_unfold.
  assert (Hk : _kata_to_hira (s ++ [c]) = _kata_to_hira s ++ [c]).
  { unfold _kata_to_hira. rewrite map_app. by destruct Hc as [-> | ->]. }
  rewrite Hk, tokens_long_mark by done.
  rewrite lengthen_long_mark by (by left).
  unfold join. rewrite concat_app. simpl concat. rewrite app_nil_r.
  unfold last_vowel_of. reflexivity.
Qed.

Lemma kana_to_romaji_long_mark_witness :
  kana_to_romaji (u "コーヒ" ++ [0x30FC])
  = kana_to_romaji (u "コーヒ") ++ last_vowel_of (kana_to_romaji (u "コーヒ")).
Proof. apply kana_to_romaji_long_mark. left. reflexivity. Defined.

(** *** Romaji as ASCII *)

(** [_is_romaji] holds of the non-empty strings of ASCII characters and
    of nothing else; its tests for kana and kanji reject no string the
    encoding would accept. *)
Lemma is_romaji_iff (s : list Z) :
  _is_romaji s = true <-> s <> [] /\ Forall (fun c => c < 0x80) s.
Proof.
  unfold _is_romaji. destruct s as [|c s].
  { split; [discriminate|]. intros [H _]. by destruct H. }
  set (l := c :: s). assert (Hne : l <> []) by done. clearbody l. split.
  - destruct (_has_kana l || _has_kanji l); [done|].
    intros H. split; [done|]. apply List.Forall_forall. intros x Hx.
    rewrite forallb_forall in H. specialize (H x Hx). lia.
  - intros [_ H]. rewrite List.Forall_forall in H.
    assert (Hk : _has_kana l = false).
    { unfold _has_kana. apply not_true_is_false.
      intros (x & Hx & Hr)%existsb_exists. specialize (H x Hx). lia. }
    assert (Hj : _has_kanji l = false).
    { unfold _has_kanji. apply not_true_is_false.
      intros (x & Hx & Hr)%existsb_exists. specialize (H x Hx). lia. }
    rewrite Hk, Hj. simpl. apply forallb_forall. intros x Hx.
    specialize (H x Hx). lia.
Qed.

End KanaFacts.

(** ** Properties of the romaji parser *)

Module RomajiFacts.
Import PyStr Translit TranslitFacts StudyFacts KanaFacts.

(** *** Trimming and lowering *)

Lemma lstrip_incl (s : list Z) (x : Z) : In x (lstrip s) -> In x s.
Proof.
  induction s as [|c s IH]; simpl; [done|].
  destruct (is_space c); [|done]. intros H. right. by apply IH.
Qed.

Lemma strip_incl (s : list Z) (x : Z) : In x (strip s) -> In x s.
Proof.
  unfold strip, rstrip. intros H%lstrip_incl. apply in_rev in H.
  apply lstrip_incl in H. by apply in_rev in H.
Qed.

Lemma lstrip_spaces (s : list Z) : forallb is_space s = true -> lstrip s = [].
Proof.
  induction s as [|c s IH]; simpl; [done|].
  intros [Hc Hs]%andb_true_iff. rewrite Hc. by apply IH.
Qed.

Lemma strip_spaces (s : list Z) : forallb is_space s = true -> strip s = [].
Proof.
  intros H. unfold strip, rstrip. rewrite (lstrip_spaces (rev s)); [done|].
  apply forallb_forall. intros x Hx%in_rev.
  rewrite forallb_forall in H. by apply H.
Qed.






Lemma is_ascii_strip (s : list Z) : is_ascii s = true -> is_ascii (strip s) = true.
Proof.
  unfold is_ascii. rewrite !forallb_forall. intros H x Hx%strip_incl. by apply H.
Qed.

Lemma lower_ascii (unicode_lower : list Z -> list Z) (s : list Z) :
  is_ascii s = true -> lower unicode_lower s = map ascii_lower s.
Proof. unfold lower, is_ascii. by intros ->. Qed.


(** *** What the parser reads and writes *)

Lemma table_entry (d : list (list Z * list Z)) (key k : list Z) :
  table_ok d = true -> dict_get key d = Some k ->
  forallb lc key = true /\ forallb hiragana k = true.
Proof.
  intros Hd Hk%dict_get_In. unfold table_ok in Hd.
  rewrite forallb_forall in Hd. specialize (Hd _ Hk). simpl in Hd.
  by apply andb_true_iff in Hd.
Qed.

Lemma tables_ok :
  table_ok R2K.xmap = true /\ table_ok R2K.digraph = true
  /\ table_ok R2K.mono = true.
Proof. repeat split; vm_compute; reflexivity. Qed.

(** An iteration of the loop reads lower-case letters only, at least one,
    and writes hiragana only. *)
Lemma parse_at_reads (rest k : list Z) (n : nat) :
  parse_at rest = Some (k, n) ->
  forallb lc (firstn n rest) = true /\ forallb hiragana k = true.
Proof.
  destruct tables_ok as (Hx & Hd & Hm).
  unfold parse_at. repeat case_match; intros [= <- <-];
    try match goal with
        | H : dict_get _ R2K.xmap = Some _ |- _ => exact (table_entry _ _ _ Hx H)
        | H : dict_get _ R2K.digraph = Some _ |- _ => exact (table_entry _ _ _ Hd H)
        | H : dict_get _ R2K.mono = Some _ |- _ => exact (table_entry _ _ _ Hm H)
        end.
  match goal with
  | H : str_eqb (firstn 1 rest) roma_n = true |- _ =>
      apply str_eqb_eq in H; rewrite H
  end.
  split; vm_compute; reflexivity.
Qed.

Lemma parse_loop_reads (fuel : nat) (rest : list Z) (out o : list (list Z)) :
  parse_loop fuel rest out = Some (Some o) ->
  forallb lc rest = true
  /\ (forallb (forallb hiragana) out = true -> forallb (forallb hiragana) o = true).
Proof.
  revert rest out. induction fuel as [|fuel IH]; intros rest out; [done|].
  destruct rest as [|c rest]; [by intros [= <-]|].
  rewrite parse_loop_cons.
  destruct (parse_at (c :: rest)) as [[k n]|] eqn:E; [|done].
  intros H. apply IH in H as [H1 H2].
  apply parse_at_reads in E as [E1 E2]. split.
  - rewrite <- (firstn_skipn n (c :: rest)). rewrite forallb_app. by rewrite E1, H1.
  - intros Hout. apply H2. rewrite forallb_app. simpl. by rewrite Hout, E2.
Qed.

(** *** The merge of split digraphs keeps what is not a letter *)

Lemma startswith_firstn (p s : list Z) :
  startswith p s = true -> firstn (length p) s = p.
Proof.
  revert s. induction p as [|x p IH]; intros [|y s]; simpl; try done.
  intros [->%Z.eqb_eq H]%andb_true_iff. by rewrite IH.
Qed.

Lemma replace_from_keeps (a b : list Z) (c : Z) (s : list Z) (k : nat) :
  a <> [] -> ~ In c a -> In c s ->
  Forall (fun x => x <> c) (firstn k s) ->
  In c (replace_from a b k s).
Proof.
  intros Ha Hca. revert k. induction s as [|x s IH]; intros k Hin Hk; [done|].
  destruct k as [|k]; simpl.
  - destruct (startswith a (x :: s)) eqn:E.
    + apply in_or_app. right.
      destruct a as [|a0 a]; [done|]. simpl in E.
      apply andb_true_iff in E as [->%Z.eqb_eq E]. simpl.
      apply IH.
      * destruct Hin as [<- | Hin]; [|done]. exfalso. apply Hca. by left.
      * rewrite (startswith_firstn _ _ E). apply List.Forall_forall.
        intros y Hy ->. apply Hca. by right.
    + destruct Hin as [-> | Hin]; [by left|]. right. apply IH; [done|].
      simpl. constructor.
  - simpl in Hk. inversion Hk as [|? ? Hx Hk']; subst.
    apply IH; [|done]. destruct Hin as [-> | Hin]; done.
Qed.

Lemma merge_split_x_keeps (s : list Z) (c : Z) :
  lc c = false -> In c s -> In c (_merge_split_x s).
Proof.
  intros Hc. unfold _merge_split_x.
  assert (Hreps : forallb (fun ab => negb (str_eqb (fst ab) [])
                                      && forallb lc (fst ab)) R2K.reps = true)
    by (vm_compute; reflexivity).
  revert s Hreps. generalize R2K.reps. intros reps.
  induction reps as [|[a b] reps IH]; intros s Hreps Hin; [done|].
  simpl in Hreps. apply andb_true_iff in Hreps as [Hab Hreps].
  apply andb_true_iff in Hab as [Hne Hlc]. simpl.
  apply IH; [done|]. unfold replace. apply replace_from_keeps.
  - intros ->. done.
  - intros Hin'. rewrite forallb_forall in Hlc. specialize (Hlc _ Hin'). congruence.
  - done.
  - simpl. constructor.
Qed.

(** X6: [romaji_to_kana] has no result on an ASCII text that, once
    trimmed, contains a character that is not a letter: a digit, a space
    between words, a hyphen, an apostrophe. *)
Theorem romaji_to_kana_rejects_non_letters
    (unicode_lower : list Z -> list Z) (s : list Z) (c : Z) :
  is_ascii s = true -> In c (strip s) -> ascii_letter c = false ->
  romaji_to_kana unicode_lower s = None.
Proof.
  intros Hs Hin Hc. unfold romaji_to_kana.
  destruct s as [|x s]; [done|]. set (l := x :: s) in *. clearbody l.
  cbv zeta.
  rewrite lower_ascii by (by apply is_ascii_strip).
  destruct (parse_loop _ _ _) as [[out|]|] eqn:E; try done.
  exfalso. apply parse_loop_reads in E as [E _].
  rewrite forallb_forall in E.
  assert (Hlc : lc c = false) by (unfold ascii_letter, lc in *; lia).
  assert (Hlow : ascii_lower c = c).
  { unfold ascii_lower, ascii_letter in *. case_match; lia. }
  specialize (E c). rewrite Hlc in E. discriminate E.
  apply merge_split_x_keeps; [done|].
  apply in_map_iff. by exists c.
Qed.

Lemma romaji_to_kana_rejects_non_letters_witness :
  romaji_to_kana no_unicode_lower (u "shin-bun") = None.
Proof.
  apply (romaji_to_kana_rejects_non_letters no_unicode_lower (u "shin-bun") 0x2D).
  - vm_compute. reflexivity.
  - vm_compute. tauto.
  - vm_compute. reflexivity.
Defined.

(** X7: when [romaji_to_kana] has a result, its first component is made
    of hiragana of the block [ぁ]..[ゖ] only, its second component is the
    first one converted to katakana, converting the second back gives the
    first, and the two have the same romanization. *)
Theorem romaji_to_kana_components
    (unicode_lower : list Z -> list Z) (s hira kata : list Z) :
  romaji_to_kana unicode_lower s = Some (hira, kata) ->
  forallb hiragana hira = true
  /\ kata = _hira_to_kata hira
  /\ _kata_to_hira kata = hira
  /\ length kata = length hira
  /\ kana_to_romaji kata = kana_to_romaji hira.
Proof.
  unfold romaji_to_kana. destruct s as [|x s]; [done|]. cbv zeta.
  destruct (parse_loop _ _ _) as [[out|]|] eqn:E; try done.
  intros [= <- <-].
  apply parse_loop_reads in E as [_ E]. specialize (E eq_refl).
  assert (Hh : forallb hiragana (join out) = true).
  { unfold join. clear -E. induction out as [|o out IH]; simpl; [done|].
    simpl in E. apply andb_true_iff in E as [E1 E2].
    rewrite forallb_app. by rewrite E1, IH. }
  assert (Hk : no_katakana (join out) = true).
  { unfold no_katakana. rewrite forallb_forall in Hh |- *.
    intros c Hc. specialize (Hh c Hc). unfold hiragana in Hh. lia. }
  repeat split.
  - done.
  - by rewrite kata_hira_kata, kata_to_hira_fixed.
  - unfold _hira_to_kata. by rewrite length_map.
  - rewrite !kana_to_romaji_unfold. by rewrite kata_hira_kata.
Qed.

Lemma romaji_to_kana_components_witness :
  forallb hiragana (u "しんぶん") = true
  /\ u "シンブン" = _hira_to_kata (u "しんぶん")
  /\ _kata_to_hira (u "シンブン") = u "しんぶん"
  /\ length (u "シンブン") = length (u "しんぶん")
  /\ kana_to_romaji (u "シンブン") = kana_to_romaji (u "しんぶん").
Proof.
  apply (romaji_to_kana_components no_unicode_lower (u " Shinbun ")).
  vm_compute. reflexivity.
Defined.

(** X8: a non-empty text of white space only is not rejected:
    [romaji_to_kana] returns the pair of empty strings for it, as
    [romaji_to_kana_relaxed] does. *)
Theorem romaji_to_kana_blank (unicode_lower : list Z -> list Z) (s : list Z) :
  s <> [] -> forallb is_space s = true ->
  romaji_to_kana unicode_lower s = Some ([], [])
  /\ romaji_to_kana_relaxed unicode_lower s = ([], []).
Proof.
  intros Hne Hs. unfold romaji_to_kana, romaji_to_kana_relaxed.
  rewrite (strip_spaces s Hs). destruct s as [|x s]; [done|].
  split; reflexivity.
Qed.

Lemma romaji_to_kana_blank_witness :
  romaji_to_kana no_unicode_lower (u "  ") = Some ([], [])
  /\ romaji_to_kana_relaxed no_unicode_lower (u "  ") = ([], []).
Proof.
  apply romaji_to_kana_blank; [discriminate|]. vm_compute. reflexivity.
Defined.

(** *** The relaxed parser *)

Lemma longest_prefix_found (unicode_lower : list Z -> list Z) (s : list Z)
    (n j : nat) (r : list Z * list Z) :
  (j < n)%nat ->
  romaji_to_kana unicode_lower (firstn j s) = Some r ->
  (forall j', (j < j' < n)%nat ->
              romaji_to_kana unicode_lower (firstn j' s) = None) ->
  longest_prefix unicode_lower s n = r.
Proof.
  induction n as [|n IH]; intros Hj Hr Hnone; [lia|].
  simpl. destruct (Nat.eq_dec j n) as [<- | Hne].
  - by rewrite Hr.
  - rewrite Hnone by lia. apply IH; [lia|done|].
    intros j' Hj'. apply Hnone. lia.
Qed.

Lemma longest_prefix_none (unicode_lower : list Z -> list Z) (s : list Z) (n : nat) :
  (forall j, (j < n)%nat -> romaji_to_kana unicode_lower (firstn j s) = None) ->
  longest_prefix unicode_lower s n = ([], []).
Proof.
  induction n as [|n IH]; intros Hnone; [done|].
  simpl. rewrite Hnone by lia. apply IH. intros j Hj. apply Hnone. lia.
Qed.

(** X9: where the strict parser fails on the normalised text,
    [romaji_to_kana_relaxed] returns the result of the strict parser on the
    longest proper prefix it parses, and the pair of empty strings when it
    parses none. *)
Theorem relaxed_longest_prefix (unicode_lower : list Z -> list Z) (s : list Z) :
  romaji_to_kana unicode_lower (lower unicode_lower (strip s)) = None ->
  (forall (j : nat) (r : list Z * list Z),
      (j < length (lower unicode_lower (strip s)))%nat ->
      romaji_to_kana unicode_lower (firstn j (lower unicode_lower (strip s)))
      = Some r ->
      (forall j', (j < j' < length (lower unicode_lower (strip s)))%nat ->
                  romaji_to_kana unicode_lower
                    (firstn j' (lower unicode_lower (strip s))) = None) ->
      romaji_to_kana_relaxed unicode_lower s = r)
  /\ ((forall j, (j < length (lower unicode_lower (strip s)))%nat ->
                 romaji_to_kana unicode_lower
                   (firstn j (lower unicode_lower (strip s))) = None) ->
      romaji_to_kana_relaxed unicode_lower s = ([], [])).
Proof.
  intros Hfail. unfold romaji_to_kana_relaxed.
  destruct (lower unicode_lower (strip s)) as [|x l] eqn:E.
  - split; [intros j r Hj; simpl in Hj; lia|done].
  - rewrite Hfail. split.
    + intros j r Hj Hr Hnone. by apply longest_prefix_found with (j := j).
    + intros Hnone. by apply longest_prefix_none.
Qed.

Lemma relaxed_longest_prefix_witness :
  romaji_to_kana_relaxed no_unicode_lower (u "nekosh") = (u "ねこ", u "ネコ").
Proof.
  apply (proj1 (relaxed_longest_prefix no_unicode_lower (u "nekosh") eq_refl) 4%nat).
  - vm_compute. lia.
  - vm_compute. reflexivity.
  - intros j' Hj'. vm_compute in Hj'.
    assert (j' = 5%nat) as -> by lia. vm_compute. reflexivity.
Defined.



(** X11: the loop of [romaji_to_kana] ends.  With more iterations allowed
    than the text has characters the bound is never hit, and allowing still
    more changes nothing; [romaji_to_kana] allows one more than the
    length. *)
Theorem romaji_loop_terminates (fuel fuel' : nat) (rest : list Z)
    (out : list (list Z)) :
  (length rest < fuel)%nat -> (length rest < fuel')%nat ->
  parse_loop fuel rest out <> None
  /\ parse_loop fuel' rest out = parse_loop fuel rest out.
Proof.
  intros H1 H2. split.
  - clear H2. revert rest out H1.
    induction fuel as [|fuel IH]; intros rest out Hlt; [lia|].
    destruct rest as [|c rest]; [done|].
    rewrite parse_loop_cons.
    destruct (parse_at (c :: rest)) as [[k n]|] eqn:E; [|done].
    apply IH. apply parse_at_advance in E.
    rewrite length_skipn. simpl in *. lia.
  - revert fuel' rest out H1 H2.
    induction fuel as [|fuel IH]; intros fuel' rest out Hlt Hlt'; [lia|].
    destruct fuel' as [|fuel']; [lia|].
    destruct rest as [|c rest]; [done|].
    rewrite !parse_loop_cons.
    destruct (parse_at (c :: rest)) as [[k n]|] eqn:E; [|done].
    apply parse_at_advance in E.
    apply IH; rewrite length_skipn; simpl in *; lia.
Qed.

Lemma romaji_loop_terminates_witness :
  parse_loop 5 (u "neko") [] <> None
  /\ parse_loop 9 (u "neko") [] = parse_loop 5 (u "neko") [].
Proof. apply romaji_loop_terminates; vm_compute; lia. Defined.

End RomajiFacts.

(** ** Further properties of the scheduler *)

Module SchedulerFacts.
Import Db Sm2 FloatFacts Sm2Facts.
Local Open Scope float_scope.

(** *** Interval and repetition *)

Lemma grown_interval_positive (interval : Z) (ef : float) (n : Z) :
  grown_interval interval ef = Py.Ok n -> (1 <= n)%Z.
Proof.
  unfold grown_interval. destruct (float_of_int interval) as [fi|e]; [|done].
  simpl. destruct (py_round (fi * ef)) as [m|e]; [|done].
  simpl. intros [= <-]. lia.
Qed.

(** X12: whatever the card, for a quality from 0 to 5 the interval
    [sm2_update] returns is at least one day; a quality below 3 returns
    interval 1 and repetition 0, any other quality the repetition counted
    up by one; the call raises only where the product of interval and
    easiness cannot be rounded. *)
Theorem sm2_interval_positive (card_row : Row) (q : Z) :
  (0 <= q <= 5)%Z ->
  match sm2_update card_row q with
  | Py.Ok (interval, repetition, _) =>
      (1 <= interval)%Z
      /\ (if (q <? 3)%Z then interval = 1%Z /\ repetition = 0%Z
          else repetition = (row_repetition card_row + 1)%Z)
  | Py.Raise e =>
      (3 <= q)%Z
      /\ grown_interval (row_interval card_row) (row_ef card_row) = Py.Raise e
  end.
Proof.
  intros Hq. destruct (quality_step q Hq) as [Hd _].
  destruct (q <? 3)%Z eqn:Hq3.
  - rewrite (sm2_update_lapse card_row q _ Hq3 Hd). repeat split; lia.
  - rewrite (sm2_update_pass card_row q _ Hq3 Hd). cbv zeta.
    destruct (row_repetition card_row + 1 =? 1)%Z; [split; [lia|done]|].
    destruct (row_repetition card_row + 1 =? 2)%Z; [split; [lia|done]|].
    destruct (grown_interval _ _) as [n|e] eqn:E.
    + split; [|done]. by apply grown_interval_positive in E.
    + split; [lia|done].
Qed.

Lemma sm2_interval_positive_witness :
  match sm2_update new_card 5 with
  | Py.Ok (interval, repetition, _) => (1 <= interval)%Z /\ repetition = 1%Z
  | Py.Raise e => False
  end.
Proof.
  pose proof (sm2_interval_positive new_card 5 ltac:(lia)) as H.
  destruct (sm2_update new_card 5) as [[[i r] ef']|e] eqn:E.
  - exact H.
  - vm_compute in E. discriminate E.
Defined.

(** The first two passes are scheduled without regard to the stored
    interval and easiness: a quality from 3 to 5 on a card of repetition 0
    gives interval 1 and repetition 1, on a card of repetition 1 interval
    6 and repetition 2, and the call does not raise. *)
Lemma sm2_first_passes (card_row : Row) (q : Z) :
  (3 <= q <= 5)%Z ->
  (row_repetition card_row = 0%Z ->
   sm2_update card_row q
   = Py.Ok (1%Z, 1%Z,
            floor_easiness (easiness_step (row_ef card_row) (nearest_float (5 - q)))))
  /\ (row_repetition card_row = 1%Z ->
      sm2_update card_row q
      = Py.Ok (6%Z, 2%Z,
               floor_easiness (easiness_step (row_ef card_row) (nearest_float (5 - q))))).
Proof.
  intros Hq. destruct (quality_step q ltac:(lia)) as [Hd _].
  assert (Hq3 : (q <? 3)%Z = false) by lia.
  split; intros Hr; rewrite (sm2_update_pass card_row q _ Hq3 Hd), Hr; reflexivity.
Qed.

Example sm2_first_pass_hard :
  sm2_update new_card 3 = Py.Ok (1%Z, 1%Z, 2.36).
Proof. vm_compute. reflexivity. Qed.

(** *** Quality 4 *)

Lemma add_zero (x : float) : (1.3 <=? x) = true -> x + 0 = x.
Proof.
  rewrite leb_spec. intros H. apply Prim2SF_inj. rewrite add_spec.
  change (Prim2SF 0) with (S754_zero false).
  destruct (Prim2SF x) as [s|s| |s m e]; done.
Qed.

Lemma leb_not_ltb (x : float) : (1.3 <=? x) = true -> (x <? 1.3) = false.
Proof.
  rewrite leb_spec, ltb_spec. unfold SFleb, SFltb.
  rewrite (SFcompare_swap (Prim2SF x)).
  by destruct (SFcompare (Prim2SF x) (Prim2SF 1.3)) as [[]|].
Qed.

(** X13: an answer of quality 4 leaves the easiness as it is, for every
    easiness from the floor 1.3 upwards (infinity included): the step
    [0.1 - 1 * (0.08 + 1 * 0.02)] is exactly zero in binary64. *)
Theorem sm2_good_keeps_easiness (card_row : Row) :
  (1.3 <=? row_ef card_row) = true ->
  match sm2_update card_row 4 with
  | Py.Ok (_, _, ef') => ef' = row_ef card_row
  | Py.Raise e =>
      grown_interval (row_interval card_row) (row_ef card_row) = Py.Raise e
  end.
Proof.
  intros Hef.
  assert (Hd : float_of_int (5 - 4) = Py.Ok 1) by (vm_compute; reflexivity).
  assert (Hstep : floor_easiness (easiness_step (row_ef card_row) 1)
                  = row_ef card_row).
  { unfold easiness_step.
    replace (0.1 - 1 * (0.08 + 1 * 0.02)) with 0 by (vm_compute; reflexivity).
    rewrite add_zero by done. unfold floor_easiness. by rewrite leb_not_ltb. }
  rewrite (sm2_update_pass card_row 4 1 eq_refl Hd). cbv zeta. rewrite Hstep.
  destruct (row_repetition card_row + 1 =? 1)%Z; [done|].
  destruct (row_repetition card_row + 1 =? 2)%Z; [done|].
  by destruct (grown_interval _ _).
Qed.

Lemma sm2_good_keeps_easiness_witness :
  match sm2_update new_card 4 with
  | Py.Ok (_, _, ef') => ef' = 2.5
  | Py.Raise e => False
  end.
Proof.
  pose proof (sm2_good_keeps_easiness new_card eq_refl) as H.
  destruct (sm2_update new_card 4) as [[[i r] ef']|e] eqn:E.
  - exact H.
  - vm_compute in E. discriminate E.
Defined.

End SchedulerFacts.

(** ** Properties of the card store *)

Module StoreFacts.
Import PyStr Db TranslitFacts DbFacts.

(** *** The order of text values *)

Lemma text_compare_eq (a b : list Z) : text_compare a b = Eq -> a = b.
Proof.
  revert b. induction a as [|x a IH]; intros [|y b]; simpl; try done.
  destruct (Z.compare_spec x y) as [->| |]; try done.
  intros H. by rewrite (IH _ H).
Qed.

Lemma text_compare_refl (a : list Z) : text_compare a a = Eq.
Proof. induction a as [|x a IH]; simpl; [done|]. by rewrite Z.compare_refl. Qed.

Lemma text_compare_antisym (a b : list Z) :
  text_compare b a = CompOpp (text_compare a b).
Proof.
  revert b. induction a as [|x a IH]; intros [|y b]; simpl; try done.
  rewrite (Z.compare_antisym x y).
  destruct (x ?= y); simpl; done.
Qed.

Lemma text_compare_trans (a b c : list Z) :
  text_compare a b = Lt -> text_compare b c = Lt -> text_compare a c = Lt.
Proof.
  revert b c. induction a as [|x a IH]; intros [|y b] [|z c]; simpl; try done.
  destruct (Z.compare_spec x y) as [->|Hxy|Hxy]; try done.
  - destruct (Z.compare_spec y z) as [->|Hyz|Hyz]; try done. apply IH.
  - intros _. destruct (Z.compare_spec y z) as [->|Hyz|Hyz]; try done.
    + intros _. by apply Z.compare_lt_iff in Hxy as ->.
    + intros _. assert (H : x < z) by lia. by apply Z.compare_lt_iff in H as ->.
Qed.

Lemma nullable_compare_eq (a b : option (list Z)) :
  nullable_compare a b = Eq -> a = b.
Proof.
  destruct a as [a|], b as [b|]; simpl; try done.
  intros H. by rewrite (text_compare_eq _ _ H).
Qed.

Lemma nullable_compare_refl (a : option (list Z)) : nullable_compare a a = Eq.
Proof. destruct a; simpl; [apply text_compare_refl|done]. Qed.

Lemma nullable_compare_antisym (a b : option (list Z)) :
  nullable_compare b a = CompOpp (nullable_compare a b).
Proof. destruct a, b; simpl; try done. apply text_compare_antisym. Qed.

Lemma nullable_compare_trans (a b c : option (list Z)) :
  nullable_compare a b = Lt -> nullable_compare b c = Lt ->
  nullable_compare a c = Lt.
Proof. destruct a, b, c; simpl; try done. apply text_compare_trans. Qed.

Lemma by_unit_id_antisym (a b : Row) :
  by_unit_id b a = CompOpp (by_unit_id a b).
Proof.
  unfold by_unit_id, by_id.
  rewrite (nullable_compare_antisym (row_unit a) (row_unit b)).
  destruct (nullable_compare (row_unit a) (row_unit b)); simpl; try done.
  apply Z.compare_antisym.
Qed.

Lemma unit_id_le_trans (a b c : Row) :
  unit_id_le a b -> unit_id_le b c -> unit_id_le a c.
Proof.
  unfold unit_id_le, by_unit_id, by_id.
  destruct (nullable_compare (row_unit a) (row_unit b)) eqn:Hab; [| |done].
  - apply nullable_compare_eq in Hab. rewrite Hab.
    destruct (nullable_compare (row_unit b) (row_unit c)); try done.
    intros H1 H2. rewrite Z.compare_gt_iff in *. lia.
  - intros _.
    destruct (nullable_compare (row_unit b) (row_unit c)) eqn:Hbc; [| |done].
    + apply nullable_compare_eq in Hbc. rewrite <- Hbc, Hab. done.
    + by rewrite (nullable_compare_trans _ _ _ Hab Hbc).
Qed.

(** *** Insertion keeps the rows and their order *)

Lemma insert_by_perm (cmp : Row -> Row -> comparison) (r : Row) (l : list Row) :
  Permutation (insert_by cmp r l) (r :: l).
Proof.
  induction l as [|x l IH]; simpl; [done|].
  destruct (cmp r x); try done.
  rewrite IH. apply perm_swap.
Qed.

Lemma order_by_perm (cmp : Row -> Row -> comparison) (l : list Row) :
  Permutation (order_by cmp l) l.
Proof.
  unfold order_by. induction l as [|x l IH]; simpl; [done|].
  rewrite insert_by_perm. by constructor.
Qed.

Section Sorting.

Variable cmp : Row -> Row -> comparison.
Hypothesis cmp_antisym : forall a b, cmp b a = CompOpp (cmp a b).
Hypothesis cmp_trans :
  forall a b c, cmp a b <> Gt -> cmp b c <> Gt -> cmp a c <> Gt.

Lemma insert_by_sorted (r : Row) (l : list Row) :
  StronglySorted (fun a b => cmp a b <> Gt) l ->
  StronglySorted (fun a b => cmp a b <> Gt) (insert_by cmp r l).
Proof.
  induction l as [|x l IH]; intros Hl; simpl.
  - repeat constructor.
  - inversion Hl as [|? ? Hl' Hx]; subst.
    destruct (cmp r x) eqn:E.
    + constructor; [done|]. constructor; [by rewrite E|].
      eapply Forall_impl; [exact Hx|]. intros y Hy. cbv beta.
      apply (cmp_trans r x y); [by rewrite E|done].
    + constructor; [done|]. constructor; [by rewrite E|].
      eapply Forall_impl; [exact Hx|]. intros y Hy. cbv beta.
      apply (cmp_trans r x y); [by rewrite E|done].
    + constructor; [by apply IH|].
      rewrite (insert_by_perm cmp r l). constructor; [|done].
      rewrite (cmp_antisym r x), E. done.
Qed.

Lemma order_by_sorted (l : list Row) :
  StronglySorted (fun a b => cmp a b <> Gt) (order_by cmp l).
Proof.
  unfold order_by. induction l as [|x l IH]; simpl; [constructor|].
  by apply insert_by_sorted.
Qed.

End Sorting.

Lemma by_id_antisym (a b : Row) : by_id b a = CompOpp (by_id a b).
Proof. unfold by_id. apply Z.compare_antisym. Qed.

Lemma by_id_trans (a b c : Row) :
  by_id a b <> Gt -> by_id b c <> Gt -> by_id a c <> Gt.
Proof. unfold by_id. rewrite !Z.compare_gt_iff. lia. Qed.

(** *** The scope of a query *)

Lemma sorted_same_unit (name : list Z) (l : list Row) :
  Forall (fun r => unit_is name r = true) l ->
  StronglySorted (fun a b => by_id a b <> Gt) l ->
  StronglySorted unit_id_le l.
Proof.
  intros Hall Hs. induction Hs as [|x l Hs IH Hx]; [constructor|].
  inversion Hall as [|? ? Hux Hul]; subst.
  constructor; [by apply IH|].
  rewrite List.Forall_forall in Hx, Hul |- *. intros y Hy.
  specialize (Hx y Hy). specialize (Hul y Hy).
  unfold unit_id_le, by_unit_id. unfold unit_is in Hux, Hul.
  destruct (row_unit x) as [ux|]; [|done]. destruct (row_unit y) as [uy|]; [|done].
  apply str_eqb_eq in Hux as ->. apply str_eqb_eq in Hul as ->.
  simpl. by rewrite text_compare_refl.
Qed.

Lemma filter_all (l : list Row) : List.filter (fun _ : Row => true) l = l.
Proof. induction l as [|x l IH]; simpl; [done|]. by rewrite IH. Qed.

Lemma list_cards_by_unit_perm (conn : Conn) (unit : UnitArg) :
  Permutation (list_cards_by_unit conn unit)
    (List.filter (in_scope unit) (cards conn)).
Proof.
  unfold list_cards_by_unit, in_scope, select_all, select_unit, select_units_in.
  destruct unit as [|name|names].
  - rewrite filter_all. apply order_by_perm.
  - destruct (str_eqb name [] || str_eqb name all_units).
    + rewrite filter_all. apply order_by_perm.
    + apply order_by_perm.
  - destruct (collect_units names ∅ []) as [|n0 units].
    + rewrite filter_all. apply order_by_perm.
    + apply order_by_perm.
Qed.

(** X14: [list_cards_by_unit] returns every card of its scope exactly once,
    and returns them in ascending order of unit and, within a unit, of id;
    this holds for the single-unit query too, which orders by id only. *)
Theorem list_cards_by_unit_sorted (conn : Conn) (unit : UnitArg) :
  Permutation (list_cards_by_unit conn unit)
    (List.filter (in_scope unit) (cards conn))
  /\ StronglySorted unit_id_le (list_cards_by_unit conn unit).
Proof.
  split; [apply list_cards_by_unit_perm|].
  unfold list_cards_by_unit, select_all, select_unit, select_units_in.
  destruct unit as [|name|names].
  - apply order_by_sorted; [apply by_unit_id_antisym|apply unit_id_le_trans].
  - destruct (str_eqb name [] || str_eqb name all_units).
    + apply order_by_sorted; [apply by_unit_id_antisym|apply unit_id_le_trans].
    + apply (sorted_same_unit name).
      * apply List.Forall_forall. intros r Hr.
        rewrite (order_by_perm by_id _) in Hr.
        apply filter_In in Hr as [_ Hr]. exact Hr.
      * apply order_by_sorted; [apply by_id_antisym|apply by_id_trans].
  - destruct (collect_units names ∅ []) as [|n0 units];
      apply order_by_sorted; try apply by_unit_id_antisym; apply unit_id_le_trans.
Qed.

(** *** The names of a multi-unit scope *)

Lemma collect_units_acc (names : list (option (list Z))) (seen : gset (list Z))
    (units : list (list Z)) :
  (forall x, x ∈ seen <-> In x units) -> NoDup units ->
  NoDup (collect_units names seen units)
  /\ forall x, In x (collect_units names seen units) <->
               In x units
               \/ (x <> [] /\ x <> all_units
                   /\ exists n, In n names /\ strip (default [] n) = x).
Proof.
  revert seen units. induction names as [|n names IH]; intros seen units Hseen Hnd.
  - simpl. split; [done|]. intros x. split; [by left|].
    intros [H | (_ & _ & n & [] & _)]. done.
  - simpl. set (name := strip (default [] n)).
    destruct (str_eqb name [] || str_eqb name all_units) eqn:Hblank.
    + destruct (IH seen units Hseen Hnd) as [H1 H2]. split; [done|].
      intros x. rewrite H2. split.
      * intros [H | (? & ? & m & ? & ?)]; [by left|].
        right. repeat split; try done. exists m. split; [by right|done].
      * intros [H | (Hx1 & Hx2 & m & [<- | ?] & Hm)]; [by left| |].
        -- exfalso. fold name in Hm. subst x.
           apply orb_true_iff in Hblank as [H%str_eqb_eq | H%str_eqb_eq]; done.
        -- right. repeat split; try done. by exists m.
    + destruct (bool_decide (name ∈ seen)) eqn:Hin.
      * apply bool_decide_eq_true in Hin. apply Hseen in Hin.
        destruct (IH seen units Hseen Hnd) as [H1 H2]. split; [done|].
        intros x. rewrite H2. split.
        -- intros [H | (? & ? & m & ? & ?)]; [by left|].
           right. repeat split; try done. exists m. split; [by right|done].
        -- intros [H | (Hx1 & Hx2 & m & [<- | ?] & Hm)]; [by left| |].
           ++ left. fold name in Hm. by subst x.
           ++ right. repeat split; try done. by exists m.
      * apply bool_decide_eq_false in Hin.
        assert (Hnotin : ~ In name units) by (intros H; by apply Hin, Hseen).
        destruct (IH ({[ name ]} ∪ seen) (units ++ [name])) as [H1 H2].
        -- intros x. rewrite elem_of_union, elem_of_singleton, Hseen, in_app_iff.
           simpl. split; intros [H|H]; auto. by destruct H as [<-|[]]; auto.
        -- apply NoDup_app. repeat split; [done| |apply NoDup_singleton].
           intros x Hx%list_elem_of_In ->%list_elem_of_singleton. done.
        -- split; [done|]. intros x. rewrite H2, in_app_iff. simpl.
           apply orb_false_iff in Hblank as [Hb1 Hb2].
           assert (Hn1 : name <> []) by (intros H; rewrite H in Hb1; done).
           assert (Hn2 : name <> all_units).
           { intros H. rewrite H, str_eqb_refl in Hb2. done. }
           split.
           ++ intros [[H | [<- | []]] | (? & ? & m & ? & ?)].
              ** by left.
              ** right. repeat split; try done. exists n. split; [by left|done].
              ** right. repeat split; try done. exists m. split; [by right|done].
           ++ intros [H | (Hx1 & Hx2 & m & [<- | ?] & Hm)].
              ** left. by left.
              ** left. right. left. done.
              ** right. repeat split; try done. by exists m.
Qed.

(** X15: the names a multi-unit scope is reduced to are the given names
    trimmed, without the empty name and the name of all units, and each of
    them once. *)
Theorem collect_units_spec (names : list (option (list Z))) :
  NoDup (collect_units names ∅ [])
  /\ forall x, In x (collect_units names ∅ []) <->
               x <> [] /\ x <> all_units
               /\ exists n, In n names /\ strip (default [] n) = x.
Proof.
  destruct (collect_units_acc names ∅ []) as [H1 H2].
  - intros x. split; [by intros ?%elem_of_empty|done].
  - apply NoDup_nil_2.
  - split; [done|]. intros x. rewrite H2. split; [by intros [[]|?]|by right].
Qed.

(** *** The units of the table *)

Lemma insert_distinct_In (x y : option (list Z)) (l : list (option (list Z))) :
  In y (insert_distinct x l) <-> y = x \/ In y l.
Proof.
  induction l as [|z l IH]; simpl; [intuition (subst; auto)|].
  destruct (nullable_compare x z) eqn:E; simpl.
  - apply nullable_compare_eq in E as ->. intuition (subst; auto).
  - intuition (subst; auto).
  - rewrite IH. intuition (subst; auto).
Qed.

Lemma insert_distinct_sorted (x : option (list Z)) (l : list (option (list Z))) :
  StronglySorted (fun a b => nullable_compare a b = Lt) l ->
  StronglySorted (fun a b => nullable_compare a b = Lt) (insert_distinct x l).
Proof.
  induction l as [|z l IH]; intros Hl; simpl.
  - repeat constructor.
  - inversion Hl as [|? ? Hl' Hz]; subst.
    destruct (nullable_compare x z) eqn:E.
    + done.
    + constructor; [done|]. constructor; [done|].
      eapply Forall_impl; [exact Hz|]. intros y Hy. cbv beta.
      by apply (nullable_compare_trans x z y).
    + constructor; [by apply IH|].
      apply List.Forall_forall. intros y [-> | Hy]%insert_distinct_In.
      * by rewrite (nullable_compare_antisym x z), E.
      * rewrite List.Forall_forall in Hz. by apply Hz.
Qed.

Lemma select_distinct_units_spec (conn : Conn) :
  StronglySorted (fun a b => nullable_compare a b = Lt) (select_distinct_units conn)
  /\ forall x, In x (select_distinct_units conn)
               <-> exists r, In r (cards conn) /\ row_unit r = x.
Proof.
  unfold select_distinct_units. induction (cards conn) as [|r l [IH1 IH2]]; simpl.
  - split; [constructor|]. intros x. split; [done|]. by intros (? & [] & _).
  - split; [by apply insert_distinct_sorted|].
    intros x. rewrite insert_distinct_In, IH2. split.
    + intros [-> | (r' & Hr & Hx)].
      * exists r. split; [by left|done].
      * exists r'. split; [by right|done].
    + intros (r' & [<- | Hr] & Hx); [by left|].
      right. by exists r'.
Qed.

Lemma flat_map_some (l : list (option (list Z))) (x : list Z) :
  In x (flat_map (fun x : option (list Z) =>
                    match x with Some (c :: r) => [c :: r] | _ => [] end) l)
  <-> x <> [] /\ In (Some x) l.
Proof.
  rewrite in_flat_map. split.
  - intros ([[|c r]|] & Hy & Hx); simpl in Hx; try done.
    destruct Hx as [<-|[]]. done.
  - intros [Hx Hy]. exists (Some x). split; [done|].
    destruct x as [|c r]; [done|]. by left.
Qed.

Lemma list_units_members (conn : Conn) (x : list Z) :
  In x (list_units conn)
  <-> x <> [] /\ exists r, In r (cards conn) /\ row_unit r = Some x.
Proof.
  unfold list_units. rewrite flat_map_some.
  by rewrite (proj2 (select_distinct_units_spec conn)).
Qed.

(** X16: [list_units] lists the units of the table in ascending order,
    each once; a name is listed exactly when it is not empty and some card
    has it as its unit. *)
Theorem list_units_sorted (conn : Conn) :
  StronglySorted (fun a b => text_compare a b = Lt) (list_units conn)
  /\ forall x, In x (list_units conn)
               <-> x <> [] /\ exists r, In r (cards conn) /\ row_unit r = Some x.
Proof.
  split; [|apply list_units_members].
  destruct (select_distinct_units_spec conn) as [Hs _].
  unfold list_units.
  induction Hs as [|y l Hs IH Hy]; simpl; [constructor|].
  assert (Hrest : forall s, y = Some s ->
                            Forall (fun b => text_compare s b = Lt)
                              (flat_map (fun x : option (list Z) =>
                                           match x with
                                           | Some (c :: r) => [c :: r]
                                           | _ => []
                                           end) l)).
  { intros s ->. apply List.Forall_forall. intros b [_ Hb]%flat_map_some.
    rewrite List.Forall_forall in Hy. exact (Hy _ Hb). }
  destruct y as [[|c r]|]; simpl; try done.
  constructor; [done|]. by apply Hrest.
Qed.

(** *** Adding and reading a card *)





(** *** Deleting *)

Lemma find_filter (f p : Row -> bool) (l : list Row) :
  (forall x, f x = true -> p x = true) ->
  find f (List.filter p l) = find f l.
Proof.
  intros H. induction l as [|x l IH]; simpl; [done|].
  destruct (p x) eqn:Hp; simpl.
  - by destruct (f x).
  - destruct (f x) eqn:Hf; [|done]. rewrite (H x Hf) in Hp. done.
Qed.

(** X18: after [delete_card] the id reads as absent and every other id as
    before; the reviews of the deleted card are gone with it and no other
    review is. *)
Theorem delete_card_removes (conn : Conn) (card_id : Z) :
  get_card_by_id (delete_card conn card_id) card_id = None
  /\ (forall i, i <> card_id ->
                get_card_by_id (delete_card conn card_id) i = get_card_by_id conn i)
  /\ (forall v, In v (reviews (delete_card conn card_id))
                <-> In v (reviews conn) /\ rev_card_id v <> card_id).
Proof.
  unfold get_card_by_id, delete_card. simpl. split; [|split].
  - destruct (find _ _) as [r|] eqn:E; [|done].
    apply find_some in E as [Hin Hid]. apply filter_In in Hin as [_ Hne]. lia.
  - intros i Hi. apply find_filter. intros x Hx. lia.
  - intros v. rewrite filter_In. split; intros [? ?]; split; try done; lia.
Qed.

Lemma unit_is_iff (unit : list Z) (r : Row) :
  unit_is unit r = true <-> row_unit r = Some unit.
Proof.
  unfold unit_is. destruct (row_unit r) as [x|]; [|done].
  rewrite str_eqb_eq. split; [by intros ->|by intros [= ->]].
Qed.

Lemma filter_filter_neg (p q : Row -> bool) (l : list Row) :
  (forall x, q x = true -> p x = false) ->
  List.filter q (List.filter (fun r => negb (p r)) l) = List.filter q l.
Proof.
  intros H. induction l as [|x l IH]; simpl; [done|].
  destruct (p x) eqn:Hp; simpl.
  - destruct (q x) eqn:Hq; [|done]. rewrite (H x Hq) in Hp. done.
  - by rewrite IH.
Qed.

(** X19: after [delete_unit] the unit counts no card and is no longer
    listed; the cards of every other unit, and their number, are as
    before; the reviews that remain are those of the cards that remain or
    of ids the table did not hold. *)
Theorem delete_unit_empties (conn : Conn) (unit : list Z) :
  count_cards_in_unit (delete_unit conn unit) unit = 0
  /\ ~ In unit (list_units (delete_unit conn unit))
  /\ (forall r, In r (cards (delete_unit conn unit))
                <-> In r (cards conn) /\ row_unit r <> Some unit)
  /\ (forall other, other <> unit ->
                    count_cards_in_unit (delete_unit conn unit) other
                    = count_cards_in_unit conn other)
  /\ (forall v, In v (reviews (delete_unit conn unit))
                <-> In v (reviews conn)
                    /\ forall r, In r (cards conn) -> row_id r = rev_card_id v ->
                                 row_unit r <> Some unit).
Proof.
  assert (Hcards : forall r, In r (cards (delete_unit conn unit))
                             <-> In r (cards conn) /\ row_unit r <> Some unit).
  { intros r. unfold delete_unit. simpl. rewrite filter_In, negb_true_iff.
    rewrite <- unit_is_iff. destruct (unit_is unit r); intuition congruence. }
  split; [|split; [|split; [exact Hcards|split]]].
  - unfold count_cards_in_unit.
    destruct (List.filter _ _) as [|r l] eqn:E; [done|].
    assert (Hin : In r (List.filter (unit_is unit) (cards (delete_unit conn unit))))
      by (rewrite E; by left).
    apply filter_In in Hin as [Hin Hu]. apply Hcards in Hin as [_ Hne].
    by apply unit_is_iff in Hu.
  - intros [_ (r & Hr & Hu)]%list_units_members.
    apply Hcards in Hr as [_ Hne]. done.
  - intros other Hne. unfold count_cards_in_unit, delete_unit. simpl.
    rewrite filter_filter_neg; [done|].
    intros x Hx%unit_is_iff. apply not_true_is_false. intros Hu%unit_is_iff.
    congruence.
  - intros v. unfold delete_unit. simpl. rewrite filter_In. split.
    + intros [Hin Hv]. split; [done|]. intros r Hr Hid Hu.
      apply negb_true_iff in Hv.
      assert (Hex : existsb (fun r => row_id r =? rev_card_id v)
                      (List.filter (unit_is unit) (cards conn)) = true).
      { apply existsb_exists. exists r. split; [|lia].
        apply filter_In. split; [done|]. by apply unit_is_iff. }
      congruence.
    + intros [Hv Hall]. split; [done|].
      apply negb_true_iff, not_true_is_false.
      intros (r & [Hr Hu]%filter_In & Hid)%existsb_exists.
      apply (Hall r Hr); [lia|]. by apply unit_is_iff.
Qed.

(** *** A review and the queue *)

(** X20: [update_card_review] changes neither which cards a query returns
    nor their order: the result of [list_cards_by_unit] after the update is
    the result before it with the row of that id rewritten; the rewritten
    row keeps its id, unit, term, meaning and Japanese columns, and a row
    of another id is not touched. *)
Theorem review_update_keeps_queue (conn : Conn) (card_id interval repetition : Z)
    (ef : float) (last_review due_date : option (list Z)) (unit : UnitArg) :
  let f := reviewed card_id interval repetition ef last_review due_date in
  list_cards_by_unit
    (update_card_review conn card_id interval repetition ef last_review due_date)
    unit
  = map f (list_cards_by_unit conn unit)
  /\ (forall r, row_id (f r) = row_id r /\ row_unit (f r) = row_unit r
                /\ row_term (f r) = row_term r /\ row_meaning (f r) = row_meaning r
                /\ row_jp_kanji (f r) = row_jp_kanji r
                /\ row_jp_kana (f r) = row_jp_kana r)
  /\ (forall r, row_id r <> card_id -> f r = r).
Proof.
  cbv zeta. split; [|split].
  - assert (Hu : forall r, row_unit (reviewed card_id interval repetition ef
                                       last_review due_date r) = row_unit r).
    { intros r. unfold reviewed. by destruct (row_id r =? card_id). }
    assert (Hi : forall r, row_id (reviewed card_id interval repetition ef
                                     last_review due_date r) = row_id r).
    { intros r. unfold reviewed. by destruct (row_id r =? card_id). }
    assert (H1 : forall a b, by_unit_id (reviewed card_id interval repetition ef
                                           last_review due_date a)
                               (reviewed card_id interval repetition ef
                                  last_review due_date b) = by_unit_id a b).
    { intros a b. unfold by_unit_id, by_id. by rewrite !Hu, !Hi. }
    assert (H2 : forall a b, by_id (reviewed card_id interval repetition ef
                                      last_review due_date a)
                               (reviewed card_id interval repetition ef
                                  last_review due_date b) = by_id a b).
    { intros a b. unfold by_id. by rewrite !Hi. }
    unfold list_cards_by_unit, select_all, select_unit, select_units_in.
    change (cards (update_card_review conn card_id interval repetition ef
                     last_review due_date))
      with (map (reviewed card_id interval repetition ef last_review due_date)
              (cards conn)).
    destruct unit as [|name|names].
    + by apply order_by_map.
    + destruct (str_eqb name [] || str_eqb name all_units).
      * by apply order_by_map.
      * rewrite filter_map by (intros a; by rewrite Hu). by apply order_by_map.
    + destruct (collect_units names ∅ []).
      * by apply order_by_map.
      * rewrite filter_map by (intros a; by rewrite Hu). by apply order_by_map.
  - intros r. unfold reviewed. by destruct (row_id r =? card_id).
  - intros r Hr. unfold reviewed. destruct (row_id r =? card_id) eqn:E; [lia|done].
Qed.

(** *** Duplicates *)

(** X21: [_find_duplicate_card] returns the id of a card of the trimmed
    unit whose term is the trimmed kana given, or whose [jp_kanji] is the
    trimmed kanji given (an empty one of the two is not compared), and
    returns [None] exactly when the table holds no such card; the column
    [jp_kana] is not looked at. *)
Theorem find_duplicate_card_spec (conn : Conn) (unit kana kanji : option (list Z)) :
  let unit' := strip (default [] unit) in
  let kana' := strip (default [] kana) in
  let kanji' := strip (default [] kanji) in
  let duplicate (r : Row) :=
    row_unit r = Some unit'
    /\ ((kana' <> [] /\ row_term r = Some kana')
        \/ (kanji' <> [] /\ row_jp_kanji r = Some kanji')) in
  match _find_duplicate_card conn unit kana kanji with
  | Some id => exists r, In r (cards conn) /\ row_id r = id /\ duplicate r
  | None => forall r, In r (cards conn) -> ~ duplicate r
  end.
Proof.
  cbv zeta. unfold _find_duplicate_card.
  generalize (strip (default [] unit)) (strip (default [] kana))
    (strip (default [] kanji)).
  intros unit' kana' kanji'.
  assert (Ht : forall r, match row_term r with
                         | Some x => str_eqb x kana'
                         | None => false
                         end = true <-> row_term r = Some kana').
  { intros r. destruct (row_term r) as [x|]; [|done].
    rewrite str_eqb_eq. split; [by intros ->|by intros [= ->]]. }
  assert (Hk : forall r, match row_jp_kanji r with
                         | Some x => str_eqb x kanji'
                         | None => false
                         end = true <-> row_jp_kanji r = Some kanji').
  { intros r. destruct (row_jp_kanji r) as [x|]; [|done].
    rewrite str_eqb_eq. split; [by intros ->|by intros [= ->]]. }
  destruct kana' as [|k0 kana1], kanji' as [|j0 kanji1].
  - simpl. intros r _ [_ [[? _]|[? _]]]; done.
  - destruct (find _ (cards conn)) as [r|] eqn:E; simpl.
    + apply find_some in E as [Hin [Hu Hj]%andb_true_iff].
      exists r. repeat split; try done; [by apply unit_is_iff|].
      right. split; [done|]. by apply Hk.
    + intros r Hr [Hu [[? _]|[_ Hj]]]; [done|].
      pose proof (find_none _ _ E r Hr) as Hno. cbv beta in Hno.
      apply unit_is_iff in Hu. apply Hk in Hj. by rewrite Hu, Hj in Hno.
  - destruct (find _ (cards conn)) as [r|] eqn:E; simpl.
    + apply find_some in E as [Hin [Hu Hj]%andb_true_iff].
      exists r. repeat split; try done; [by apply unit_is_iff|].
      left. split; [done|]. by apply Ht.
    + intros r Hr [Hu [[_ Hj]|[? _]]]; [|done].
      pose proof (find_none _ _ E r Hr) as Hno. cbv beta in Hno.
      apply unit_is_iff in Hu. apply Ht in Hj. by rewrite Hu, Hj in Hno.
  - destruct (find _ (cards conn)) as [r|] eqn:E; simpl.
    + apply find_some in E as [Hin [Hu Hj]%andb_true_iff].
      exists r. repeat split; try done; [by apply unit_is_iff|].
      apply orb_true_iff in Hj as [Hj|Hj].
      * left. split; [done|]. by apply Ht.
      * right. split; [done|]. by apply Hk.
    + intros r Hr [Hu Hd].
      pose proof (find_none _ _ E r Hr) as Hno. cbv beta in Hno.
      apply unit_is_iff in Hu. rewrite Hu in Hno. simpl in Hno.
      apply orb_false_iff in Hno as [Hn1 Hn2].
      destruct Hd as [[_ Hj]|[_ Hj]].
      * apply Ht in Hj. congruence.
      * apply Hk in Hj. congruence.
Qed.

End StoreFacts.

(** ** Properties of the dictionary *)

Module DictionaryFacts.
Import PyStr LocalDict TranslitFacts StudyFacts LocalDictFacts RomajiFacts.

(** *** The characters of a normalised key *)

Lemma replace_from_introduces (a b : list Z) (k : nat) (s : list Z) (x : Z) :
  In x (replace_from a b k s) -> In x b \/ In x s.
Proof.
  revert k. induction s as [|c s IH]; intros k; simpl; [done|].
  destruct k as [|k].
  - destruct (startswith a (c :: s)).
    + intros [H|H]%in_app_or; [by left|].
      destruct (IH _ H) as [?|?]; [by left|right; by right].
    + intros [->|H]; [right; by left|].
      destruct (IH _ H) as [?|?]; [by left|right; by right].
  - intros H. destruct (IH _ H) as [?|?]; [by left|right; by right].
Qed.

(** A replacement brings in no character that neither the text nor the
    new text has. *)
Lemma replace_keeps_out (a b s : list Z) (x : Z) :
  ~ In x b -> ~ In x s -> ~ In x (replace a b s).
Proof.
  intros Hb Hs H. unfold replace in H.
  by destruct (replace_from_introduces _ _ _ _ _ H).
Qed.

(** Replacing a character removes it. *)
Lemma replace_char_removes (c : Z) (b s : list Z) :
  ~ In c b -> ~ In c (replace [c] b s).
Proof.
  intros Hb. unfold replace. induction s as [|x s IH]; simpl; [tauto|].
  destruct (c =? x) eqn:E; simpl.
  - intros [H|H]%in_app_or; done.
  - intros [->|H]; [lia|done].
Qed.

Lemma squeeze_keeps_out (fuel : nat) (s : list Z) (x : Z) :
  x <> 0x20 -> ~ In x s -> ~ In x (squeeze_spaces fuel s).
Proof.
  intros Hx. revert s. induction fuel as [|fuel IH]; intros s Hs; simpl; [done|].
  destruct (contains (u "  ") s); [|done].
  apply IH. apply replace_keeps_out; [|done].
  change (u " ") with [32]. intros [H|[]]. lia.
Qed.

(** X22: a normalised key holds no carriage return, line feed, ideographic
    space, wave dash, full-width bracket or full-width parenthesis, and no
    two spaces in a row. *)
Theorem norm_key_clean (s : list Z) :
  contains (u "  ") (_norm_key s) = false
  /\ forall c, In c unwanted -> ~ In c (_norm_key s).
Proof.
  unfold _norm_key. destruct s as [|x s]; [split; [done|by intros c _ []]|].
  set (l := x :: s). clearbody l. cbv zeta. split.
  - by apply squeeze_spaces_fuel.
  - intros c Hc. apply squeeze_keeps_out.
    { intros ->. vm_compute in Hc. intuition discriminate. }
    set (s1 := strip (replace [10] (u " ") (replace [13] [] l))).
    assert (H13 : ~ In 13 s1).
    { intros H%strip_incl. revert H. apply replace_keeps_out.
      - vm_compute. intuition discriminate.
      - apply replace_char_removes. simpl. tauto. }
    assert (H10 : ~ In 10 s1).
    { intros H%strip_incl. revert H. apply replace_char_removes.
      vm_compute. intuition discriminate. }
    assert (Hother : forall a b t, ~ In c b -> ~ In c t -> ~ In c (replace a b t))
      by (intros; by apply replace_keeps_out).
    vm_compute in Hc.
    destruct Hc as [<-|[<-|[<-|[<-|[<-|[<-|[<-|[<-|[]]]]]]]]];
      repeat first
        [ apply replace_char_removes; vm_compute; intuition discriminate
        | assumption
        | apply replace_keeps_out; [vm_compute; intuition discriminate|] ].
Qed.

(** *** Storing an entry *)

Lemma existsb_str_eqb (k : list Z) (l : list (list Z)) :
  existsb (str_eqb k) l = true <-> In k l.
Proof.
  rewrite existsb_exists. split.
  - by intros (x & Hx & ->%str_eqb_eq).
  - intros H. exists k. split; [done|apply str_eqb_refl].
Qed.

Lemma fromkeys_In (seen keys : list (list Z)) (x : list Z) :
  In x (fromkeys seen keys) <-> In x keys /\ ~ In x seen.
Proof.
  revert seen. induction keys as [|k keys IH]; intros seen; simpl; [tauto|].
  destruct (existsb (str_eqb k) seen) eqn:E.
  - apply existsb_str_eqb in E. rewrite IH. split; [tauto|].
    intros [[<-|?] ?]; [done|tauto].
  - assert (Hk : ~ In k seen).
    { intros H%existsb_str_eqb. congruence. }
    simpl. rewrite IH. simpl. split.
    + intros [<-|[? ?]]; [tauto|]. tauto.
    + intros [[<-|?] ?]; [tauto|].
      destruct (decide (k = x)) as [->|Hne]; tauto.
Qed.

Lemma store_keys_In (term kana x : list Z) :
  In x (store_keys term kana) <->
  x <> []
  /\ ((term <> [] /\ (x = term \/ x = _norm_key term))
      \/ (kana <> [] /\ _is_kana kana = true /\ (x = kana \/ x = _norm_key kana))).
Proof.
  assert (Hx : str_eqb x [] = false <-> x <> []).
  { destruct x; simpl; split; done. }
  assert (HT : In x (match term with
                     | [] => []
                     | _ :: _ => [term; _norm_key term]
                     end)
               <-> term <> [] /\ (x = term \/ x = _norm_key term)).
  { destruct term as [|t0 term']; cbn [In]; [tauto|].
    intuition (try discriminate; subst; auto). }
  assert (HK : In x (match kana with
                     | [] => []
                     | _ :: _ => if _is_kana kana then [kana; _norm_key kana] else []
                     end)
               <-> kana <> [] /\ _is_kana kana = true
                   /\ (x = kana \/ x = _norm_key kana)).
  { destruct kana as [|k0 kana']; [cbn [In]; tauto|].
    destruct (_is_kana (k0 :: kana')); cbn [In];
      intuition (try discriminate; subst; auto). }
  unfold store_keys. rewrite fromkeys_In, filter_In, in_app_iff.
  rewrite negb_true_iff, Hx, HT, HK. cbn [In]. tauto.
Qed.

Lemma store_fold_lookup (keys : list (list Z)) (m : Indexes)
    (term kana meaning key : list Z) :
  let m' := fold_left (fun m k => (<[ k := meaning ]> (fst m),
                                   <[ k := (term, kana, meaning) ]> (snd m)))
              keys m in
  (In key keys ->
   snd m' !! key = Some (term, kana, meaning) /\ fst m' !! key = Some meaning)
  /\ (~ In key keys ->
      snd m' !! key = snd m !! key /\ fst m' !! key = fst m !! key).
Proof.
  cbv zeta. revert m. induction keys as [|k keys IH]; intros m; simpl.
  - split; [done|]. done.
  - destruct (IH (<[ k := meaning ]> (fst m),
                  <[ k := (term, kana, meaning) ]> (snd m))) as [IH1 IH2].
    simpl in IH1, IH2.
    destruct (in_dec (fun a b : list Z => decide (a = b)) key keys) as [Hin|Hnin].
    + split; [intros _; by apply IH1|]. intros H. exfalso. apply H. by right.
    + destruct (IH2 Hnin) as [E1 E2]. rewrite E1, E2.
      destruct (decide (k = key)) as [->|Hne].
      * rewrite !lookup_insert_eq. split; [done|]. intros H. exfalso. apply H. by left.
      * rewrite !lookup_insert_ne by done. split; [|done].
        intros [?|?]; done.
Qed.

Lemma store_entry_lookup (m : Indexes) (term kana meaning key : list Z) :
  (In key (store_keys term kana) ->
   snd (_store_entry m term kana meaning) !! key = Some (term, kana, meaning)
   /\ fst (_store_entry m term kana meaning) !! key = Some meaning)
  /\ (~ In key (store_keys term kana) ->
      snd (_store_entry m term kana meaning) !! key = snd m !! key
      /\ fst (_store_entry m term kana meaning) !! key = fst m !! key).
Proof. apply store_fold_lookup. Qed.

(** X23: an entry just stored is found.  After [_store_entry], looking up
    the term, with any white space around it, gives the entry in
    [get_full] and its meaning in [get]; so does looking up the reading,
    when it is a kana reading; and a key the entry is not stored under
    reads as before. *)
Theorem store_entry_then_lookup (m : Indexes) (term kana meaning : list Z) :
  term <> [] -> strip term = term ->
  (forall key, strip key = term ->
     get_full (mkDict (snd (_store_entry m term kana meaning))) key
     = Some (term, kana, meaning)
     /\ get (fst (_store_entry m term kana meaning)) key = meaning)
  /\ (forall key, kana <> [] -> _is_kana kana = true -> strip key = kana ->
        get_full (mkDict (snd (_store_entry m term kana meaning))) key
        = Some (term, kana, meaning))
  /\ (forall key, ~ In key (store_keys term kana) ->
        snd (_store_entry m term kana meaning) !! key = snd m !! key
        /\ fst (_store_entry m term kana meaning) !! key = fst m !! key).
Proof.
  intros Hne Hstrip. split; [|split].
  - intros key Hkey.
    assert (Hin : In term (store_keys term kana)).
    { apply store_keys_In. split; [done|]. left. split; [done|by left]. }
    destruct (proj1 (store_entry_lookup m term kana meaning term) Hin) as [E1 E2].
    unfold get_full, get. rewrite Hkey. simpl _entry.
    destruct term as [|t0 term']; [done|]. by rewrite E1, E2.
  - intros key Hk Hkana Hkey.
    assert (Hin : In kana (store_keys term kana)).
    { apply store_keys_In. split; [done|]. right. repeat split; try done. by left. }
    destruct (proj1 (store_entry_lookup m term kana meaning kana) Hin) as [E1 E2].
    unfold get_full. rewrite Hkey. simpl _entry.
    destruct kana as [|k0 kana']; [done|]. by rewrite E1.
  - intros key Hkey. by apply store_entry_lookup.
Qed.

Lemma store_entry_then_lookup_witness :
  get_full (mkDict (snd (_store_entry (∅, ∅) (u "観る") (u "みる") (u "看"))))
    (u " 観る ")
  = Some (u "観る", u "みる", u "看")
  /\ get (fst (_store_entry (∅, ∅) (u "観る") (u "みる") (u "看"))) (u " 観る ")
     = u "看".
Proof.
  apply (proj1 (store_entry_then_lookup (∅, ∅) (u "観る") (u "みる") (u "看")
                  ltac:(discriminate) ltac:(vm_compute; reflexivity))).
  vm_compute. reflexivity.
Defined.

(** *** Loading *)

Lemma index_ok_empty : index_ok (∅, ∅).
Proof. intros key. simpl. by rewrite !lookup_empty. Qed.

Lemma index_ok_store (m : Indexes) (term kana meaning : list Z) :
  term <> [] -> meaning <> [] ->
  strip term = term -> strip kana = kana -> strip meaning = meaning ->
  index_ok m -> index_ok (_store_entry m term kana meaning).
Proof.
  intros Ht Hm Hst Hsk Hsm Hok key.
  destruct (store_entry_lookup m term kana meaning key) as [H1 H2].
  destruct (in_dec (fun a b : list Z => decide (a = b)) key (store_keys term kana)) as [Hin|Hnin].
  - destruct (H1 Hin) as [-> ->].
    apply store_keys_In in Hin as [Hk Hin]. repeat split; try done.
    destruct Hin as [[_ [?|?]]|(_ & ? & ?)]; auto.
  - destruct (H2 Hnin) as [-> ->]. apply Hok.
Qed.

Lemma index_ok_row (unicode_lower : list Z -> list Z) (i : nat)
    (row : list (list Z)) (m : Indexes) :
  index_ok m -> index_ok (read_row unicode_lower i row m).
Proof.
  intros Hok. unfold read_row. destruct row as [|r0 row]; [done|].
  destruct (_ && _); [done|]. destruct (_ <? _)%nat; [done|].
  cbv zeta.
  destruct (strip r0) as [|t0 t] eqn:Et; [done|].
  destruct (strip (if (3 <=? length (r0 :: row))%nat then nth 2 (r0 :: row) []
                   else nth 1 (r0 :: row) [])) as [|m0 mn] eqn:Em; [done|].
  apply index_ok_store; try done.
  - rewrite <- Et. apply strip_idempotent.
  - destruct (3 <=? length (r0 :: row))%nat; [apply strip_idempotent|done].
  - rewrite <- Em. apply strip_idempotent.
Qed.

Lemma index_ok_rows (unicode_lower : list Z -> list Z) (rows : list (list (list Z)))
    (i : nat) (m : Indexes) :
  index_ok m -> index_ok (read_rows unicode_lower i rows m).
Proof.
  revert i m. induction rows as [|row rows IH]; intros i m Hok; [done|].
  simpl. apply IH. by apply index_ok_row.
Qed.

(** X24: the indexes [_read_csv] builds are consistent.  Every entry has a
    trimmed, non-empty term and meaning, and is stored under its term, its
    reading if that is kana, or the normal form of one of them; [get]
    returns the meaning of the entry [get_full] returns, and the empty
    string where [get_full] returns [None]. *)
Theorem loaded_index_sound (unicode_lower : list Z -> list Z)
    (rows : list (list (list Z))) :
  (forall key t k mn,
     snd (_read_csv unicode_lower rows) !! key = Some (t, k, mn) ->
     key <> [] /\ t <> [] /\ mn <> []
     /\ strip t = t /\ strip k = k /\ strip mn = mn
     /\ (key = t \/ key = _norm_key t
         \/ (_is_kana k = true /\ (key = k \/ key = _norm_key k))))
  /\ (forall term,
        get (fst (_read_csv unicode_lower rows)) term
        = match get_full (mkDict (snd (_read_csv unicode_lower rows))) term with
          | Some (_, _, mn) => mn
          | None => []
          end).
Proof.
  pose proof (index_ok_rows unicode_lower rows 0 (∅, ∅) index_ok_empty) as Hok.
  fold (_read_csv unicode_lower rows) in Hok.
  split.
  - intros key t k mn E. specialize (Hok key). rewrite E in Hok. tauto.
  - intros term. unfold get, get_full. simpl _entry.
    destruct (strip term) as [|c r]; [done|].
    pose proof (Hok (c :: r)) as H1.
    destruct (snd (_read_csv unicode_lower rows) !! (c :: r)) as [[[t k] mn]|].
    + destruct H1 as [-> _]. done.
    + rewrite H1.
      pose proof (Hok (_norm_key (c :: r))) as H2.
      destruct (snd (_read_csv unicode_lower rows) !! _norm_key (c :: r))
        as [[[t k] mn]|].
      * destruct H2 as [-> _]. done.
      * by rewrite H2.
Qed.

End DictionaryFacts.

(** ** Properties of a session *)

Module SessionFacts.
Import PyStr Translit Db Sm2 LocalDict Study.
Import TranslitFacts StudyFacts KanaFacts RomajiFacts.

(** *** A session as a sequence of calls *)

Lemma call_ok_refl (w : StudyWindow) : call_ok w w.
Proof.
  split; [done|split; [done|split]].
  - exists []. split; [by rewrite app_nil_r|simpl; lia].
  - by left.
Qed.

Lemma update_content (conn : Conn) (card_id interval repetition : Z) (ef : float)
    (last_review due_date : option (list Z)) :
  map content (cards (update_card_review conn card_id interval repetition ef
                        last_review due_date))
  = map content (cards conn).
Proof.
  unfold update_card_review. simpl. rewrite map_map. apply map_ext.
  intros r. by destruct (row_id r =? card_id).
Qed.

Ltac solve_step :=
  unfold call_ok; cbn;
  split; [reflexivity|split; [first [reflexivity|apply update_content]|split]];
  [ first [ exists []; split; [by rewrite app_nil_r|simpl; lia]
          | eexists; split; [reflexivity|simpl; lia] ]
  | first [ left; split; lia
          | right; split; [lia|first [left; lia|right; lia]] ] ].

Lemma toggle_meaning_step (w : StudyWindow) : call_ok w (toggle_meaning w).
Proof.
  unfold toggle_meaning.
  destruct w as [db0 queue0 idx0 cur0 tot0 cor0 sh0 rated0 ts0 txt0 box0 ie0 ce0
                   fe0 re0 cont0 lbl0 vis0 cl0 calls0].
  cbn. destruct cur0 as [[row mode]|]; [|apply call_ok_refl].
  destruct sh0, (mode =? 0), box0; solve_step.
Qed.

Lemma submit_rating_step (env : Env) (quality : Z) (w : StudyWindow) :
  call_ok w (submit_rating env quality w).
Proof.
  unfold submit_rating, _record_review, elapsed.
  destruct w as [db0 queue0 idx0 cur0 tot0 cor0 sh0 rated0 ts0 txt0 box0 ie0 ce0
                   fe0 re0 cont0 lbl0 vis0 cl0 calls0].
  cbn. destruct rated0; [apply call_ok_refl|].
  destruct ((quality =? 4) || (quality =? 5)); cbn;
    destruct cur0 as [[row mode]|]; cbn; try destruct (row_id row =? 0); cbn;
    solve_step.
Qed.

Lemma check_answer_step (env : Env) (w : StudyWindow) :
  call_ok w (fst (check_answer env w)).
Proof.
  unfold check_answer.
  destruct (current w) as [[row mode]|] eqn:Hcur; [|apply call_ok_refl].
  destruct (negb (mode =? 1)); [apply call_ok_refl|]. cbv zeta.
  set (user_input := norm (Some (input_text w))).
  set (correct := exact_match row user_input).
  unfold _record_review, elapsed.
  destruct w as [db0 queue0 idx0 cur0 tot0 cor0 sh0 rated0 ts0 txt0 box0 ie0 ce0
                   fe0 re0 cont0 lbl0 vis0 cl0 calls0].
  cbn in Hcur. subst cur0.
  destruct (sm2_update row _) as [[[i r] e]|e]; destruct correct, rated0, box0; cbn;
    destruct (row_id row =? 0); cbn; solve_step.
Qed.

Lemma mark_fail_step (env : Env) (w : StudyWindow) :
  call_ok w (fst (mark_fail env w)).
Proof.
  unfold mark_fail.
  destruct (current w) as [[row mode]|] eqn:Hcur; [|apply call_ok_refl].
  destruct (negb (mode =? 1)); [apply call_ok_refl|]. cbv zeta.
  unfold _record_review, elapsed.
  destruct w as [db0 queue0 idx0 cur0 tot0 cor0 sh0 rated0 ts0 txt0 box0 ie0 ce0
                   fe0 re0 cont0 lbl0 vis0 cl0 calls0].
  cbn in Hcur. subst cur0.
  destruct (sm2_update row 1) as [[[i r] e]|e]; destruct box0; cbn;
    try destruct (row_id row =? 0); cbn; solve_step.
Qed.

Lemma show_card_step (env : Env) (card : Row * Z) (w : StudyWindow) :
  call_ok w (show_card env card w).
Proof.
  unfold show_card. destruct card as [row mode].
  destruct w as [db0 queue0 idx0 cur0 tot0 cor0 sh0 rated0 ts0 txt0 box0 ie0 ce0
                   fe0 re0 cont0 lbl0 vis0 cl0 calls0].
  cbn. destruct (mode =? 1); solve_step.
Qed.

Lemma call_ok_trans (w1 w2 w3 : StudyWindow) :
  call_ok w1 w2 ->
  queue w3 = queue w2 -> db w3 = db w2 ->
  session_total w3 = session_total w2 -> session_correct w3 = session_correct w2 ->
  call_ok w1 w3.
Proof.
  intros (H1 & H2 & H3 & H4) Hq Hd Ht Hc. unfold call_ok.
  by rewrite Hq, Hd, Ht, Hc.
Qed.

Lemma next_card_step (env : Env) (w : StudyWindow) : call_ok w (next_card env w).
Proof.
  unfold next_card. cbv zeta.
  match goal with
  | |- call_ok _ (if ?c then _ else _) => destruct c
  end.
  - destruct w as [db0 queue0 idx0 cur0 tot0 cor0 sh0 rated0 ts0 txt0 box0 ie0 ce0
                     fe0 re0 cont0 lbl0 vis0 cl0 calls0].
    cbn. destruct cur0 as [[row mode]|]; [destruct (mode =? 0)|]; solve_step.
  - match goal with
    | |- call_ok _ (match ?c with Some _ => _ | None => _ end) => destruct c as [card|]
    end.
    + eapply call_ok_trans; [apply call_ok_refl|..];
        destruct card as [row mode];
        destruct w as [db0 queue0 idx0 cur0 tot0 cor0 sh0 rated0 ts0 txt0 box0 ie0
                         ce0 fe0 re0 cont0 lbl0 vis0 cl0 calls0];
        cbn; destruct cur0 as [[row' mode']|]; try destruct (mode' =? 0);
        cbn; destruct (mode =? 1); reflexivity.
    + destruct w as [db0 queue0 idx0 cur0 tot0 cor0 sh0 rated0 ts0 txt0 box0 ie0 ce0
                       fe0 re0 cont0 lbl0 vis0 cl0 calls0].
      cbn. destruct cur0 as [[row mode]|]; [destruct (mode =? 0)|]; solve_step.
Qed.

Lemma type_answer_step (text : list Z) (w : StudyWindow) :
  call_ok w (type_answer text w).
Proof.
  unfold type_answer.
  destruct w as [db0 queue0 idx0 cur0 tot0 cor0 sh0 rated0 ts0 txt0 box0 ie0 ce0
                   fe0 re0 cont0 lbl0 vis0 cl0 calls0].
  cbn. destruct ie0; solve_step.
Qed.

Lemma keyPressEvent_step (env : Env) (key : Key) (w : StudyWindow) :
  call_ok w (keyPressEvent env key w).
Proof.
  unfold keyPressEvent.
  destruct key; repeat case_match;
    first [ apply call_ok_refl | apply toggle_meaning_step
          | apply submit_rating_step | apply next_card_step ].
Qed.

Lemma handle_step (env : Env) (ev : Event) (w : StudyWindow) :
  call_ok w (handle env ev w).
Proof.
  destruct ev; simpl.
  - apply toggle_meaning_step.
  - apply submit_rating_step.
  - apply check_answer_step.
  - apply mark_fail_step.
  - apply type_answer_step.
  - apply next_card_step.
  - apply keyPressEvent_step.
  - unfold try_space_continue. destruct (continue_enabled w);
      [apply next_card_step|apply toggle_meaning_step].
Qed.

(** X25: through any sequence of calls of the handlers the number of
    correct answers stays between 0 and the number of cards done, neither
    number decreases, and each call counts at most one card. *)
Theorem session_score_bounded (evs : list (Env * Event)) (w : StudyWindow) :
  0 <= session_correct w <= session_total w ->
  0 <= session_correct (run evs w) <= session_total (run evs w)
  /\ session_correct w <= session_correct (run evs w)
  /\ session_total w <= session_total (run evs w)
     <= session_total w + Z.of_nat (length evs).
Proof.
  revert w. induction evs as [|[env ev] evs IH]; intros w Hw; simpl run.
  - simpl. lia.
  - destruct (handle_step env ev w) as (_ & _ & _ & Ht).
    assert (Hw' : 0 <= session_correct (handle env ev w)
                  <= session_total (handle env ev w)) by lia.
    specialize (IH _ Hw'). simpl length. lia.
Qed.

Lemma session_score_bounded_witness :
  0 <= session_correct (run [(sample_env 2000, Confirm); (sample_env 3000, GiveUp)]
                          (presented neko_row 1))
    <= session_total (run [(sample_env 2000, Confirm); (sample_env 3000, GiveUp)]
                        (presented neko_row 1)).
Proof.
  apply (session_score_bounded
           [(sample_env 2000, Confirm); (sample_env 3000, GiveUp)]
           (presented neko_row 1)).
  vm_compute. split; discriminate.
Defined.

(** X26: a session changes no card's content and loses no review.
    Through any sequence of calls of the handlers the queue stays the
    same, the table holds the same cards with the same id, language, unit,
    term, meaning, creation time and Japanese columns, and the table of
    reviews is the one before with at most one row per call appended. *)
Theorem session_keeps_cards (evs : list (Env * Event)) (w : StudyWindow) :
  queue (run evs w) = queue w
  /\ map content (cards (db (run evs w))) = map content (cards (db w))
  /\ exists new, reviews (db (run evs w)) = reviews (db w) ++ new
                 /\ (length new <= length evs)%nat.
Proof.
  revert w. induction evs as [|[env ev] evs IH]; intros w; simpl run.
  - split; [done|split; [done|]]. exists []. split; [by rewrite app_nil_r|done].
  - destruct (handle_step env ev w) as (Hq & Hc & (new1 & Hr1 & Hl1) & _).
    destruct (IH (handle env ev w)) as (Hq' & Hc' & (new2 & Hr2 & Hl2)).
    split; [congruence|split; [congruence|]].
    exists (new1 ++ new2). split.
    + by rewrite Hr2, Hr1, app_assoc.
    + rewrite length_app. simpl. lia.
Qed.

(** *** The keyboard *)

(** X27: what the keys can and cannot do.  No key takes the window off a
    Recognition card that has not been rated; on a Recall card whose answer
    is hidden, pressing the space bar twice moves to the next position of
    the queue without counting the card, writing a review or calling the
    scheduler. *)
Theorem keyboard_advance (env env' : Env) (w : StudyWindow) (row : Row) :
  (current w = Some (row, 0) -> _rated w = false ->
   forall key,
     idx (keyPressEvent env key w) = idx w
     /\ current (keyPressEvent env key w) = current w
     /\ closed (keyPressEvent env key w) = closed w)
  /\ (current w = Some (row, 1) -> showing_mean w = false ->
      let w' := keyPressEvent env' Key_Space (keyPressEvent env Key_Space w) in
      idx w' = idx w + 1
      /\ session_total w' = session_total w
      /\ session_correct w' = session_correct w
      /\ db w' = db w
      /\ sm2_calls w' = sm2_calls w).
Proof.
  split.
  - intros Hcur Hr key. unfold keyPressEvent, current_mode_is, toggle_meaning,
      submit_rating, _record_review, elapsed.
    destruct w as [db0 queue0 idx0 cur0 tot0 cor0 sh0 rated0 ts0 txt0 box0 ie0 ce0
                     fe0 re0 cont0 lbl0 vis0 cl0 calls0].
    cbn in Hcur, Hr. subst cur0 rated0.
    destruct key, sh0; cbn; try done;
      repeat match goal with
             | |- context [if ?c then _ else _] => destruct c; cbn
             end; done.
  - intros Hcur Hs. cbv zeta.
    unfold keyPressEvent, current_mode_is, toggle_meaning, next_card, show_card.
    destruct w as [db0 queue0 idx0 cur0 tot0 cor0 sh0 rated0 ts0 txt0 box0 ie0 ce0
                     fe0 re0 cont0 lbl0 vis0 cl0 calls0].
    cbn in Hcur, Hs. subst cur0 sh0. cbn.
    destruct box0, rated0; cbn;
      repeat match goal with
             | |- context [if ?c then _ else _] => destruct c; cbn
             | |- context [match nth_error ?l ?n with _ => _ end] =>
                 destruct (nth_error l n) as [[? ?]|]; cbn
             end; done.
Qed.

Lemma keyboard_advance_witness :
  idx (keyPressEvent (sample_env 3000) Key_Space
         (keyPressEvent (sample_env 2000) Key_Space (presented neko_row 1)))
  = idx (presented neko_row 1) + 1
  /\ idx (keyPressEvent (sample_env 2000) Key_Space (presented neko_row 0))
     = idx (presented neko_row 0).
Proof.
  split.
  - apply (proj2 (keyboard_advance (sample_env 2000) (sample_env 3000)
                    (presented neko_row 1) neko_row) eq_refl eq_refl).
  - apply (proj1 (keyboard_advance (sample_env 2000) (sample_env 2000)
                    (presented neko_row 0) neko_row) eq_refl eq_refl Key_Space).
Defined.

(** X28: hiding the meaning again does not take the rating back.  On a
    Recognition card that is not rated, showing the meaning and hiding it
    leaves the rating buttons enabled with the meaning hidden, and a
    rating given then is counted. *)
Theorem hide_keeps_rating_enabled (env : Env) (w : StudyWindow) (row : Row)
    (quality : Z) :
  current w = Some (row, 0) -> _rated w = false -> showing_mean w = false ->
  let w' := toggle_meaning (toggle_meaning w) in
  rating_enabled w' = true
  /\ showing_mean w' = false /\ mean_visible w' = false
  /\ session_total (submit_rating env quality w') = session_total w + 1.
Proof.
  intros Hcur Hr Hs. cbv zeta.
  unfold toggle_meaning, submit_rating, _record_review, elapsed.
  destruct w as [db0 queue0 idx0 cur0 tot0 cor0 sh0 rated0 ts0 txt0 box0 ie0 ce0
                   fe0 re0 cont0 lbl0 vis0 cl0 calls0].
  cbn in Hcur, Hr, Hs. subst cur0 rated0 sh0. cbn.
  repeat split.
  destruct ((quality =? 4) || (quality =? 5)); cbn;
    destruct (row_id row =? 0); cbn; done.
Qed.

Lemma hide_keeps_rating_enabled_witness :
  rating_enabled (presented neko_row 0) = false
  /\ rating_enabled (toggle_meaning (toggle_meaning (presented neko_row 0))) = true
  /\ showing_mean (toggle_meaning (toggle_meaning (presented neko_row 0))) = false.
Proof.
  split; [reflexivity|].
  destruct (hide_keeps_rating_enabled (sample_env 2000) (presented neko_row 0)
              neko_row 4 eq_refl eq_refl eq_refl) as (H1 & H2 & _).
  exact (conj H1 H2).
Defined.

(** *** What is shown and what is accepted *)

Lemma has_kana_strip (s : list Z) : _has_kana (strip s) = true -> _has_kana s = true.
Proof.
  unfold _has_kana. rewrite !existsb_exists.
  intros (x & Hx%strip_incl & H). by exists x.
Qed.

(** X29: the kana and the romaji of a card.  [pick_kana] returns a text
    with kana or the empty string, never a romaji reading; a [jp_kana]
    column that holds kana is the kana shown, and the romaji shown is then
    the romanization of the text given; a [jp_kana] column that, trimmed,
    is a non-empty ASCII text is the romaji shown and is not the kana
    shown. *)
Theorem kana_and_romaji_shown (row : Row) :
  (pick_kana row = [] \/ _has_kana (pick_kana row) = true)
  /\ (_has_kana (get_jp_kana row) = true ->
      pick_kana row = get_jp_kana row
      /\ forall k, pick_romaji row k = kana_to_romaji k)
  /\ (get_jp_kana row <> [] -> Forall (fun c => c < 0x80) (get_jp_kana row) ->
      (forall k, pick_romaji row k = get_jp_kana row)
      /\ pick_kana row
         = (if _has_kana (norm (row_term row)) then norm (row_term row) else [])).
Proof.
  assert (Hjk : strip (get_jp_kana row) = get_jp_kana row).
  { unfold get_jp_kana. apply strip_idempotent. }
  assert (Hex : _has_kana (get_jp_kana row) = true ->
                _is_romaji (get_jp_kana row) = false).
  { intros Hk. unfold _is_romaji. destruct (get_jp_kana row); [done|].
    by rewrite Hk. }
  split; [|split].
  - unfold pick_kana. rewrite Hjk.
    destruct (_has_kana (get_jp_kana row)) eqn:E1; [by right|].
    destruct (_has_kana (norm (row_term row))) eqn:E2; [by right|by left].
  - intros Hk. split.
    + unfold pick_kana. by rewrite Hk, Hjk.
    + intros k. unfold pick_romaji. rewrite (Hex Hk). by destruct k.
  - intros Hne Hascii.
    assert (Hr : _is_romaji (get_jp_kana row) = true) by (by apply is_romaji_iff).
    split.
    + intros k. unfold pick_romaji. by rewrite Hr, Hjk.
    + unfold pick_kana.
      destruct (_has_kana (get_jp_kana row)) eqn:E; [|done].
      rewrite (Hex eq_refl) in Hr. done.
Qed.

Lemma kana_and_romaji_shown_witness :
  pick_kana neko_row = get_jp_kana neko_row
  /\ forall k, pick_romaji neko_row k = kana_to_romaji k.
Proof.
  apply (proj1 (proj2 (kana_and_romaji_shown neko_row))). vm_compute. reflexivity.
Defined.

(** Every text [check_answer] compares the input with is a written form
    of the card as [jp_answer_set] lists them: the trimmed term, [jp_kanji]
    or [jp_kana]; and [jp_answer_set] holds no empty string. *)
Lemma answers_are_written_forms (row : Row) :
  answer_set row ⊆ jp_answer_set row /\ [] ∉ jp_answer_set row.
Proof.
  assert (Hjp : forall x, x ∈ jp_answer_set row <->
                          x <> []
                          /\ (x = norm (row_term row) \/ x = get_jp_kanji row
                              \/ x = get_jp_kana row)).
  { intros x. unfold jp_answer_set. cbv zeta. rewrite elem_of_filter.
    unfold get_jp_kanji, get_jp_kana, norm.
    destruct (row_jp_kanji row) as [[|j0 j]|], (row_jp_kana row) as [[|k0 k]|];
      rewrite ?elem_of_union, ?elem_of_singleton; simpl default;
      change (strip []) with (@nil Z);
      intuition (subst; try congruence; auto). }
  split.
  - intros x [Hne Hx]%answer_set_spec. apply Hjp. split; [done|].
    destruct Hx as [-> | [-> | [-> _]]]; [|by right; left|by left].
    assert (Hjk : strip (get_jp_kana row) = get_jp_kana row).
    { unfold get_jp_kana. apply strip_idempotent. }
    unfold pick_kana in *. rewrite Hjk in *.
    destruct (_has_kana (get_jp_kana row)); [by right; right|].
    destruct (_has_kana (norm (row_term row))); [by left|done].
  - intros [H _]%Hjp. done.
Qed.

End SessionFacts.

(** ** Properties of the queue *)

Module QueueFacts.
Import PyStr Translit Db Sm2 LocalDict Study.
Import TranslitFacts StudyFacts DbFacts StoreFacts.

(** *** Integers below [2^53] as floats *)

Lemma digits_iter (p k : positive) :
  digits2_pos (Pos.iter xO p k) = (digits2_pos p + k)%positive.
Proof.
  induction k as [|k IH] using Pos.peano_ind.
  - simpl. by rewrite Pos.add_1_r.
  - rewrite Pos.iter_succ. simpl. rewrite IH. by rewrite Pos.add_succ_r.
Qed.

(** A mantissa of 53 digits is not shifted. *)
Lemma shr_fexp_exact (m : positive) (e : Z) :
  Z.pos (digits2_pos m) = 53 -> -1074 <= e <= 971 ->
  shr_fexp prec emax (Z.pos m) e loc_Exact
  = ({| shr_m := Z.pos m; shr_r := false; shr_s := false |}, e).
Proof.
  intros Hd He. unfold shr_fexp. simpl Zdigits2. rewrite Hd.
  replace (fexp prec emax (53 + e) - e) with 0; [done|].
  unfold fexp, emin, prec, emax. lia.
Qed.

Lemma round_exact (s : bool) (m : positive) (e : Z) :
  Z.pos (digits2_pos m) = 53 -> -1074 <= e <= 971 ->
  binary_round_aux prec emax s (Z.pos m) e loc_Exact = S754_finite s m e.
Proof.
  intros Hd He.
  unfold binary_round_aux. rewrite shr_fexp_exact by done. simpl.
  rewrite shr_fexp_exact by done. simpl.
  replace (e <=? emax - prec) with true; [done|].
  unfold emax, prec. lia.
Qed.

(** The product with [1.0], whose mantissa is [2^52] and exponent [-52]. *)
Lemma mul_one_exact (s : bool) (m : positive) (e : Z) :
  Z.pos (digits2_pos m) = 53 -> -1074 <= e <= 971 ->
  binary_round_aux prec emax s (Z.pos (m * 4503599627370496)) (e + -52) loc_Exact
  = S754_finite s m e.
Proof.
  intros Hd He.
  assert (Hm : (m * 4503599627370496)%positive = Pos.iter xO m 52).
  { rewrite Pos.mul_comm. reflexivity. }
  assert (Hsh : shr_fexp prec emax (Z.pos (m * 4503599627370496)) (e + -52) loc_Exact
                = ({| shr_m := Z.pos m; shr_r := false; shr_s := false |}, e)).
  { unfold shr_fexp. rewrite Hm.
    change (Zdigits2 (Z.pos (Pos.iter xO m 52)))
      with (Z.pos (digits2_pos (Pos.iter xO m 52))).
    rewrite digits_iter.
    rewrite Pos2Z.inj_add, Hd.
    replace (fexp prec emax (53 + 52 + (e + -52)) - (e + -52)) with 52
      by (unfold fexp, emin, prec, emax; lia).
    unfold shr. replace (e + -52 + 52) with e by lia.
    reflexivity. }
  unfold binary_round_aux. rewrite Hsh. simpl.
  rewrite shr_fexp_exact by done. simpl.
  replace (e <=? emax - prec) with true; [done|].
  unfold emax, prec. lia.
Qed.

(** A number below [2^53] has at most 53 binary digits. *)
Lemma digits_bound (p : positive) :
  Z.pos p < 2 ^ 53 -> Z.pos (digits2_pos p) <= 53.
Proof.
  intros Hp.
  assert (H : forall q, 2 ^ (Z.pos (digits2_pos q) - 1) <= Z.pos q).
  { induction q as [q IH|q IH|]; simpl digits2_pos.
    - rewrite Pos2Z.inj_succ.
      replace (Z.succ (Z.pos (digits2_pos q)) - 1)
        with (Z.succ (Z.pos (digits2_pos q) - 1)) by lia.
      rewrite Z.pow_succ_r by lia. lia.
    - rewrite Pos2Z.inj_succ.
      replace (Z.succ (Z.pos (digits2_pos q)) - 1)
        with (Z.succ (Z.pos (digits2_pos q) - 1)) by lia.
      rewrite Z.pow_succ_r by lia. lia.
    - simpl. lia. }
  specialize (H p).
  destruct (Z_le_gt_dec (Z.pos (digits2_pos p)) 53) as [?|Hgt]; [done|].
  exfalso.
  assert (2 ^ 53 <= 2 ^ (Z.pos (digits2_pos p) - 1)) by (apply Z.pow_le_mono_r; lia).
  lia.
Qed.

(** [float(n)] is exact below [2^53]. *)
Lemma nearest_float_exact (p : positive) :
  Z.pos p < 2 ^ 53 ->
  exists (m : positive) (e : Z),
    binary_normalize prec emax (Z.pos p) 0 false = S754_finite false m e
    /\ Z.pos (digits2_pos m) = 53 /\ -52 <= e <= 0
    /\ Z.pos m = Z.pos p * 2 ^ (- e).
Proof.
  intros Hp. pose proof (digits_bound p Hp) as Hd.
  unfold binary_normalize, binary_round.
  replace (fexp prec emax (Z.pos (digits2_pos p) + 0))
    with (Z.pos (digits2_pos p) - 53)
    by (unfold fexp, emin, prec, emax; lia).
  unfold shl_align.
  destruct (Z.pos (digits2_pos p) - 53 - 0) as [|k|k] eqn:Ek; [|lia|].
  - exists p, 0. rewrite round_exact by lia. repeat split; lia.
  - exists (Pos.iter xO p k), (Z.pos (digits2_pos p) - 53).
    assert (Hdk : Z.pos (digits2_pos (Pos.iter xO p k)) = 53).
    { rewrite digits_iter, Pos2Z.inj_add. lia. }
    rewrite round_exact by lia. repeat split; try lia.
    change (Pos.iter xO p k) with (shift_pos k p).
    rewrite shift_pos_correct.
    replace (- (Z.pos (digits2_pos p) - 53)) with (Z.pos k) by lia.
    change (2 ^ Z.pos k) with (Z.pow_pos 2 k). lia.
Qed.

(** [int(n * 1.0)] is [n] for a positive [n] below [2^53]. *)
Lemma num_mode0_exact (n : Z) :
  0 < n < 2 ^ 53 ->
  (fn ← float_of_int n; py_int (fn * 1.0)%float) = Py.Ok n.
Proof.
  intros Hn. destruct n as [|p|p]; try lia.
  destruct (nearest_float_exact p ltac:(lia)) as (m & e & Hb & Hd & He & Hm).
  assert (Hv : valid_binary (S754_finite false m e) = true).
  { unfold valid_binary, bounded, canonical_mantissa.
    rewrite Hd. unfold fexp, emin, prec, emax. lia. }
  assert (Hf : Prim2SF (nearest_float (Z.pos p)) = S754_finite false m e).
  { unfold nearest_float. rewrite Hb. by apply Prim2SF_SF2Prim. }
  unfold float_of_int.
  assert (Hinf : is_infinity (nearest_float (Z.pos p)) = false).
  { unfold is_infinity. rewrite FloatAxioms.eqb_spec, abs_spec, Hf. reflexivity. }
  rewrite Hinf. simpl.
  unfold py_int. rewrite mul_spec, Hf.
  change (Prim2SF 1) with (S754_finite false 4503599627370496 (-52)).
  unfold SF64mul, SFmul. simpl xorb. rewrite mul_one_exact by lia.
  f_equal.
  destruct (0 <=? e) eqn:E.
  - assert (e = 0) by lia. subst e. simpl in Hm. lia.
  - rewrite Hm. rewrite Z.div_mul; [done|]. apply Z.pow_nonzero; lia.
Qed.

(** *** The rows and the modes of the queue *)

Lemma list_cards_by_unit_length (conn : Conn) (unit : UnitArg) :
  (length (list_cards_by_unit conn unit) <= length (cards conn))%nat.
Proof.
  rewrite (Permutation_length (list_cards_by_unit_perm conn unit)).
  apply filter_length_le.
Qed.

Lemma list_cards_all_length (conn : Conn) :
  length (list_cards_by_unit conn UnitNone) = length (cards conn).
Proof.
  rewrite (Permutation_length (list_cards_by_unit_perm conn UnitNone)).
  simpl. by rewrite filter_all.
Qed.

Lemma queue_rows_length (conn : Conn) (unit_filter : UnitArg) (include_all : bool) :
  (length (queue_rows conn unit_filter include_all) <= length (cards conn))%nat.
Proof.
  unfold queue_rows, list_due_cards. cbv zeta.
  pose proof (list_cards_by_unit_length conn (normal_unit unit_filter)) as H1.
  pose proof (list_cards_by_unit_length conn UnitNone) as H2.
  destruct include_all;
    destruct (list_cards_by_unit conn (normal_unit unit_filter)) as [|r l];
    destruct (normal_unit unit_filter); simpl in *; lia.
Qed.

Lemma queue_rows_empty (conn : Conn) (unit_filter : UnitArg) (include_all : bool) :
  queue_rows conn unit_filter include_all = [] <-> cards conn = [].
Proof.
  pose proof (list_cards_all_length conn) as Hall.
  pose proof (list_cards_by_unit_length conn (normal_unit unit_filter)) as Hle.
  unfold queue_rows, list_due_cards. cbv zeta.
  assert (Hnil : forall l : list Row, l = [] <-> length l = 0%nat).
  { intros l. destruct l; simpl; split; done. }
  destruct include_all;
    destruct (list_cards_by_unit conn (normal_unit unit_filter)) as [|r l] eqn:E;
    destruct (normal_unit unit_filter) eqn:Eu;
    rewrite ?E in *; rewrite !Hnil in *; simpl in *; try lia.
Qed.

Lemma shuffle_zeros (shuffle : list Z -> list Z) (n : nat) :
  (forall l, Permutation (shuffle l) l) ->
  shuffle (repeat 0 n ++ repeat 1 (Z.to_nat 0)) = repeat 0 n.
Proof.
  intros Hs. simpl. rewrite app_nil_r.
  specialize (Hs (repeat 0 n)).
  assert (Hall : Forall (fun x => x = 0) (shuffle (repeat 0 n))).
  { apply List.Forall_forall. intros x Hx.
    apply (Permutation_in _ Hs) in Hx. by apply repeat_spec in Hx. }
  apply Permutation_length in Hs. rewrite repeat_length in Hs.
  revert Hs Hall. generalize (shuffle (repeat 0 n)). intros l <- Hall.
  induction Hall as [|x l -> Hall IH]; simpl; [done|]. by rewrite <- IH.
Qed.

Lemma combine_zeros (rows : list Row) :
  combine rows (repeat 0 (length rows)) = map (fun r => (r, 0)) rows.
Proof. induction rows as [|r rows IH]; simpl; [done|]. by rewrite IH. Qed.

(** X30: [prepare_queue] asks every card in the Recognition direction.
    With a table of fewer than [2^53] cards it does not raise; the queue
    it builds holds the rows fetched, in the order fetched and each with
    mode 0, whatever the shuffle; the first of them is shown; and the
    queue is empty exactly when the table holds no card. *)
Theorem prepare_queue_all_recognition (env : Env) (shuffle : list Z -> list Z)
    (unit_filter : UnitArg) (include_all : bool) (w : StudyWindow) :
  (forall l, Permutation (shuffle l) l) ->
  Z.of_nat (length (cards (db w))) < 2 ^ 53 ->
  prepare_queue env shuffle unit_filter include_all w
  = inl match queue_rows (db w) unit_filter include_all with
        | [] => with_idx (-1) (with_queue [] w)
        | row :: rows =>
            show_card env (row, 0)
              (with_idx 0 (with_queue (map (fun r => (r, 0)) (row :: rows)) w))
        end
  /\ (queue_rows (db w) unit_filter include_all = [] <-> cards (db w) = []).
Proof.
  intros Hs Hn. split; [|apply queue_rows_empty].
  pose proof (queue_rows_length (db w) unit_filter include_all) as Hlen.
  unfold prepare_queue. cbv zeta.
  destruct (queue_rows (db w) unit_filter include_all) as [|row rows] eqn:E.
  - reflexivity.
  - set (l := row :: rows) in *.
    assert (H0 : (Z.of_nat (length l) =? 0) = false) by (subst l; simpl; lia).
    rewrite H0. rewrite num_mode0_exact by (subst l; simpl in *; lia).
    rewrite Z.sub_diag, Nat2Z.id, shuffle_zeros by done.
    rewrite combine_zeros. subst l. reflexivity.
Qed.

Lemma prepare_queue_all_recognition_witness :
  prepare_queue (sample_env 1000) (@rev Z) (UnitStr (u "L1")) false
    (blank_window (mkConn [miru_row; neko_row] []) [])
  = inl (show_card (sample_env 1000) (neko_row, 0)
           (with_idx 0
              (with_queue [(neko_row, 0); (miru_row, 0)]
                 (blank_window (mkConn [miru_row; neko_row] []) [])))).
Proof.
  apply (proj1 (prepare_queue_all_recognition (sample_env 1000) (@rev Z)
                  (UnitStr (u "L1")) false
                  (blank_window (mkConn [miru_row; neko_row] []) [])
                  (fun l => Permutation_sym (Permutation_rev l))
                  ltac:(vm_compute; reflexivity))).
Defined.

End QueueFacts.
